(** * PanDelos-plus: k-mer similarity and bidirectional best hits

    A shallow embedding of [src/lib/Homology.hh],
    [src/lib/bbh/BBHCandidatesContainer.hh] and
    [src/include/KmersHandler.hh], with the properties stated in the
    specification proved (or refuted) over it.

    Conventions.
    - Unsigned machine integers are values of [Z] with the wrap-around of
      every arithmetic operation written out ([wrap]).  [std::size_t] is
      64 bits wide.  The width of [shared::multiplicityType] is declared in
      [VariablesTypes.hh], which is not part of the sources at hand; it is
      the parameter [mult_bits] wherever it matters.
    - Row and column indexes are [nat]: every loop over them is bounded by
      a container size, so they never wrap.
    - A score ([shared::scoreType], a binary floating point type) is
      modelled by its exact rational value together with the two special
      results of a division by zero; rounding is not modelled.
    - The tasks handed to the thread pool touch disjoint rows (row phase)
      or only read shared state (column phase), and the driver waits for
      all of them before it goes on.  They are run here one after the
      other, in submission order; the order of the lines in the output is
      therefore one of the orders the program can produce. *)

From Stdlib Require Import ZArith QArith Lqa Lia List Bool.
From stdpp Require Import gmap strings list fin_maps sorting.

Local Open Scope Z_scope.

(* ================================================================== *)
(** * Part I: the program                                              *)
(* ================================================================== *)

(** ** Machine integers *)

Definition wrap (bits : Z) (x : Z) : Z := x mod 2 ^ bits.

Definition size_bits : Z := 64.

(** The sum of [f] over a list. *)
Definition sum_over {A : Type} (f : A -> Z) (l : list A) : Z :=
  foldr (fun x acc => f x + acc) 0 l.

(** ** kmers::KmersHandler *)

Module KmersHandler.

(** Modelled from the spec: the class [Kmer], declared in [Kmer.hh], which
    is not part of the sources at hand: the occurrences of one k-mer, by
    the indexes of its first characters ("multiplicity: occurrence count
    of a given k-mer").  [Kmer(i)] holds the index [i], [addIndex] adds
    one, [getMultiplicity] counts them. *)
Record Kmer : Type := mkKmer { indexes : list Z }.

Definition Kmer_new (i : Z) : Kmer := mkKmer [i].
Definition addIndex (kmer : Kmer) (i : Z) : Kmer := mkKmer (indexes kmer ++ [i]).
Definition getMultiplicity (kmer : Kmer) : Z := Z.of_nat (length (indexes kmer)).

(** The objects [calculateKmers] works on.  Both maps hold pointers to the
    same [Kmer] objects: [heap] is the store of these objects, an address
    being the number of objects allocated before. *)
Record state : Type := mkState {
  heap : list Kmer;
  currentKmers : gmap string nat;   (* std::unordered_map<std::string, Kmer*> *)
  dictionary_ : gmap Z nat          (* std::unordered_map<std::size_t, Kmer*> *)
}.

Definition initial : state := mkState [] ∅ ∅.

(** How a call ends: it returns, or [std::string::substr] throws
    [std::out_of_range].  [OutOfFuel] is the model's own; the loop never
    ends that way (see [calculateKmers_loop_fuel]). *)
Inductive outcome : Type :=
| Returned (st : state)
| ThrownOutOfRange (st : state)
| OutOfFuel (st : state).

(** [alphabet_.substr(pos, count)]: the characters from [pos] on, at most
    [count] of them; an exception when [pos] is past the end. *)
Definition substr (alphabet : string) (pos count : Z) : option string :=
  if Z.of_nat (String.length alphabet) <? pos then None
  else Some (String.substring (Z.to_nat pos) (Z.to_nat count) alphabet).

(** [map.insert(make_pair(key, value))]: an existing key keeps its value. *)
Definition insert_new `{Countable K} {V : Type} (key : K) (value : V)
  (m : gmap K V) : gmap K V :=
  match m !! key with
  | Some _ => m
  | None => <[key := value]> m
  end.

(** The body of the loop for a window [ss] at index [i]. *)
Definition record_window (st : state) (ss : string) (i : Z) : state :=
  match currentKmers st !! ss with
  | None =>
      let tmpKmer := length (heap st) in
      mkState (heap st ++ [Kmer_new i])
              (insert_new ss tmpKmer (currentKmers st))
              (insert_new i tmpKmer (dictionary_ st))
  | Some kmer =>
      mkState (alter (fun x => addIndex x i) kmer (heap st))
              (currentKmers st) (dictionary_ st)
  end.

(** The [for] loop, from index [i] on. *)
Fixpoint calculateKmers_loop (fuel : nat) (alphabet : string) (k_ kmersNum : Z)
  (i : Z) (st : state) : outcome :=
  match fuel with
  | O => OutOfFuel st
  | S fuel' =>
      if i <? kmersNum then
        match substr alphabet i k_ with
        | None => ThrownOutOfRange st
        | Some ss =>
            calculateKmers_loop fuel' alphabet k_ kmersNum
              (wrap size_bits (i + 1)) (record_window st ss i)
        end
      else Returned st
  end.

(** [alphabet_.length() - k_ + 1] in [std::size_t]. *)
Definition kmersNum (alphabet : string) (k_ : Z) : Z :=
  wrap size_bits
    (wrap size_bits (Z.of_nat (String.length alphabet) - k_) + 1).

(** [KmersHandler::calculateKmers], on a handler that was just
    constructed with [k_] and [alphabet_].  The loop leaves before index
    [alphabet_.length() + 2]: at [alphabet_.length() + 1] [substr]
    throws. *)
Definition calculateKmers (k_ : Z) (alphabet : string) : outcome :=
  calculateKmers_loop (String.length alphabet + 2) alphabet k_
    (kmersNum alphabet k_) 0 initial.

(** The sum of the multiplicities of the k-mers of the dictionary. *)
Definition totalMultiplicity (st : state) : Z :=
  sum_over (fun entry : Z * nat =>
              default 0 (getMultiplicity <$> heap st !! entry.2))
           (map_to_list (dictionary_ st)).

End KmersHandler.

(** ** Scores *)

Module Score.

(** The value of a [score_t] expression: a rational number, or one of
    the two results an IEEE 754 division of non-negative operands by
    zero can have. *)
Inductive score_t : Type :=
| SNaN : score_t
| SFin : Q -> score_t
| SInf : score_t.

(** Conversion of an integer constant, as in [score_t bestScore = -1]
    and [return 0]. *)
Definition of_int (z : Z) : score_t := SFin (inject_Z z).

Definition zero : score_t := of_int 0.
Definition minus_one : score_t := of_int (-1).

(** [1.0 * num / den] for unsigned [num] and [den]. *)
Definition fdiv (num den : Z) : score_t :=
  if den =? 0 then (if num =? 0 then SNaN else SInf)
  else SFin (num # Z.to_pos den).

(** [a > b] *)
Definition gtb (a b : score_t) : bool :=
  match a, b with
  | SFin p, SFin q => negb (Qle_bool p q)
  | SInf, SFin _ => true
  | _, _ => false
  end.

(** [a == b] *)
Definition eqb (a b : score_t) : bool :=
  match a, b with
  | SFin p, SFin q => Qeq_bool p q
  | SInf, SInf => true
  | _, _ => false
  end.

(** [a < b] *)
Definition ltb (a b : score_t) : bool := gtb b a.

Definition is_nan (a : score_t) : bool :=
  match a with SNaN => true | _ => false end.

End Score.

Import Score.

(** ** K-mer containers

    [kmers::KmersContainer] is declared outside the sources at hand. *)

(** Modelled from the spec: the class [kmers::KmersContainer] (data model,
    "KmerContainer (per gene)"): a sequence of (key, multiplicity) pairs
    in ascending key order, with the key bounds and the total multiplicity
    cached when the container is built. *)
Record KmersContainer : Type := mkKmersContainer {
  getKmerSet : list (Z * Z);
  getSmallerKey : Z;
  getBiggerKey : Z;
  getMultiplicityNumber : Z
}.

(** Modelled from the spec: the part of [gene::Gene] that the similarity
    computation and the output read (data model, "Gene"); [getKmersNum] is
    the number of distinct k-mers ("canonical ordering"). *)
Record Gene : Type := mkGene {
  getAlphabetLength : Z;
  getKmersNum : Z;
  getGeneFilePosition : Z;
  getKmerContainer : KmersContainer
}.

(** ** Homology::calculateSimilarity *)

Section Similarity.

(** Width in bits of [shared::multiplicityType]. *)
Variable mult_bits : Z.

(** The four accumulators of the streaming merge. *)
Record merge_state : Type := mkMerge {
  num : Z;                          (* std::size_t *)
  den : Z;                          (* std::size_t *)
  currentShortestMultiplicity : Z;  (* multiplicity_t *)
  currentLongestMultiplicity : Z    (* multiplicity_t *)
}.

Definition merge_init : merge_state := mkMerge 0 0 0 0.

(** The body of the [else] branch: both cursors are on the same key. *)
Definition merge_match (st : merge_state) (currentKmerValue longestVal : Z)
  : merge_state :=
  {| num := wrap size_bits
              (num st + (if currentKmerValue <? longestVal
                         then currentKmerValue else longestVal));
     den := wrap size_bits
              (den st + (if currentKmerValue <? longestVal
                         then longestVal else currentKmerValue));
     currentShortestMultiplicity :=
       wrap mult_bits (currentShortestMultiplicity st + currentKmerValue);
     currentLongestMultiplicity :=
       wrap mult_bits (currentLongestMultiplicity st + longestVal) |}.

(** The [while] loop of the container overload.  The two lists are what
    is left between each cursor and the end of its set. *)
Fixpoint merge_loop (longestBiggerKey : Z) (shortest : list (Z * Z))
  : list (Z * Z) -> merge_state -> merge_state :=
  match shortest with
  | [] => fun _ st => st
  | (shortestKey, currentKmerValue) :: shortest' =>
      fix advance_longest (longest : list (Z * Z)) (st : merge_state)
        : merge_state :=
        match longest with
        | [] => st
        | (longestKey, longestVal) :: longest' =>
            if longestBiggerKey <? shortestKey then st
            else if shortestKey <? longestKey
                 then merge_loop longestBiggerKey shortest' longest st
            else if longestKey <? shortestKey
                 then advance_longest longest' st
            else merge_loop longestBiggerKey shortest' longest'
                   (merge_match st currentKmerValue longestVal)
        end
  end.

(** The divisor of the returned quotient. *)
Definition merge_divisor (shortestContainer longestContainer : KmersContainer)
  (st : merge_state) : Z :=
  wrap size_bits
    (den st +
     wrap mult_bits
       (wrap mult_bits
          (getMultiplicityNumber shortestContainer
           - currentShortestMultiplicity st)
        + wrap mult_bits
            (getMultiplicityNumber longestContainer
             - currentLongestMultiplicity st))).

(** [calculateSimilarity(kmersContainer_tr, kmersContainer_tr)] *)
Definition calculateSimilarityContainers
  (shortestContainer longestContainer : KmersContainer) : score_t :=
  let st := merge_loop (getBiggerKey longestContainer)
              (getKmerSet shortestContainer) (getKmerSet longestContainer)
              merge_init in
  fdiv (num st) (merge_divisor shortestContainer longestContainer st).

(** The length filter of the gene overload. *)
Definition length_filter (gene1 gene2 : Gene) : bool :=
  (getAlphabetLength gene1 <? getAlphabetLength gene2 / 2)
  || (getAlphabetLength gene2 <? getAlphabetLength gene1 / 2).

(** [calculateSimilarity(const gene_tr, const gene_tr)] *)
Definition calculateSimilarity (gene1 gene2 : Gene) : score_t :=
  if length_filter gene1 gene2 then of_int 0
  else
    let shortestContainer :=
      if getKmersNum gene1 <? getKmersNum gene2
      then getKmerContainer gene1 else getKmerContainer gene2 in
    let longestContainer :=
      if getKmersNum gene1 <? getKmersNum gene2
      then getKmerContainer gene2 else getKmerContainer gene1 in
    calculateSimilarityContainers shortestContainer longestContainer.

End Similarity.

(** ** Candidates of a row *)

Module BBHCandidate.

(** Modelled from the spec: the class [bbh::BBHCandidate], declared in
    [BBHCandidate.hh], which is not part of the sources at hand (data
    model, "CandidateSet (per row)"): the best score seen so far on a row
    and the columns that attain it; a fresh candidate has best score 0 and
    no column. *)
Record t : Type := mk {
  getBestScore : score_t;
  getCandidateList : list nat
}.

Definition new : t := mk zero [].

(** Modelled from the spec: [BBHCandidate::addCandidate], the operation
    "update(col, score)": a larger score resets the column set, an equal
    score joins it when the best is positive, a smaller one is ignored. *)
Definition addCandidate (c : t) (newScore : score_t) (newIndex : nat) : t :=
  if gtb newScore (getBestScore c) then mk newScore [newIndex]
  else if eqb newScore (getBestScore c) && gtb (getBestScore c) zero
       then mk (getBestScore c) (getCandidateList c ++ [newIndex])
  else c.

End BBHCandidate.

Module BBHCandidatesContainer.

Record t : Type := mk {
  capacity_ : nat;
  candidates_ : list BBHCandidate.t
}.

(** The constructor: [capacity] fresh candidates. *)
Definition new (capacity totalCols : nat) : t :=
  mk capacity (replicate capacity BBHCandidate.new).

(** [candidates_[candidateIndex].addCandidate(newScore, newIndex)].  An
    index past the end is undefined behaviour in the program and leaves
    the container as it is here; no caller passes one. *)
Definition addCandidate (c : t) (candidateIndex : nat) (newScore : score_t)
  (newIndex : nat) : t :=
  mk (capacity_ c)
     (alter (fun x => BBHCandidate.addCandidate x newScore newIndex)
            candidateIndex (candidates_ c)).

Definition getCapacity (c : t) : nat := capacity_ c.

Definition getCandidateAt (c : t) (id : nat) : BBHCandidate.t :=
  default BBHCandidate.new (candidates_ c !! id).

Definition getBestScoreForCandidate (c : t) (candidateIndex : nat) : score_t :=
  BBHCandidate.getBestScore (getCandidateAt c candidateIndex).

(** The body of the inner loop of [getPossibleMatch]: row [i] joins the
    set of column [key]. *)
Definition addMatch (i : nat) (map : gmap nat (gset nat)) (key : nat)
  : gmap nat (gset nat) :=
  match map !! key with
  | None => <[key := {[i]}]> map
  | Some set => <[key := set ∪ {[i]}]> map
  end.

(** [getPossibleMatch]: from each candidate column to the rows that list
    it. *)
Definition getPossibleMatch (c : t) : gmap nat (gset nat) :=
  foldl (fun map i =>
           foldl (addMatch i) map
                 (BBHCandidate.getCandidateList (getCandidateAt c i)))
        ∅ (seq 0 (capacity_ c)).

End BBHCandidatesContainer.

(** ** The score matrix *)

Module ScoresContainer.

(** Modelled from the spec: the class [score::ScoresContainer], declared
    in [ScoresContainer.hh], which is not part of the sources at hand
    (data model, "ScoreMatrix(R × C)"): a dense row-major array of scores,
    every cell 0 until it is written. *)
Record t : Type := mk {
  rows_ : nat;
  cols_ : nat;
  cells_ : list score_t
}.

Definition new (rows cols : nat) : t :=
  mk rows cols (replicate (rows * cols) zero).

(** Reads and writes outside the matrix are undefined behaviour in the
    program; here a write is dropped and a read yields 0.  No caller
    leaves the matrix. *)
Definition setScoreAt (m : t) (row col : nat) (score : score_t) : t :=
  mk (rows_ m) (cols_ m) (<[(row * cols_ m + col)%nat := score]> (cells_ m)).

Definition getScoreAt (m : t) (row col : nat) : score_t :=
  default zero (cells_ m !! (row * cols_ m + col)%nat).

End ScoresContainer.

(** ** The row phase and the column phase *)

(** One line of the output file: the file positions of the row gene and
    of the column gene, and the score.  The decimal rendering of the
    three fields is not modelled. *)
Record line : Type := mkLine {
  line_row : Z;
  line_col : Z;
  line_score : score_t
}.

(** An emitted edge by its indexes in the score matrix. *)
Record edge : Type := mkEdge {
  edge_row : nat;
  edge_col : nat;
  edge_score : score_t
}.

Section Homology.

(** Width in bits of [shared::multiplicityType]. *)
Variable mult_bits : Z.

(** The state the row tasks share: the candidates and the score matrix. *)
Definition row_state : Type := BBHCandidatesContainer.t * ScoresContainer.t.

(** The two writes of the inner loop of a row task. *)
Definition write_cell (row col : nat) (currentScore : score_t) (st : row_state)
  : row_state :=
  (BBHCandidatesContainer.addCandidate st.1 row currentScore col,
   ScoresContainer.setScoreAt st.2 row col currentScore).

(** The body of the inner loop of a row task. *)
Definition row_cell (rowGene colGene : Gene) (row col : nat) (st : row_state)
  : row_state :=
  let currentScore := calculateSimilarity mult_bits rowGene colGene in
  write_cell row col currentScore st.

(** The task [calculateRow] submits for [row]. *)
Definition calculateRow_task (rowGenes colGenes : list Gene) (row : nat)
  (st : row_state) : row_state :=
  match rowGenes !! row with
  | None => st
  | Some rowGene =>
      foldl (fun st col =>
               match colGenes !! col with
               | None => st
               | Some colGene => row_cell rowGene colGene row col st
               end)
            st (seq 0 (length colGenes))
  end.

(** [Homology::calculateRow] *)
Definition calculateRow (rowGenes colGenes : list Gene)
  (bestRows : BBHCandidatesContainer.t) (scores : ScoresContainer.t)
  : row_state :=
  foldl (fun st row => calculateRow_task rowGenes colGenes row st)
        (bestRows, scores) (seq 0 (length rowGenes)).

(** The task [calculateRowSame] submits for [row]: columns [row + 1] to
    the end. *)
Definition calculateRowSame_task (genes : list Gene) (row : nat)
  (st : row_state) : row_state :=
  foldl (fun st col =>
           match genes !! row, genes !! col with
           | Some rowGene, Some colGene => row_cell rowGene colGene row col st
           | _, _ => st
           end)
        st (seq (row + 1) (length genes - (row + 1))).

(** [Homology::calculateRowSame] *)
Definition calculateRowSame (genes : list Gene)
  (bestRows : BBHCandidatesContainer.t) (scores : ScoresContainer.t)
  : row_state :=
  foldl (fun st row => calculateRowSame_task genes row st)
        (bestRows, scores) (seq 0 (length genes)).

(** The scan of a column task: the best score of column [colGeneId] over
    [rows] and the rows that attain it. *)
Definition scan_step (scores : ScoresContainer.t) (colGeneId : nat)
  (acc : score_t * gset nat) (row : nat) : score_t * gset nat :=
  let currentScore := ScoresContainer.getScoreAt scores row colGeneId in
  if gtb currentScore acc.1 then (currentScore, {[row]})
  else if eqb currentScore acc.1 then (acc.1, acc.2 ∪ {[row]})
  else acc.

Definition scan_column (scores : ScoresContainer.t) (colGeneId : nat)
  (rows : list nat) : score_t * gset nat :=
  foldl (scan_step scores colGeneId) (minus_one, ∅) rows.

(** The second loop of a column task: the rows whose own best score is
    the best score of the column. *)
Definition emit_column (candidates : BBHCandidatesContainer.t)
  (colGeneId : nat) (scan : score_t * gset nat) : list edge :=
  omap (fun currentIndex =>
          if eqb scan.1
                 (BBHCandidatesContainer.getBestScoreForCandidate
                    candidates currentIndex)
          then Some (mkEdge currentIndex colGeneId scan.1)
          else None)
       (elements scan.2).

(** The edges [checkForBBH] emits (the branch compiled without
    [bbhPrint]), one column task after the other. *)
Definition checkForBBH_edges (rowCount : nat)
  (candidates : BBHCandidatesContainer.t) (scores : ScoresContainer.t)
  : list edge :=
  mbind (fun col : nat * gset nat =>
           emit_column candidates col.1
             (scan_column scores col.1 (seq 0 rowCount)))
        (map_to_list (BBHCandidatesContainer.getPossibleMatch candidates)).

(** The edges [checkForBBHSame] emits: the scan stops at the diagonal. *)
Definition checkForBBHSame_edges
  (candidates : BBHCandidatesContainer.t) (scores : ScoresContainer.t)
  : list edge :=
  mbind (fun col : nat * gset nat =>
           emit_column candidates col.1
             (scan_column scores col.1 (seq 0 col.1)))
        (map_to_list (BBHCandidatesContainer.getPossibleMatch candidates)).

Definition filePositionAt (genes : list Gene) (i : nat) : Z :=
  default 0 (getGeneFilePosition <$> genes !! i).

(** The line written for an edge. *)
Definition write_edge (rowGenes colGenes : list Gene) (e : edge) : line :=
  mkLine (filePositionAt rowGenes (edge_row e))
         (filePositionAt colGenes (edge_col e))
         (edge_score e).

(** [Homology::checkForBBH] *)
Definition checkForBBH (colGenes rowGenes : list Gene)
  (candidates : BBHCandidatesContainer.t) (scores : ScoresContainer.t)
  : list line :=
  write_edge rowGenes colGenes
  <$> checkForBBH_edges (length rowGenes) candidates scores.

(** [Homology::checkForBBHSame] *)
Definition checkForBBHSame (genes : list Gene)
  (candidates : BBHCandidatesContainer.t) (scores : ScoresContainer.t)
  : list line :=
  write_edge genes genes <$> checkForBBHSame_edges candidates scores.

(** [Homology::calculateBidirectionalBestHitDifferentGenomes] *)
Definition calculateBidirectionalBestHitDifferentGenomes
  (colGenes rowGenes : list Gene) : list line :=
  let bestRows := BBHCandidatesContainer.new (length rowGenes) (length colGenes) in
  let scores := ScoresContainer.new (length rowGenes) (length colGenes) in
  let st := calculateRow rowGenes colGenes bestRows scores in
  checkForBBH colGenes rowGenes st.1 st.2.

(** [Homology::calculateBidirectionalBestHitSameGenome] *)
Definition calculateBidirectionalBestHitSameGenome (genes : list Gene)
  : list line :=
  let bestRows := BBHCandidatesContainer.new (length genes) (length genes) in
  let scores := ScoresContainer.new (length genes) (length genes) in
  let st := calculateRowSame genes bestRows scores in
  checkForBBHSame genes st.1 st.2.

End Homology.

(** ** Genomes, the k-mer mapper and the construction of the containers

    [genome::Genome], [gene::Gene], [kmers::KmerMapper] and
    [kmers::KmersContainer] are declared outside the sources at hand;
    what [calculateBidirectionalBestHit] does with them is modelled from
    the specification. *)

(** Modelled from the spec: a gene as the parser hands it over (data
    model, "Gene"): its sequence and its position in the input file. *)
Record GeneData : Type := mkGeneData {
  sequence : string;
  filePosition : Z
}.

Module KmerMapper.

(** Modelled from the spec: [kmers::KmerMapper] ("4.1 KmerMapper"): a
    table from the k-mers seen so far to the integers 0, 1, 2, ... in
    first-seen order.  [intern] returns the key of a k-mer that has been
    seen and gives the next unused integer to one that has not. *)
Definition intern (mapper : gmap string Z) (kmer : string)
  : gmap string Z * Z :=
  match mapper !! kmer with
  | Some key => (mapper, key)
  | None => let key := Z.of_nat (size mapper) in (<[kmer := key]> mapper, key)
  end.

End KmerMapper.

(** Modelled from the spec: the windows W_0, ..., W_{L-k} of a sequence
    ("4.2 KmerContainer construction"); none when L < k. *)
Definition windows (k : Z) (s : string) : list string :=
  let L := Z.of_nat (String.length s) in
  if L <? k then []
  else (fun i => String.substring i (Z.to_nat k) s)
       <$> seq 0 (Z.to_nat (L - k + 1)).

(** Modelled from the spec: one step of the enumeration of the windows:
    the window is interned, and its multiplicity in the temporary mapping
    window -> (key, multiplicity) is incremented, or set to 1 when the
    window is new. *)
Definition count_window (acc : gmap string Z * gmap string (Z * Z))
  (w : string) : gmap string Z * gmap string (Z * Z) :=
  let interned := KmerMapper.intern acc.1 w in
  match acc.2 !! w with
  | Some (key, multiplicity) =>
      (interned.1, <[w := (key, multiplicity + 1)]> acc.2)
  | None => (interned.1, <[w := (interned.2, 1)]> acc.2)
  end.

(** Order of the (key, multiplicity) pairs in a container. *)
Definition key_le (p q : Z * Z) : Prop := p.1 <= q.1.

#[global] Instance key_le_dec : RelDecision key_le.
Proof. intros p q. unfold key_le. apply _. Defined.

(** Modelled from the spec: the construction of the container of a gene:
    the pairs of the temporary mapping sorted by key, the key bounds
    (anything when the container is empty), the total multiplicity and
    the number of distinct k-mers. *)
Definition calculateGeneKmers (k : Z) (mapper : gmap string Z) (g : GeneData)
  : gmap string Z * Gene :=
  let counted := foldl count_window (mapper, ∅) (windows k (sequence g)) in
  let entries := merge_sort key_le (snd <$> map_to_list counted.2) in
  (counted.1,
   mkGene (Z.of_nat (String.length (sequence g)))
          (Z.of_nat (length entries))
          (filePosition g)
          (mkKmersContainer entries
             (default 0 (head entries.*1))
             (default 0 (last entries.*1))
             (sum_over snd entries))).

(** Modelled from the spec: [Genome::createAndCalculateAllKmers]: the
    containers of the genes of a genome, built one gene after the other
    through the shared mapper. *)
Definition createAndCalculateAllKmers (k : Z) (mapper : gmap string Z)
  (genome : list GeneData) : gmap string Z * list Gene :=
  foldl (fun acc g =>
           let built := calculateGeneKmers k acc.1 g in
           (built.1, acc.2 ++ [built.2]))
        (mapper, []) genome.

(** ** Homology::calculateBidirectionalBestHit

    A genome whose k-mers were deleted is not read again before they are
    rebuilt; [deleteAllKmers] is the point where the built genes of a
    genome go out of use below. *)

Section Driver.

Variable mult_bits : Z.

(** The k-mer length; the constructors of [Homology] refuse [k <= 0]. *)
Variable k_ : Z.

(** Lazy mode, the inner loop: the genomes after the row genome, each
    built through the mapper of the row, compared and deleted. *)
Definition lazy_columns (rowRef : list Gene) (mapper : gmap string Z)
  (colGenomes : list (list GeneData)) : list line :=
  (foldl (fun acc colGenome =>
            let built := createAndCalculateAllKmers k_ acc.1 colGenome in
            (built.1,
             acc.2 ++ calculateBidirectionalBestHitDifferentGenomes
                        mult_bits built.2 rowRef))
         (mapper, []) colGenomes).2.

(** Lazy mode, the outer loop, with a fresh mapper for each row genome. *)
Fixpoint lazy_rows (genomes : list (list GeneData)) : list line :=
  match genomes with
  | [] => []
  | rowGenome :: rest =>
      let rowBuilt := createAndCalculateAllKmers k_ ∅ rowGenome in
      calculateBidirectionalBestHitSameGenome mult_bits rowBuilt.2
      ++ lazy_columns rowBuilt.2 rowBuilt.1 rest
      ++ lazy_rows rest
  end.

(** Eager mode, the first loop: every genome built through one mapper. *)
Definition build_all (genomes : list (list GeneData)) : list (list Gene) :=
  (foldl (fun acc genome =>
            let built := createAndCalculateAllKmers k_ acc.1 genome in
            (built.1, acc.2 ++ [built.2]))
         (∅, []) genomes).2.

(** Eager mode, the second loop. *)
Fixpoint eager_rows (genomes : list (list Gene)) : list line :=
  match genomes with
  | [] => []
  | rowRef :: rest =>
      calculateBidirectionalBestHitSameGenome mult_bits rowRef
      ++ (rest ≫= fun colGenome =>
            calculateBidirectionalBestHitDifferentGenomes
              mult_bits colGenome rowRef)
      ++ eager_rows rest
  end.

(** [Homology::calculateBidirectionalBestHit]: the lines appended to the
    output file. *)
Definition calculateBidirectionalBestHit (genomes : list (list GeneData))
  (mode : bool) : list line :=
  if mode then lazy_rows genomes else eager_rows (build_all genomes).

End Driver.

(** ** Generalized Jaccard of two multisets, as the specification words it *)

(** Multiplicity of a key in a (key, multiplicity) sequence; 0 when the
    key does not occur. *)
Fixpoint mult_of (k : Z) (s : list (Z * Z)) : Z :=
  match s with
  | [] => 0
  | (k', m) :: s' => if decide (k = k') then m else mult_of k s'
  end.

(** Union of the supports of two multisets. *)
Definition support_union (a b : list (Z * Z)) : list Z :=
  remove_dups (a.*1 ++ b.*1).

(** Σ min(a_i, b_i) over the union of the supports. *)
Definition jaccard_num (a b : list (Z * Z)) : Z :=
  sum_over (fun k => Z.min (mult_of k a) (mult_of k b)) (support_union a b).

(** Σ max(a_i, b_i) over the union of the supports. *)
Definition jaccard_den (a b : list (Z * Z)) : Z :=
  sum_over (fun k => Z.max (mult_of k a) (mult_of k b)) (support_union a b).

(** Sums over the keys both sequences hold, as the merge accumulates them. *)
Definition has_key (k : Z) (s : list (Z * Z)) : bool :=
  bool_decide (k ∈ s.*1).

Definition shared_sum (g : Z -> Z -> Z) (s l : list (Z * Z)) : Z :=
  sum_over (fun p => if has_key p.1 l then g p.2 (mult_of p.1 l) else 0) s.

Definition shared_num : list (Z * Z) -> list (Z * Z) -> Z := shared_sum Z.min.
Definition shared_den : list (Z * Z) -> list (Z * Z) -> Z := shared_sum Z.max.
Definition matched_short : list (Z * Z) -> list (Z * Z) -> Z :=
  shared_sum (fun a _ => a).
Definition matched_long : list (Z * Z) -> list (Z * Z) -> Z :=
  shared_sum (fun _ b => b).

(** The invariant of a built container. *)
Definition keys_ascending (s : list (Z * Z)) : Prop :=
  StronglySorted Z.lt s.*1.

Record container_ok (c : KmersContainer) : Prop := {
  ok_sorted : keys_ascending (getKmerSet c);
  ok_positive : Forall (fun p => 0 < p.2) (getKmerSet c);
  ok_total : getMultiplicityNumber c = sum_over snd (getKmerSet c);
  ok_bigger : forall k, k ∈ (getKmerSet c).*1 -> k <= getBiggerKey c
}.

(** [r] is [st] with the four increments added, each field read modulo
    the width of its type. *)
Definition merge_adds (mult_bits : Z) (r st : merge_state) (dn dd ds dl : Z)
  : Prop :=
  wrap size_bits (num r) = wrap size_bits (num st + dn) /\
  wrap size_bits (den r) = wrap size_bits (den st + dd) /\
  wrap mult_bits (currentShortestMultiplicity r)
  = wrap mult_bits (currentShortestMultiplicity st + ds) /\
  wrap mult_bits (currentLongestMultiplicity r)
  = wrap mult_bits (currentLongestMultiplicity st + dl).

(** Every accumulator holds a value of its type. *)
Definition merge_reduced (mult_bits : Z) (st : merge_state) : Prop :=
  wrap size_bits (num st) = num st /\
  wrap size_bits (den st) = den st /\
  wrap mult_bits (currentShortestMultiplicity st)
  = currentShortestMultiplicity st /\
  wrap mult_bits (currentLongestMultiplicity st)
  = currentLongestMultiplicity st.

(** The two multiplicity totals fit the integer types of the merge. *)
Definition totals_fit (mult_bits : Z) (c1 c2 : KmersContainer) : Prop :=
  getMultiplicityNumber c1 + getMultiplicityNumber c2 < 2 ^ mult_bits /\
  getMultiplicityNumber c1 + getMultiplicityNumber c2 < 2 ^ size_bits.

(** ** Sample genes

    Scenario S4 of the specification: "ABCABC" against "ABCXYZ" with k = 3,
    the k-mers numbered in first-seen order; and two genes shorter than k,
    whose containers are empty. *)

Definition container_ABCABC : KmersContainer :=
  mkKmersContainer [(0, 2); (1, 1); (2, 1)] 0 2 4.

Definition container_ABCXYZ : KmersContainer :=
  mkKmersContainer [(0, 1); (3, 1); (4, 1); (5, 1)] 0 5 4.

Definition gene_ABCABC : Gene := mkGene 6 3 10 container_ABCABC.
Definition gene_ABCXYZ : Gene := mkGene 6 4 20 container_ABCXYZ.

Definition container_empty : KmersContainer := mkKmersContainer [] 0 0 0.

Definition gene_short_A : Gene := mkGene 1 0 30 container_empty.
Definition gene_short_C : Gene := mkGene 1 0 40 container_empty.

(** ** Notions the statements about the two phases use *)

(** The score the row phase computes for cell ([r], [c]). *)
Definition score_of (mult_bits : Z) (rowGenes colGenes : list Gene) (r c : nat)
  : score_t :=
  match rowGenes !! r, colGenes !! c with
  | Some rowGene, Some colGene => calculateSimilarity mult_bits rowGene colGene
  | _, _ => zero
  end.

(** A row task, given the score of each cell and the columns it visits. *)
Definition fill_row (x : nat -> nat -> score_t) (cols : list nat) (r : nat)
  (st : row_state) : row_state :=
  foldl (fun st c => write_cell r c (x r c) st) st cols.

Definition fill_rows (x : nat -> nat -> score_t) (cols_of : nat -> list nat)
  (rs : list nat) (st : row_state) : row_state :=
  foldl (fun st r => fill_row x (cols_of r) r st) st rs.

(** The candidate of a row after the scores [x c] of the columns [cols]
    have been offered to it, in order. *)
Definition offer_all (x : nat -> score_t) (cols : list nat)
  (cand : BBHCandidate.t) : BBHCandidate.t :=
  foldl (fun cand c => BBHCandidate.addCandidate cand (x c) c) cand cols.

(** What a candidate knows about the columns offered to it. *)
Record candidate_inv (x : nat -> score_t) (cols : list nat)
  (cand : BBHCandidate.t) : Prop := {
  inv_number : is_nan (BBHCandidate.getBestScore cand) = false;
  inv_nonneg : gtb zero (BBHCandidate.getBestScore cand) = false;
  inv_upper : forall c, c ∈ cols ->
                gtb (x c) (BBHCandidate.getBestScore cand) = false;
  inv_list : forall c, c ∈ BBHCandidate.getCandidateList cand <->
               c ∈ cols /\ eqb (x c) (BBHCandidate.getBestScore cand) = true
               /\ gtb (BBHCandidate.getBestScore cand) zero = true;
  inv_attained : gtb (BBHCandidate.getBestScore cand) zero = true ->
                 exists c, c ∈ cols
                           /\ eqb (x c) (BBHCandidate.getBestScore cand) = true
}.

(** [s] is the largest of the scores [x i], [i] in [idx]: one of them
    equals [s] and none is above it. *)
Definition is_max_over (x : nat -> score_t) (idx : list nat) (s : score_t)
  : Prop :=
  (exists i, i ∈ idx /\ eqb (x i) s = true)
  /\ (forall i, i ∈ idx -> gtb (x i) s = false).

(** The shape of the two containers of a genome pair. *)
Record state_ok (R C : nat) (st : row_state) : Prop := {
  ok_candidates : length (BBHCandidatesContainer.candidates_ st.1) = R;
  ok_capacity : BBHCandidatesContainer.capacity_ st.1 = R;
  ok_rows : ScoresContainer.rows_ st.2 = R;
  ok_cols : ScoresContainer.cols_ st.2 = C;
  ok_cells : length (ScoresContainer.cells_ st.2) = (R * C)%nat
}.

(** What the scan of a column knows about the rows it has visited:
    [acc.1] is a number no visited cell is above, and [acc.2] holds the
    visited rows whose cell equals it. *)
Record scan_inv (x : nat -> score_t) (rows : list nat)
  (acc : score_t * gset nat) : Prop := {
  scan_number : is_nan acc.1 = false;
  scan_upper : forall r, r ∈ rows -> gtb (x r) acc.1 = false;
  scan_set : forall r, r ∈ acc.2 <-> r ∈ rows /\ eqb (x r) acc.1 = true
}.

(** Row [r] is in the set the match map holds for column [col]. *)
Definition in_match (m : gmap nat (gset nat)) (col r : nat) : Prop :=
  exists set, m !! col = Some set /\ r ∈ set.

(** Two edges join the same unordered pair of genes. *)
Definition same_pair (e1 e2 : edge) : Prop :=
  (edge_row e1 = edge_row e2 /\ edge_col e1 = edge_col e2)
  \/ (edge_row e1 = edge_col e2 /\ edge_col e1 = edge_row e2).

(** A second copy of "ABCABC" at another file position, and two small
    genomes: one gene against two, and three genes of one genome. *)
Definition gene_ABCABC_bis : Gene := mkGene 6 3 50 container_ABCABC.

Definition sample_rows : list Gene := [gene_ABCABC].
Definition sample_cols : list Gene := [gene_ABCXYZ; gene_ABCABC_bis].
Definition sample_genome : list Gene :=
  [gene_ABCABC; gene_ABCXYZ; gene_ABCABC_bis].

(** "ABCAB" with k = 3: as many distinct k-mers as "ABCABC". *)
Definition container_ABCAB : KmersContainer :=
  mkKmersContainer [(0, 1); (1, 1); (2, 1)] 0 2 3.

Definition gene_ABCAB : Gene := mkGene 5 3 60 container_ABCAB.

(** Scenario S2: a gene of length 100 against one of length 49, k = 4. *)
Definition gene_length_100 : Gene := mkGene 100 97 70 container_ABCABC.
Definition gene_length_49 : Gene := mkGene 49 46 80 container_ABCXYZ.

(** ** Notions the statements about the driver use *)

(** Number of occurrences of a window in a list of windows. *)
Definition occurrences (w : string) (W : list string) : Z :=
  Z.of_nat (length (filter (fun x => x = w) W)).

(** A mapper gives keys below its size, and different keys to different
    k-mers. *)
Record mapper_ok (m : gmap string Z) : Prop := {
  mapper_range : forall w key, m !! w = Some key ->
                   0 <= key < Z.of_nat (size m);
  mapper_inj : forall w1 w2 key, m !! w1 = Some key -> m !! w2 = Some key ->
                 w1 = w2
}.

(** The container [c] holds the windows [W], numbered by the mapper [m]. *)
Record represents (m : gmap string Z) (W : list string) (c : KmersContainer)
  : Prop := {
  rep_ok : container_ok c;
  rep_total : getMultiplicityNumber c = Z.of_nat (length W);
  rep_known : forall w, w ∈ W -> is_Some (m !! w);
  rep_entries : forall key mult,
    (key, mult) ∈ getKmerSet c <->
    exists w, w ∈ W /\ m !! w = Some key /\ mult = occurrences w W
}.

(** The gene [G] is the gene [g] with its container built through [m]. *)
Record gene_built (k : Z) (m : gmap string Z) (g : GeneData) (G : Gene)
  : Prop := {
  built_length : getAlphabetLength G = Z.of_nat (String.length (sequence g));
  built_position : getGeneFilePosition G = filePosition g;
  built_container : represents m (windows k (sequence g)) (getKmerContainer G)
}.

(** Σ min over the k-mers of two lists of windows. *)
Definition windows_num (W1 W2 : list string) : Z :=
  sum_over (fun w => Z.min (occurrences w W1) (occurrences w W2))
           (remove_dups W1).

(** The similarity of two genes from their sequences alone. *)
Definition sequence_similarity (k : Z) (g1 g2 : GeneData) : score_t :=
  let L1 := Z.of_nat (String.length (sequence g1)) in
  let L2 := Z.of_nat (String.length (sequence g2)) in
  let W1 := windows k (sequence g1) in
  let W2 := windows k (sequence g2) in
  if (L1 <? L2 / 2) || (L2 <? L1 / 2) then of_int 0
  else fdiv (windows_num W1 W2)
            (Z.of_nat (length W1) + Z.of_nat (length W2) - windows_num W1 W2).

Definition sequence_score (k : Z) (rowGenes colGenes : list GeneData)
  (r c : nat) : score_t :=
  match rowGenes !! r, colGenes !! c with
  | Some g1, Some g2 => sequence_similarity k g1 g2
  | _, _ => zero
  end.

(** The line of an edge, from the file positions of the two genomes. *)
Definition line_of (rowPositions colPositions : list Z) (e : edge) : line :=
  mkLine (default 0 (rowPositions !! edge_row e))
         (default 0 (colPositions !! edge_col e))
         (edge_score e).

(** The lines of a pair of different genomes, from the sequences alone. *)
Definition reference_different (k : Z) (colGenome rowGenome : list GeneData)
  : list line :=
  let R := length rowGenome in
  let C := length colGenome in
  let st := fill_rows (sequence_score k rowGenome colGenome)
              (fun _ => seq 0 C) (seq 0 R)
              (BBHCandidatesContainer.new R C, ScoresContainer.new R C) in
  line_of (filePosition <$> rowGenome) (filePosition <$> colGenome)
  <$> checkForBBH_edges R st.1 st.2.

(** The lines of a genome against itself, from the sequences alone. *)
Definition reference_same (k : Z) (genome : list GeneData) : list line :=
  let n := length genome in
  let st := fill_rows (sequence_score k genome genome)
              (fun row => seq (row + 1) (n - (row + 1))) (seq 0 n)
              (BBHCandidatesContainer.new n n, ScoresContainer.new n n) in
  line_of (filePosition <$> genome) (filePosition <$> genome)
  <$> checkForBBHSame_edges st.1 st.2.

(** The lines of a run, from the sequences alone. *)
Fixpoint reference_run (k : Z) (genomes : list (list GeneData)) : list line :=
  match genomes with
  | [] => []
  | rowGenome :: rest =>
      reference_same k rowGenome
      ++ (rest ≫= fun colGenome => reference_different k colGenome rowGenome)
      ++ reference_run k rest
  end.

(** Twice the number of windows of every gene fits the integer types of
    the merge. *)
Definition gene_fits (mult_bits k : Z) (g : GeneData) : Prop :=
  2 * Z.of_nat (length (windows k (sequence g))) < 2 ^ mult_bits
  /\ 2 * Z.of_nat (length (windows k (sequence g))) < 2 ^ size_bits.

Definition genomes_fit (mult_bits k : Z) (genomes : list (list GeneData))
  : Prop :=
  Forall (Forall (gene_fits mult_bits k)) genomes.

(** What the enumeration of the windows [W] has reached, starting from
    the mapper [m0]: the mapper has grown, and the temporary mapping
    holds every window of [W] with its key and its count. *)
Record counted_inv (m0 : gmap string Z) (W : list string)
  (acc : gmap string Z * gmap string (Z * Z)) : Prop := {
  ci_mapper : mapper_ok acc.1;
  ci_extends : m0 ⊆ acc.1;
  ci_known : forall w, w ∈ W -> is_Some (acc.2 !! w);
  ci_entry : forall w key c,
    acc.2 !! w = Some (key, c) ->
    w ∈ W /\ acc.1 !! w = Some key /\ c = occurrences w W;
  ci_total : sum_over (fun e : string * (Z * Z) => e.2.2) (map_to_list acc.2)
             = Z.of_nat (length W)
}.

(** Two genomes as the parser hands them over; the last gene is shorter
    than k = 3. *)
Definition sample_genome_1 : list GeneData :=
  [mkGeneData "ABCABC" 10; mkGeneData "ABCXYZ" 20].

Definition sample_genome_2 : list GeneData :=
  [mkGeneData "ABCABC" 30; mkGeneData "XYZABC" 40; mkGeneData "A" 50].

(** "BCXYZ" with k = 3, numbered after "ABCABC": no k-mer in common. *)
Definition container_BCXYZ : KmersContainer :=
  mkKmersContainer [(3, 1); (4, 1); (5, 1)] 3 5 3.

(** ** Notions the statements about [KmersHandler] use *)

(** The window [calculateKmers] reads at index [j]. *)
Definition window_at (alphabet : string) (k_ : Z) (j : nat) : string :=
  String.substring j (Z.to_nat k_) alphabet.

(** The indexes below [n] whose window is [ss], in ascending order. *)
Definition window_indexes (alphabet : string) (k_ : Z) (n : nat) (ss : string)
  : list Z :=
  Z.of_nat <$> filter (fun j => window_at alphabet k_ j = ss) (seq 0 n).

(** Index [j] is the first one that reads its window. *)
Definition first_occurrence (alphabet : string) (k_ : Z) (j : nat) : Prop :=
  forall j', (j' < j)%nat -> window_at alphabet k_ j' <> window_at alphabet k_ j.

(** The k-mer the dictionary holds for index [j], through its pointer. *)
Definition kmer_at (st : KmersHandler.state) (j : Z)
  : option KmersHandler.Kmer :=
  KmersHandler.dictionary_ st !! j ≫= fun p => KmersHandler.heap st !! p.

(** The state of [calculateKmers] when the windows at the indexes below
    [n] have been recorded. *)
Record windows_recorded (alphabet : string) (k_ : Z) (n : nat)
  (st : KmersHandler.state) : Prop := {
  rec_total : KmersHandler.totalMultiplicity st = Z.of_nat n;
  rec_current : forall ss p,
    KmersHandler.currentKmers st !! ss = Some p ->
    exists kmer,
      KmersHandler.heap st !! p = Some kmer
      /\ KmersHandler.indexes kmer = window_indexes alphabet k_ n ss
      /\ exists j, (j < n)%nat /\ window_at alphabet k_ j = ss
                   /\ KmersHandler.dictionary_ st !! Z.of_nat j = Some p;
  rec_seen : forall j, (j < n)%nat ->
    is_Some (KmersHandler.currentKmers st !! window_at alphabet k_ j);
  rec_dict : forall j p,
    KmersHandler.dictionary_ st !! j = Some p ->
    exists jn, j = Z.of_nat jn /\ (jn < n)%nat
      /\ KmersHandler.currentKmers st !! window_at alphabet k_ jn = Some p
      /\ first_occurrence alphabet k_ jn
}.

(* ================================================================== *)
(** * Part II: properties                                              *)
(* ================================================================== *)

(** ** Sums over lists *)

Section SumOver.
Context {A : Type}.
Implicit Types (f g : A -> Z) (l k : list A).

Lemma sum_over_nil f : sum_over f [] = 0.
Proof. reflexivity. Qed.

Lemma sum_over_cons f x l : sum_over f (x :: l) = f x + sum_over f l.
Proof. reflexivity. Qed.

Lemma sum_over_app f l k : sum_over f (l ++ k) = sum_over f l + sum_over f k.
Proof. induction l as [|x l IH]; simpl; [done | rewrite IH; lia]. Qed.

Lemma sum_over_ext f g l :
  (forall x, x ∈ l -> f x = g x) -> sum_over f l = sum_over g l.
Proof.
  induction l as [|x l IH]; intros Hfg; simpl; [done|].
  rewrite Hfg by left. rewrite IH; [done|].
  intros y Hy. apply Hfg. by right.
Qed.

Lemma sum_over_perm f l k : l ≡ₚ k -> sum_over f l = sum_over f k.
Proof.
  induction 1; simpl; try lia.
Qed.

Lemma sum_over_zero f l : (forall x, x ∈ l -> f x = 0) -> sum_over f l = 0.
Proof.
  intros H. rewrite (sum_over_ext f (fun _ => 0) l H).
  clear H. induction l; simpl; lia.
Qed.

Lemma sum_over_nonneg f l : (forall x, x ∈ l -> 0 <= f x) -> 0 <= sum_over f l.
Proof.
  induction l as [|x l IH]; intros H; simpl; [lia|].
  assert (0 <= f x) by (apply H; left).
  assert (0 <= sum_over f l) by (apply IH; intros; apply H; by right).
  lia.
Qed.

Lemma sum_over_le f g l :
  (forall x, x ∈ l -> f x <= g x) -> sum_over f l <= sum_over g l.
Proof.
  induction l as [|x l IH]; intros H; simpl; [lia|].
  assert (f x <= g x) by (apply H; left).
  assert (sum_over f l <= sum_over g l) by (apply IH; intros; apply H; by right).
  lia.
Qed.

Lemma sum_over_plus f g l :
  sum_over (fun x => f x + g x) l = sum_over f l + sum_over g l.
Proof. induction l as [|x l IH]; simpl; lia. Qed.

Lemma sum_over_filter_split (P : A -> Prop) `{!forall x, Decision (P x)} f l :
  sum_over f l = sum_over f (filter P l) + sum_over f (filter (fun x => ~ P x) l).
Proof.
  induction l as [|x l IH]; simpl; [done|].
  rewrite !filter_cons. destruct (decide (P x)) as [Hp|Hp].
  - rewrite decide_False by tauto. simpl. lia.
  - rewrite decide_True by tauto. simpl. lia.
Qed.

Lemma sum_over_filter (P : A -> Prop) `{!forall x, Decision (P x)} f l :
  sum_over f (filter P l) = sum_over (fun x => if decide (P x) then f x else 0) l.
Proof.
  induction l as [|x l IH]; simpl; [done|].
  rewrite filter_cons. destruct (decide (P x)); simpl; lia.
Qed.
End SumOver.

Lemma sum_over_fmap {A B : Type} (h : A -> B) (f : B -> Z) (l : list A) :
  sum_over f (h <$> l) = sum_over (fun x => f (h x)) l.
Proof.
  induction l as [|x l IH]; [done|].
  by rewrite fmap_cons, !sum_over_cons, IH.
Qed.

(** ** The streaming merge *)

Lemma merge_loop_nil_l mb bk l st : merge_loop mb bk [] l st = st.
Proof. reflexivity. Qed.

Lemma merge_loop_nil_r mb bk s st : merge_loop mb bk s [] st = st.
Proof. destruct s as [|[sk sv] s']; reflexivity. Qed.

Lemma merge_loop_cons mb bk sk sv s' lk lv l' st :
  merge_loop mb bk ((sk, sv) :: s') ((lk, lv) :: l') st =
  if bk <? sk then st
  else if sk <? lk then merge_loop mb bk s' ((lk, lv) :: l') st
  else if lk <? sk then merge_loop mb bk ((sk, sv) :: s') l' st
  else merge_loop mb bk s' l' (merge_match mb st sv lv).
Proof. reflexivity. Qed.

Lemma mult_of_absent k s : k ∉ s.*1 -> mult_of k s = 0.
Proof.
  induction s as [|[k' m] s IH]; simpl; [done|].
  intros Hk. apply not_elem_of_cons in Hk as [Hne Hk].
  rewrite decide_False by done. by apply IH.
Qed.

Lemma has_key_true k s : has_key k s = true <-> k ∈ s.*1.
Proof. unfold has_key. apply bool_decide_eq_true. Qed.

Lemma has_key_false k s : has_key k s = false <-> k ∉ s.*1.
Proof. unfold has_key. apply bool_decide_eq_false. Qed.

Lemma keys_ascending_cons k v s :
  keys_ascending ((k, v) :: s) <->
  keys_ascending s /\ forall k', k' ∈ s.*1 -> k < k'.
Proof.
  unfold keys_ascending. rewrite fmap_cons. simpl.
  rewrite StronglySorted_cons, Forall_forall. tauto.
Qed.

Lemma keys_ascending_NoDup s : keys_ascending s -> NoDup s.*1.
Proof.
  induction s as [|[k v] s IH]; simpl; [constructor|].
  intros [Hs Hlt]%keys_ascending_cons. constructor; [|by apply IH].
  intros Hin. specialize (Hlt _ Hin). lia.
Qed.

Lemma shared_sum_nil_l g l : shared_sum g [] l = 0.
Proof. reflexivity. Qed.

Lemma shared_sum_cons g k v s l :
  shared_sum g ((k, v) :: s) l =
  (if has_key k l then g v (mult_of k l) else 0) + shared_sum g s l.
Proof. reflexivity. Qed.

(** No key of [s] occurs in [l]: nothing is shared. *)
Lemma shared_sum_disjoint g s l :
  (forall k, k ∈ s.*1 -> k ∉ l.*1) -> shared_sum g s l = 0.
Proof.
  intros H. apply sum_over_zero. intros [k v] Hin. simpl.
  assert (Hk : has_key k l = false).
  { apply has_key_false, H. apply list_elem_of_fmap. by exists (k, v). }
  by rewrite Hk.
Qed.

(** An entry of [l] whose key is below every key of [s] can be dropped. *)
Lemma shared_sum_drop_long g s lk lv l :
  (forall k, k ∈ s.*1 -> lk < k) ->
  shared_sum g s ((lk, lv) :: l) = shared_sum g s l.
Proof.
  intros H. apply sum_over_ext. intros [k v] Hin. simpl.
  assert (Hlt : lk < k).
  { apply H. apply list_elem_of_fmap. by exists (k, v). }
  rewrite decide_False by lia.
  unfold has_key. simpl.
  destruct (bool_decide (k ∈ l.*1)) eqn:E.
  - rewrite bool_decide_eq_true_2; [done|].
    right. by apply bool_decide_eq_true in E.
  - rewrite bool_decide_eq_false_2; [done|].
    apply bool_decide_eq_false in E. intros [->|?]%elem_of_cons; [lia|done].
Qed.

Lemma wrap_add_l bits x y : wrap bits (wrap bits x + y) = wrap bits (x + y).
Proof. unfold wrap. apply Zplus_mod_idemp_l. Qed.

Lemma ltb_min a b : (if a <? b then a else b) = Z.min a b.
Proof. destruct (Z.ltb_spec a b); lia. Qed.

Lemma ltb_max a b : (if a <? b then b else a) = Z.max a b.
Proof. destruct (Z.ltb_spec a b); lia. Qed.

Lemma merge_adds_refl mb st : merge_adds mb st st 0 0 0 0.
Proof. unfold merge_adds. by rewrite !Z.add_0_r. Qed.

Lemma merge_adds_match mb r st sv lv dn dd ds dl :
  merge_adds mb r (merge_match mb st sv lv) dn dd ds dl ->
  merge_adds mb r st (Z.min sv lv + dn) (Z.max sv lv + dd) (sv + ds) (lv + dl).
Proof.
  unfold merge_adds, merge_match. simpl.
  rewrite ltb_min, ltb_max, !wrap_add_l, !Z.add_assoc. tauto.
Qed.

(** What the loop adds to the accumulators: the sums over the shared keys.
    [bk] bounds the keys of the long side from above, which is what makes
    the early exit sound. *)
Lemma merge_loop_adds mb bk s : forall l st,
  keys_ascending s -> keys_ascending l ->
  (forall k, k ∈ l.*1 -> k <= bk) ->
  merge_adds mb (merge_loop mb bk s l st) st
    (shared_num s l) (shared_den s l) (matched_short s l) (matched_long s l).
Proof.
  unfold shared_num, shared_den, matched_short, matched_long.
  induction s as [|[sk sv] s' IHs]; intros l st Hs Hl Hbk.
  { rewrite merge_loop_nil_l, !shared_sum_nil_l. apply merge_adds_refl. }
  apply keys_ascending_cons in Hs as [Hs' Hslt].
  revert st. induction l as [|[lk lv] l' IHl]; intros st.
  { rewrite merge_loop_nil_r, !shared_sum_disjoint
      by (intros ? _; apply not_elem_of_nil).
    apply merge_adds_refl. }
  apply keys_ascending_cons in Hl as [Hl' Hllt].
  rewrite merge_loop_cons.
  destruct (Z.ltb_spec bk sk) as [E1|E1].
  { (* early exit: every remaining key of the short side is too large *)
    assert (Hdisj : forall k, k ∈ ((sk, sv) :: s').*1 ->
                              k ∉ ((lk, lv) :: l').*1).
    { intros k Hk Hk'. apply Hbk in Hk'. rewrite fmap_cons in Hk.
      apply elem_of_cons in Hk as [->|Hk]; simpl in *;
        [lia | apply Hslt in Hk; lia]. }
    rewrite !shared_sum_disjoint by exact Hdisj. apply merge_adds_refl. }
  assert (Hbk' : forall k, k ∈ l'.*1 -> k <= bk).
  { intros k Hk. apply Hbk. rewrite fmap_cons. by right. }
  destruct (Z.ltb_spec sk lk) as [E2|E2].
  { (* the short key is absent from the long side *)
    assert (Hno : has_key sk ((lk, lv) :: l') = false).
    { apply has_key_false. rewrite fmap_cons. simpl.
      intros [->|Hk]%elem_of_cons; [lia | apply Hllt in Hk; lia]. }
    rewrite !shared_sum_cons, Hno, !Z.add_0_l.
    apply IHs; [done | by apply keys_ascending_cons | done]. }
  destruct (Z.ltb_spec lk sk) as [E3|E3].
  { (* the long key is below every remaining short key *)
    assert (Hbelow : forall k, k ∈ ((sk, sv) :: s').*1 -> lk < k).
    { intros k Hk. rewrite fmap_cons in Hk.
      apply elem_of_cons in Hk as [->|Hk]; simpl in *;
        [lia | apply Hslt in Hk; lia]. }
    rewrite !(shared_sum_drop_long _ ((sk, sv) :: s') lk lv l') by exact Hbelow.
    by apply IHl. }
  (* equal keys *)
  assert (sk = lk) as -> by lia.
  assert (Hyes : has_key lk ((lk, lv) :: l') = true).
  { apply has_key_true. rewrite fmap_cons. by left. }
  rewrite !shared_sum_cons, Hyes. simpl mult_of. rewrite decide_True by done.
  rewrite !(shared_sum_drop_long _ s' lk lv l') by (intros k Hk; by apply Hslt).
  apply merge_adds_match. by apply IHs.
Qed.

(** ** Sums over shared keys against sums over the union of supports *)

Lemma mult_of_present k v s :
  NoDup s.*1 -> (k, v) ∈ s -> mult_of k s = v.
Proof.
  induction s as [|[k' m] s IH]; intros Hnd Hin; [by apply elem_of_nil in Hin|].
  rewrite fmap_cons in Hnd. apply NoDup_cons in Hnd as [Hk' Hnd].
  simpl. apply elem_of_cons in Hin as [Heq|Hin].
  - injection Heq as -> ->. by rewrite decide_True.
  - rewrite decide_False; [by apply IH|].
    intros ->. apply Hk'. apply list_elem_of_fmap. by exists (k', v).
Qed.

Lemma sum_key_is_mult_of k s :
  NoDup s.*1 ->
  sum_over (fun q => if decide (q.1 = k) then q.2 else 0) s = mult_of k s.
Proof.
  induction s as [|[k' m] s IH]; intros Hnd; [done|].
  rewrite fmap_cons in Hnd. apply NoDup_cons in Hnd as [Hk' Hnd].
  rewrite sum_over_cons. simpl. destruct (decide (k' = k)) as [->|Hne].
  - rewrite decide_True by done.
    rewrite sum_over_zero; [lia|].
    intros [k2 m2] Hin. simpl. rewrite decide_False; [done|].
    intros ->. apply Hk'. apply list_elem_of_fmap. by exists (k, m2).
  - rewrite decide_False by done. rewrite IH by done. lia.
Qed.

Lemma matched_long_short s l :
  NoDup s.*1 -> NoDup l.*1 -> matched_long s l = matched_short l s.
Proof.
  unfold matched_long, matched_short.
  induction s as [|[k v] s IH]; intros Hs Hl.
  { rewrite shared_sum_nil_l. symmetry. apply shared_sum_disjoint.
    intros ? _. apply not_elem_of_nil. }
  rewrite fmap_cons in Hs. apply NoDup_cons in Hs as [Hk Hs].
  rewrite shared_sum_cons, IH by done.
  assert (Hhead : (if has_key k l then mult_of k l else 0) = mult_of k l).
  { destruct (has_key k l) eqn:E; [done|].
    symmetry. by apply mult_of_absent, has_key_false. }
  rewrite Hhead, <- (sum_key_is_mult_of k l) by done.
  unfold shared_sum. rewrite <- sum_over_plus.
  apply sum_over_ext. intros [k2 m2] Hin. simpl.
  unfold has_key. rewrite fmap_cons. simpl.
  simpl in Hk.
  repeat case_bool_decide; case_decide; simplify_eq; try lia; exfalso;
    repeat match goal with
           | H : _ ∈ _ :: _ |- _ => apply elem_of_cons in H as [?|?]
           | H : _ ∉ _ :: _ |- _ => apply not_elem_of_cons in H as [? ?]
           end; done.
Qed.

Lemma support_union_perm s l :
  NoDup s.*1 -> NoDup l.*1 ->
  support_union s l ≡ₚ s.*1 ++ filter (fun k => k ∉ s.*1) l.*1.
Proof.
  intros Hs Hl. unfold support_union. apply NoDup_Permutation.
  - apply NoDup_remove_dups.
  - apply NoDup_app. split; [done|]. split.
    + intros k Hk [Hk' _]%list_elem_of_filter. done.
    + by apply NoDup_filter.
  - intros k. rewrite elem_of_remove_dups, !elem_of_app, list_elem_of_filter.
    destruct (decide (k ∈ s.*1)); tauto.
Qed.

Lemma support_union_comm s l : support_union s l ≡ₚ support_union l s.
Proof.
  unfold support_union. apply NoDup_Permutation; try apply NoDup_remove_dups.
  intros k. rewrite !elem_of_remove_dups, !elem_of_app. tauto.
Qed.

Lemma jaccard_num_comm s l : jaccard_num s l = jaccard_num l s.
Proof.
  unfold jaccard_num. rewrite (sum_over_perm _ _ _ (support_union_comm s l)).
  apply sum_over_ext. intros. lia.
Qed.

Lemma jaccard_den_comm s l : jaccard_den s l = jaccard_den l s.
Proof.
  unfold jaccard_den. rewrite (sum_over_perm _ _ _ (support_union_comm s l)).
  apply sum_over_ext. intros. lia.
Qed.

Lemma sum_over_eq_add {A : Type} (f g h : A -> Z) (l : list A) :
  (forall x, x ∈ l -> f x = g x + h x) ->
  sum_over f l = sum_over g l + sum_over h l.
Proof. intros H. rewrite <- sum_over_plus. by apply sum_over_ext. Qed.

Lemma mult_of_nonneg k s : Forall (fun p => 0 <= p.2) s -> 0 <= mult_of k s.
Proof.
  induction 1 as [|[k' m] s Hm _ IH]; simpl; [lia|].
  case_decide; [done | exact IH].
Qed.

Lemma positive_nonneg (s : list (Z * Z)) :
  Forall (fun p => 0 < p.2) s -> Forall (fun p => 0 <= p.2) s.
Proof. intros H. eapply Forall_impl; [exact H|]. intros; simpl in *; lia. Qed.

Section SharedSums.
Variables s l : list (Z * Z).
Hypothesis Hs : NoDup s.*1.
Hypothesis Hl : NoDup l.*1.
Hypothesis Hs0 : Forall (fun p => 0 <= p.2) s.
Hypothesis Hl0 : Forall (fun p => 0 <= p.2) l.

Lemma entry_nonneg_s p : p ∈ s -> 0 <= p.2.
Proof. intros Hp. rewrite Forall_forall in Hs0. by apply Hs0. Qed.

Lemma entry_nonneg_l p : p ∈ l -> 0 <= p.2.
Proof. intros Hp. rewrite Forall_forall in Hl0. by apply Hl0. Qed.

Lemma jaccard_num_shared : jaccard_num s l = shared_num s l.
Proof.
  unfold jaccard_num.
  rewrite (sum_over_perm _ _ _ (support_union_perm s l Hs Hl)).
  rewrite sum_over_app, sum_over_fmap.
  rewrite (sum_over_zero _ (filter _ _)).
  - rewrite Z.add_0_r. apply sum_over_ext. intros [k v] Hin. simpl.
    rewrite (mult_of_present k v s Hs Hin).
    pose proof (entry_nonneg_s _ Hin) as Hv. simpl in Hv.
    destruct (has_key k l) eqn:E; [done|].
    apply has_key_false in E. rewrite (mult_of_absent k l E). lia.
  - intros k [Hk _]%list_elem_of_filter.
    rewrite (mult_of_absent k s Hk).
    pose proof (mult_of_nonneg k l Hl0). lia.
Qed.

Lemma matched_short_le : 0 <= matched_short s l <= sum_over snd s.
Proof.
  unfold matched_short, shared_sum. split.
  - apply sum_over_nonneg. intros p Hp.
    pose proof (entry_nonneg_s _ Hp). by destruct (has_key p.1 l).
  - apply sum_over_le. intros p Hp.
    pose proof (entry_nonneg_s _ Hp). by destruct (has_key p.1 l).
Qed.

Lemma shared_num_le : 0 <= shared_num s l <= matched_short s l.
Proof.
  unfold shared_num, matched_short, shared_sum. split.
  - apply sum_over_nonneg. intros p Hp.
    pose proof (entry_nonneg_s _ Hp).
    pose proof (mult_of_nonneg p.1 l Hl0).
    destruct (has_key p.1 l); lia.
  - apply sum_over_le. intros p Hp. destruct (has_key p.1 l); lia.
Qed.

Lemma shared_den_le :
  0 <= shared_den s l <= matched_short s l + matched_long s l.
Proof.
  unfold shared_den, matched_short, matched_long, shared_sum. split.
  - apply sum_over_nonneg. intros p Hp.
    pose proof (entry_nonneg_s _ Hp).
    destruct (has_key p.1 l); lia.
  - rewrite <- sum_over_plus. apply sum_over_le. intros p Hp.
    pose proof (entry_nonneg_s _ Hp).
    pose proof (mult_of_nonneg p.1 l Hl0).
    destruct (has_key p.1 l); lia.
Qed.

(** Σ max over the union of the supports, split the way the program
    computes it: the shared keys, then what is left on either side. *)
Lemma jaccard_den_shared :
  jaccard_den s l =
  shared_den s l + (sum_over snd s - matched_short s l)
                 + (sum_over snd l - matched_short l s).
Proof.
  unfold jaccard_den.
  rewrite (sum_over_perm _ _ _ (support_union_perm s l Hs Hl)).
  rewrite sum_over_app, sum_over_fmap, sum_over_filter, sum_over_fmap.
  assert (H1 : sum_over (fun x => Z.max (mult_of x.1 s) (mult_of x.1 l)) s
               + matched_short s l
               = shared_den s l + sum_over snd s).
  { unfold matched_short, shared_den, shared_sum.
    rewrite <- !sum_over_plus. apply sum_over_ext. intros [k v] Hin. simpl.
    rewrite (mult_of_present k v s Hs Hin).
    pose proof (entry_nonneg_s _ Hin) as Hv. simpl in Hv.
    destruct (has_key k l) eqn:E; [lia|].
    apply has_key_false in E. rewrite (mult_of_absent k l E). lia. }
  assert (H2 : sum_over (fun x => if decide (x.1 ∉ s.*1)
                                  then Z.max (mult_of x.1 s) (mult_of x.1 l)
                                  else 0) l
               + matched_short l s = sum_over snd l).
  { unfold matched_short, shared_sum.
    rewrite <- !sum_over_plus. apply sum_over_ext. intros [k v] Hin. simpl.
    rewrite (mult_of_present k v l Hl Hin).
    pose proof (entry_nonneg_l _ Hin) as Hv. simpl in Hv.
    unfold has_key. case_decide as Hk.
    - rewrite bool_decide_eq_false_2 by done.
      rewrite (mult_of_absent k s Hk). lia.
    - rewrite bool_decide_eq_true_2; [lia|].
      destruct (decide (k ∈ s.*1)); [done | contradiction]. }
  lia.
Qed.
End SharedSums.

(** ** The container overload computes the generalized Jaccard *)

Lemma wrap_wrap bits x : wrap bits (wrap bits x) = wrap bits x.
Proof. unfold wrap. apply Zmod_mod. Qed.

Lemma wrap_small bits x : 0 <= x < 2 ^ bits -> wrap bits x = x.
Proof. unfold wrap. apply Z.mod_small. Qed.

Lemma merge_init_reduced mb : merge_reduced mb merge_init.
Proof. unfold merge_reduced, wrap; simpl. by rewrite !Zmod_0_l. Qed.

Lemma merge_match_reduced mb st a b : merge_reduced mb (merge_match mb st a b).
Proof. unfold merge_reduced, merge_match; simpl. by rewrite !wrap_wrap. Qed.

Lemma merge_loop_reduced mb bk s : forall l st,
  merge_reduced mb st -> merge_reduced mb (merge_loop mb bk s l st).
Proof.
  induction s as [|[sk sv] s' IHs]; intros l; [done|].
  induction l as [|[lk lv] l' IHl]; intros st Hst; [done|].
  rewrite merge_loop_cons.
  destruct (bk <? sk); [done|].
  destruct (sk <? lk); [by apply IHs|].
  destruct (lk <? sk); [by apply IHl|].
  apply IHs, merge_match_reduced.
Qed.

Section ContainerOverload.
Variable mb : Z.
Variables S L : KmersContainer.
Hypothesis HS : container_ok S.
Hypothesis HL : container_ok L.
Hypothesis Hfit : totals_fit mb S L.

Let s := getKmerSet S.
Let l := getKmerSet L.

Lemma ContainerOverload_facts :
  NoDup s.*1 /\ NoDup l.*1 /\
  Forall (fun p => 0 <= p.2) s /\ Forall (fun p => 0 <= p.2) l.
Proof.
  destruct HS, HL. repeat split;
    auto using keys_ascending_NoDup, positive_nonneg.
Qed.

(** The accumulators after the loop, for any bound [bk] on the keys of
    the long side. *)
Lemma merge_loop_exact bk :
  (forall k, k ∈ l.*1 -> k <= bk) ->
  merge_loop mb bk s l merge_init =
  mkMerge (shared_num s l) (shared_den s l)
          (matched_short s l) (matched_long s l).
Proof.
  intros Hbk.
  destruct ContainerOverload_facts as (Hs & Hl & Hs0 & Hl0).
  pose proof (merge_loop_adds mb bk s l merge_init
                (ok_sorted _ HS) (ok_sorted _ HL) Hbk) as (Hn & Hd & Hcs & Hcl).
  pose proof (merge_loop_reduced mb bk s l merge_init
                (merge_init_reduced mb)) as (Rn & Rd & Rcs & Rcl).
  rewrite Rn in Hn. rewrite Rd in Hd. rewrite Rcs in Hcs. rewrite Rcl in Hcl.
  simpl in Hn, Hd, Hcs, Hcl.
  pose proof (matched_short_le s l Hs0) as B1.
  pose proof (shared_num_le s l Hs0 Hl0) as B2.
  pose proof (shared_den_le s l Hs0 Hl0) as B3.
  pose proof (matched_short_le l s Hl0) as B4.
  rewrite <- (matched_long_short s l Hs Hl) in B4.
  destruct Hfit as [F1 F2].
  rewrite (ok_total _ HS), (ok_total _ HL) in F1, F2. fold s l in F1, F2.
  rewrite wrap_small in Hn by lia. rewrite wrap_small in Hd by lia.
  rewrite wrap_small in Hcs by lia. rewrite wrap_small in Hcl by lia.
  destruct (merge_loop mb bk s l merge_init); simpl in *.
  f_equal; lia.
Qed.

Lemma merge_divisor_exact :
  merge_divisor mb S L
    (mkMerge (shared_num s l) (shared_den s l)
             (matched_short s l) (matched_long s l))
  = shared_den s l
    + (getMultiplicityNumber S - matched_short s l)
    + (getMultiplicityNumber L - matched_long s l).
Proof.
  destruct ContainerOverload_facts as (Hs & Hl & Hs0 & Hl0).
  pose proof (matched_short_le s l Hs0) as B1.
  pose proof (shared_den_le s l Hs0 Hl0) as B3.
  pose proof (matched_short_le l s Hl0) as B4.
  rewrite <- (matched_long_short s l Hs Hl) in B4.
  destruct Hfit as [F1 F2].
  unfold merge_divisor; simpl.
  rewrite (ok_total _ HS), (ok_total _ HL) in *. fold s l in F1, F2 |- *.
  rewrite (wrap_small mb (_ - matched_short s l)) by lia.
  rewrite (wrap_small mb (_ - matched_long s l)) by lia.
  rewrite (wrap_small mb) by lia.
  rewrite wrap_small by lia. lia.
Qed.

Lemma similarity_containers_shared :
  calculateSimilarityContainers mb S L =
  fdiv (shared_num s l)
       (shared_den s l
        + (getMultiplicityNumber S - matched_short s l)
        + (getMultiplicityNumber L - matched_long s l)).
Proof.
  unfold calculateSimilarityContainers. fold s l.
  rewrite merge_loop_exact by apply (ok_bigger _ HL).
  by rewrite merge_divisor_exact.
Qed.

Lemma shared_is_jaccard :
  shared_num s l = jaccard_num s l /\
  shared_den s l
  + (getMultiplicityNumber S - matched_short s l)
  + (getMultiplicityNumber L - matched_long s l) = jaccard_den s l.
Proof.
  destruct ContainerOverload_facts as (Hs & Hl & Hs0 & Hl0).
  split; [symmetry; by apply jaccard_num_shared|].
  rewrite (jaccard_den_shared s l Hs Hl Hs0 Hl0).
  rewrite (matched_long_short s l Hs Hl).
  by rewrite (ok_total _ HS), (ok_total _ HL).
Qed.

Lemma similarity_containers_jaccard :
  calculateSimilarityContainers mb S L =
  fdiv (jaccard_num s l) (jaccard_den s l).
Proof.
  rewrite similarity_containers_shared.
  by destruct shared_is_jaccard as [-> ->].
Qed.
End ContainerOverload.

(** ** The gene overload *)

Lemma totals_fit_comm mb c1 c2 : totals_fit mb c1 c2 -> totals_fit mb c2 c1.
Proof. unfold totals_fit. lia. Qed.

(** C1: for two genes with built k-mer containers that pass the length
    filter, [calculateSimilarity] returns the quotient of
    num = Σ min(a_i, b_i) over the shared keys by
    den + unmatchedShort + unmatchedLong, where den = Σ max(a_i, b_i) over
    the shared keys; numerator and divisor are Σ min and Σ max over the
    union of the key supports of the two genes, so the result is their
    generalized Jaccard index; and the loop yields the same accumulators
    for every larger exit bound, in particular for one that never fires. *)
Theorem calculateSimilarity_generalized_jaccard
  (mult_bits : Z) (gene1 gene2 : Gene) :
  container_ok (getKmerContainer gene1) ->
  container_ok (getKmerContainer gene2) ->
  totals_fit mult_bits (getKmerContainer gene1) (getKmerContainer gene2) ->
  length_filter gene1 gene2 = false ->
  let shortest := if getKmersNum gene1 <? getKmersNum gene2
                  then getKmerContainer gene1 else getKmerContainer gene2 in
  let longest := if getKmersNum gene1 <? getKmersNum gene2
                 then getKmerContainer gene2 else getKmerContainer gene1 in
  let s := getKmerSet shortest in
  let l := getKmerSet longest in
  let unmatchedShort := getMultiplicityNumber shortest - matched_short s l in
  let unmatchedLong := getMultiplicityNumber longest - matched_long s l in
  calculateSimilarity mult_bits gene1 gene2
  = fdiv (shared_num s l) (shared_den s l + unmatchedShort + unmatchedLong)
  /\ shared_num s l
     = jaccard_num (getKmerSet (getKmerContainer gene1))
                   (getKmerSet (getKmerContainer gene2))
  /\ shared_den s l + unmatchedShort + unmatchedLong
     = jaccard_den (getKmerSet (getKmerContainer gene1))
                   (getKmerSet (getKmerContainer gene2))
  /\ (forall bk, getBiggerKey longest <= bk ->
        merge_loop mult_bits bk s l merge_init
        = merge_loop mult_bits (getBiggerKey longest) s l merge_init).
Proof.
  intros H1 H2 Hfit Hfilter. unfold calculateSimilarity. rewrite Hfilter.
  destruct (getKmersNum gene1 <? getKmersNum gene2); simpl.
  - pose proof (shared_is_jaccard _ _ H1 H2) as [Hn Hd].
    split; [by apply similarity_containers_shared|].
    split; [done|]. split; [done|].
    intros bk Hbk.
    rewrite !(merge_loop_exact mult_bits _ _ H1 H2 Hfit); [done| |].
    + apply (ok_bigger _ H2).
    + intros k Hk. apply (ok_bigger _ H2) in Hk. lia.
  - apply totals_fit_comm in Hfit.
    pose proof (shared_is_jaccard _ _ H2 H1) as [Hn Hd].
    split; [by apply similarity_containers_shared|].
    split; [by rewrite jaccard_num_comm|].
    split; [by rewrite jaccard_den_comm|].
    intros bk Hbk.
    rewrite !(merge_loop_exact mult_bits _ _ H2 H1 Hfit); [done| |].
    + apply (ok_bigger _ H1).
    + intros k Hk. apply (ok_bigger _ H1) in Hk. lia.
Qed.

Lemma container_ABCABC_ok : container_ok container_ABCABC.
Proof.
  split; simpl.
  - unfold keys_ascending; simpl.
    repeat (constructor; [|repeat constructor; lia]). constructor.
  - repeat constructor; simpl; lia.
  - reflexivity.
  - intros k Hk. repeat (apply elem_of_cons in Hk as [->|Hk]; [lia|]).
    by apply elem_of_nil in Hk.
Qed.

Lemma container_ABCXYZ_ok : container_ok container_ABCXYZ.
Proof.
  split; simpl.
  - unfold keys_ascending; simpl.
    repeat (constructor; [|repeat constructor; lia]). constructor.
  - repeat constructor; simpl; lia.
  - reflexivity.
  - intros k Hk. repeat (apply elem_of_cons in Hk as [->|Hk]; [lia|]).
    by apply elem_of_nil in Hk.
Qed.

(** Scenario S4: the similarity of "ABCABC" and "ABCXYZ" is 1/7. *)
Lemma calculateSimilarity_generalized_jaccard_witness :
  calculateSimilarity 32 gene_ABCABC gene_ABCXYZ = fdiv 1 7
  /\ jaccard_num (getKmerSet container_ABCABC) (getKmerSet container_ABCXYZ) = 1
  /\ jaccard_den (getKmerSet container_ABCABC) (getKmerSet container_ABCXYZ) = 7.
Proof.
  destruct (calculateSimilarity_generalized_jaccard 32 gene_ABCABC gene_ABCXYZ)
    as (Hres & Hnum & Hden & _).
  - exact container_ABCABC_ok.
  - exact container_ABCXYZ_ok.
  - split; vm_compute; reflexivity.
  - vm_compute; reflexivity.
  - split; [etransitivity; [exact Hres | vm_compute; reflexivity]|].
    split.
    + etransitivity; [symmetry; exact Hnum | vm_compute; reflexivity].
    + etransitivity; [symmetry; exact Hden | vm_compute; reflexivity].
Defined.

(** ** The order of scores *)

Lemma gtb_fin p q : gtb (SFin p) (SFin q) = true <-> (q < p)%Q.
Proof.
  simpl. rewrite negb_true_iff, <- not_true_iff_false, Qle_bool_iff.
  split; [apply Qnot_le_lt | apply Qlt_not_le].
Qed.

Lemma gtb_fin_false p q : gtb (SFin p) (SFin q) = false <-> (p <= q)%Q.
Proof.
  simpl. rewrite negb_false_iff. apply Qle_bool_iff.
Qed.

Lemma eqb_fin p q : eqb (SFin p) (SFin q) = true <-> (p == q)%Q.
Proof. simpl. apply Qeq_bool_iff. Qed.

Lemma eqb_fin_false p q : eqb (SFin p) (SFin q) = false <-> ~ (p == q)%Q.
Proof. simpl. rewrite <- not_true_iff_false, Qeq_bool_iff. tauto. Qed.

(** Case analysis on scores and translation of every comparison between
    finite scores into the order of [Q]. *)
Ltac score_cases :=
  repeat match goal with
         | a : score_t |- _ => destruct a
         end;
  repeat match goal with
         | H : gtb (SFin _) (SFin _) = true |- _ => apply gtb_fin in H
         | H : gtb (SFin _) (SFin _) = false |- _ => apply gtb_fin_false in H
         | H : eqb (SFin _) (SFin _) = true |- _ => apply eqb_fin in H
         | H : eqb (SFin _) (SFin _) = false |- _ => apply eqb_fin_false in H
         | |- gtb (SFin _) (SFin _) = true => apply gtb_fin
         | |- gtb (SFin _) (SFin _) = false => apply gtb_fin_false
         | |- eqb (SFin _) (SFin _) = true => apply eqb_fin
         | |- eqb (SFin _) (SFin _) = false => apply eqb_fin_false
         end;
  try (simpl in *; congruence); try lra.

Lemma gtb_irrefl a : gtb a a = false.
Proof. score_cases. Qed.

Lemma gtb_not_nan_l a b : gtb a b = true -> is_nan a = false.
Proof. intros H. score_cases. Qed.

Lemma gtb_not_nan_r a b : gtb a b = true -> is_nan b = false.
Proof. intros H. score_cases. Qed.

Lemma gtb_trans a b c : gtb a b = true -> gtb b c = true -> gtb a c = true.
Proof. intros H1 H2. score_cases. Qed.

(** [s] is not above [b] and [b'] is above [b]: [s] is neither above nor
    equal to [b']. *)
Lemma gtb_false_raise s b b' :
  gtb s b = false -> gtb b' b = true -> gtb s b' = false.
Proof. intros H1 H2. score_cases. Qed.

Lemma eqb_false_raise s b b' :
  gtb s b = false -> gtb b' b = true -> eqb s b' = false.
Proof. intros H1 H2. score_cases. Qed.

Lemma eqb_gtb_false a b : eqb a b = true -> gtb a b = false.
Proof. intros H. score_cases. Qed.

Lemma eqb_refl a : is_nan a = false -> eqb a a = true.
Proof. intros H. score_cases. Qed.

Lemma eqb_sym a b : eqb a b = true -> eqb b a = true.
Proof. intros H. score_cases. Qed.

Lemma eqb_trans a b c : eqb a b = true -> eqb b c = true -> eqb a c = true.
Proof. intros H1 H2. score_cases. Qed.

Lemma eqb_not_nan_l a b : eqb a b = true -> is_nan a = false.
Proof. intros H. score_cases. Qed.

Lemma eqb_gtb_compat a b z : eqb a b = true -> gtb b z = true -> gtb a z = true.
Proof. intros H1 H2. score_cases. Qed.

Lemma eqb_gtb_compat_r a b x : eqb a b = true -> gtb x a = false -> gtb x b = false.
Proof. intros H1 H2. score_cases. Qed.

(** [a] is positive and not above [s], and [s] is a number: [s] is
    positive. *)
Lemma gtb_lower_bound a s z :
  gtb a s = false -> gtb a z = true -> is_nan s = false -> gtb s z = true.
Proof. intros H1 H2 H3. score_cases. Qed.

Lemma gtb_eqb_false a b : gtb a b = true -> eqb a b = false.
Proof. intros H. score_cases. Qed.

Lemma gtb_zero_not_zero a : gtb a zero = true -> eqb a zero = false.
Proof. apply gtb_eqb_false. Qed.

(** ** Offering scores to a candidate *)

Lemma gtb_above_nonneg x b :
  gtb x b = true -> gtb zero b = false -> gtb x zero = true.
Proof. unfold zero, of_int. intros H1 H2. score_cases. Qed.

Lemma candidate_inv_new x : candidate_inv x [] BBHCandidate.new.
Proof.
  split; simpl; try done.
  - intros c Hc. by apply elem_of_nil in Hc.
  - intros c. split; [intros Hc; by apply elem_of_nil in Hc|].
    intros [Hc _]. by apply elem_of_nil in Hc.
Qed.

Lemma candidate_inv_step x cols cand c :
  candidate_inv x cols cand ->
  candidate_inv x (cols ++ [c]) (BBHCandidate.addCandidate cand (x c) c).
Proof.
  intros [Hnum Hnn Hup Hlist Hatt]. unfold BBHCandidate.addCandidate.
  destruct (gtb (x c) (BBHCandidate.getBestScore cand)) eqn:Egt.
  { (* a new best *)
    assert (Hpos : gtb (x c) zero = true) by eauto using gtb_above_nonneg.
    assert (Hxnum : is_nan (x c) = false) by eauto using gtb_not_nan_l.
    split; cbn [BBHCandidate.getBestScore BBHCandidate.getCandidateList andb].
    - done.
    - eauto using gtb_false_raise.
    - intros c' [Hc'| ->%list_elem_of_singleton]%elem_of_app.
      + eauto using gtb_false_raise.
      + apply gtb_irrefl.
    - intros c'. rewrite list_elem_of_singleton, elem_of_app,
        list_elem_of_singleton. split.
      + intros ->. auto using eqb_refl.
      + intros ([Hc'| ->] & Heq & _); [|done].
        apply Hup in Hc'.
        rewrite (eqb_false_raise _ _ _ Hc' Egt) in Heq. done.
    - intros _. exists c. split; [apply elem_of_app; right; by left|].
      by apply eqb_refl. }
  destruct (eqb (x c) (BBHCandidate.getBestScore cand)) eqn:Eeq;
    [destruct (gtb (BBHCandidate.getBestScore cand) zero) eqn:Epos|];
    cbn [andb].
  - (* a tie with a positive best *)
    split; cbn [BBHCandidate.getBestScore BBHCandidate.getCandidateList andb]; try done.
    + intros c' [Hc'| ->%list_elem_of_singleton]%elem_of_app; auto.
    + intros c'. rewrite !elem_of_app, list_elem_of_singleton, Hlist.
      split; [intros [(?&?&?)| ->]; auto | intros ([?| ->]&?&?); auto].
    + intros _. exists c. split; [apply elem_of_app; right; by left | done].
  - (* a tie at zero *)
    split; try done.
    + intros c' [Hc'| ->%list_elem_of_singleton]%elem_of_app; auto.
    + intros c'. rewrite Hlist, elem_of_app. rewrite Epos.
      split; intros (?&?&?); done.
    + intros _. exists c. split; [apply elem_of_app; right; by left | done].
  - (* below the best, or not a number *)
    split; try done.
    + intros c' [Hc'| ->%list_elem_of_singleton]%elem_of_app; auto.
    + intros c'. rewrite Hlist, elem_of_app, list_elem_of_singleton.
      split; [intros (?&?&?); auto|].
      intros ([?| ->]&Heq&?); [auto|]. rewrite Eeq in Heq. done.
    + intros Hpos. destruct (Hatt Hpos) as (c' & Hc' & Heq).
      exists c'. split; [apply elem_of_app; by left | done].
Qed.

Lemma offer_all_inv x cols :
  candidate_inv x cols (offer_all x cols BBHCandidate.new).
Proof.
  unfold offer_all.
  induction cols as [|c cols IH] using rev_ind; [apply candidate_inv_new|].
  rewrite foldl_app. simpl. by apply candidate_inv_step.
Qed.

(** A positive score among those offered makes the best score positive. *)
Lemma candidate_inv_positive x cols cand c :
  candidate_inv x cols cand -> c ∈ cols -> gtb (x c) zero = true ->
  gtb (BBHCandidate.getBestScore cand) zero = true.
Proof.
  intros [Hnum _ Hup _ _] Hc Hpos.
  eapply gtb_lower_bound; eauto.
Qed.

Lemma candidate_inv_max x cols cand :
  candidate_inv x cols cand ->
  gtb (BBHCandidate.getBestScore cand) zero = true ->
  is_max_over x cols (BBHCandidate.getBestScore cand).
Proof.
  intros [_ _ Hup _ Hatt] Hpos. split; [by apply Hatt | exact Hup].
Qed.

(** ** The two containers under the writes of the row phase *)

Lemma getCandidateAt_addCandidate_eq c i x j :
  (i < length (BBHCandidatesContainer.candidates_ c))%nat ->
  BBHCandidatesContainer.getCandidateAt
    (BBHCandidatesContainer.addCandidate c i x j) i
  = BBHCandidate.addCandidate (BBHCandidatesContainer.getCandidateAt c i) x j.
Proof.
  intros Hi. unfold BBHCandidatesContainer.getCandidateAt,
    BBHCandidatesContainer.addCandidate. simpl.
  rewrite list_lookup_alter_eq.
  destruct (lookup_lt_is_Some_2 _ _ Hi) as [y Hy]. by rewrite Hy.
Qed.

Lemma getCandidateAt_addCandidate_ne c i x j r :
  r <> i ->
  BBHCandidatesContainer.getCandidateAt
    (BBHCandidatesContainer.addCandidate c i x j) r
  = BBHCandidatesContainer.getCandidateAt c r.
Proof.
  intros Hne. unfold BBHCandidatesContainer.getCandidateAt,
    BBHCandidatesContainer.addCandidate. simpl.
  by rewrite list_lookup_alter_ne.
Qed.

Lemma getScoreAt_setScoreAt_eq m r c x :
  (r * ScoresContainer.cols_ m + c < length (ScoresContainer.cells_ m))%nat ->
  ScoresContainer.getScoreAt (ScoresContainer.setScoreAt m r c x) r c = x.
Proof.
  intros Hi. unfold ScoresContainer.getScoreAt, ScoresContainer.setScoreAt.
  simpl. by rewrite list_lookup_insert_eq.
Qed.

Lemma getScoreAt_setScoreAt_ne m r c x r' c' :
  (c < ScoresContainer.cols_ m)%nat -> (c' < ScoresContainer.cols_ m)%nat ->
  r' <> r \/ c' <> c ->
  ScoresContainer.getScoreAt (ScoresContainer.setScoreAt m r c x) r' c'
  = ScoresContainer.getScoreAt m r' c'.
Proof.
  intros Hc Hc' Hne. unfold ScoresContainer.getScoreAt,
    ScoresContainer.setScoreAt. simpl.
  rewrite list_lookup_insert_ne; [done|].
  intros Heq. set (C := ScoresContainer.cols_ m) in *.
  destruct (Nat.lt_total r' r) as [Hlt|[->|Hlt]].
  - assert (r' * C + C <= r * C)%nat by nia. lia.
  - destruct Hne as [Hne|Hne]; [done|]. apply Hne. lia.
  - assert (r * C + C <= r' * C)%nat by nia. lia.
Qed.

Lemma write_cell_ok R C r c x st :
  state_ok R C st -> state_ok R C (write_cell r c x st).
Proof.
  intros [H1 H2 H3 H4 H5]. split; simpl; try done.
  - by rewrite length_alter.
  - by rewrite length_insert.
Qed.

Lemma fill_row_snoc x cols c r st :
  fill_row x (cols ++ [c]) r st
  = write_cell r c (x r c) (fill_row x cols r st).
Proof. unfold fill_row. by rewrite foldl_app. Qed.

Lemma fill_row_ok R C x cols r st :
  state_ok R C st -> state_ok R C (fill_row x cols r st).
Proof.
  intros Hst. induction cols as [|c cols IH] using rev_ind; [done|].
  rewrite fill_row_snoc. by apply write_cell_ok.
Qed.

Lemma fill_row_candidate_eq R C x cols r st :
  state_ok R C st -> (r < R)%nat ->
  BBHCandidatesContainer.getCandidateAt (fill_row x cols r st).1 r
  = offer_all (x r) cols (BBHCandidatesContainer.getCandidateAt st.1 r).
Proof.
  intros Hst Hr. induction cols as [|c cols IH] using rev_ind; [done|].
  rewrite fill_row_snoc. unfold offer_all. rewrite foldl_app. simpl.
  fold (offer_all (x r) cols (BBHCandidatesContainer.getCandidateAt st.1 r)).
  rewrite <- IH. apply getCandidateAt_addCandidate_eq.
  by rewrite (ok_candidates _ _ _ (fill_row_ok R C x cols r st Hst)).
Qed.

Lemma fill_row_candidate_ne x cols r st r' :
  r' <> r ->
  BBHCandidatesContainer.getCandidateAt (fill_row x cols r st).1 r'
  = BBHCandidatesContainer.getCandidateAt st.1 r'.
Proof.
  intros Hne. induction cols as [|c cols IH] using rev_ind; [done|].
  rewrite fill_row_snoc. simpl.
  by rewrite getCandidateAt_addCandidate_ne.
Qed.

Lemma fill_row_score_eq R C x cols r st c :
  state_ok R C st -> (r < R)%nat -> Forall (fun c => (c < C)%nat) cols ->
  c ∈ cols ->
  ScoresContainer.getScoreAt (fill_row x cols r st).2 r c = x r c.
Proof.
  intros Hst Hr. induction cols as [|c0 cols IH] using rev_ind;
    intros Hcols Hc; [by apply elem_of_nil in Hc|].
  apply Forall_app in Hcols as [Hcols Hc0].
  rewrite Forall_singleton in Hc0.
  pose proof (fill_row_ok R C x cols r st Hst) as [H1 H2 H3 H4 H5].
  rewrite fill_row_snoc. simpl.
  destruct (decide (c = c0)) as [->|Hne].
  - apply getScoreAt_setScoreAt_eq. rewrite H4, H5.
    assert (r * C + C <= R * C)%nat by nia. lia.
  - apply elem_of_app in Hc as [Hc| ->%list_elem_of_singleton]; [|done].
    rewrite getScoreAt_setScoreAt_ne; [by apply IH| | |by right].
    + by rewrite H4.
    + rewrite H4. rewrite Forall_forall in Hcols. by apply Hcols.
Qed.

Lemma fill_row_score_ne R C x cols r st r' c' :
  state_ok R C st -> Forall (fun c => (c < C)%nat) cols -> (c' < C)%nat ->
  r' <> r \/ c' ∉ cols ->
  ScoresContainer.getScoreAt (fill_row x cols r st).2 r' c'
  = ScoresContainer.getScoreAt st.2 r' c'.
Proof.
  intros Hst. induction cols as [|c0 cols IH] using rev_ind;
    intros Hcols Hc' Hne; [done|].
  apply Forall_app in Hcols as [Hcols Hc0].
  rewrite Forall_singleton in Hc0.
  pose proof (fill_row_ok R C x cols r st Hst) as [H1 H2 H3 H4 H5].
  rewrite fill_row_snoc. simpl.
  rewrite getScoreAt_setScoreAt_ne.
  - apply IH; [done..|]. destruct Hne as [?|Hne]; [by left|right].
    intros Hin. apply Hne, elem_of_app. by left.
  - by rewrite H4.
  - by rewrite H4.
  - destruct Hne as [?|Hne]; [by left|right].
    intros ->. apply Hne, elem_of_app. right. by left.
Qed.

Section FillRows.
Variables R C : nat.
Variable x : nat -> nat -> score_t.
Variable cols_of : nat -> list nat.
Variable st : row_state.
Hypothesis Hst : state_ok R C st.
Hypothesis Hcols : forall r, Forall (fun c => (c < C)%nat) (cols_of r).

Lemma fill_rows_snoc rs r :
  fill_rows x cols_of (rs ++ [r]) st
  = fill_row x (cols_of r) r (fill_rows x cols_of rs st).
Proof. unfold fill_rows. by rewrite foldl_app. Qed.

Lemma fill_rows_ok rs : state_ok R C (fill_rows x cols_of rs st).
Proof.
  induction rs as [|r rs IH] using rev_ind; [done|].
  rewrite fill_rows_snoc. by apply fill_row_ok.
Qed.

Lemma fill_rows_candidate_out rs r :
  r ∉ rs ->
  BBHCandidatesContainer.getCandidateAt (fill_rows x cols_of rs st).1 r
  = BBHCandidatesContainer.getCandidateAt st.1 r.
Proof.
  induction rs as [|r0 rs IH] using rev_ind; intros Hr; [done|].
  rewrite fill_rows_snoc. apply not_elem_of_app in Hr as [Hr Hr0].
  rewrite fill_row_candidate_ne; [by apply IH|].
  intros ->. apply Hr0. by left.
Qed.

Lemma fill_rows_candidate_in rs r :
  NoDup rs -> Forall (fun r => (r < R)%nat) rs -> r ∈ rs ->
  BBHCandidatesContainer.getCandidateAt (fill_rows x cols_of rs st).1 r
  = offer_all (x r) (cols_of r) (BBHCandidatesContainer.getCandidateAt st.1 r).
Proof.
  induction rs as [|r0 rs IH] using rev_ind; intros Hnd Hlt Hr;
    [by apply elem_of_nil in Hr|].
  rewrite fill_rows_snoc.
  apply NoDup_app in Hnd as (Hnd & Hfresh & _).
  apply Forall_app in Hlt as [Hlt Hr0]. rewrite Forall_singleton in Hr0.
  destruct (decide (r = r0)) as [->|Hne].
  - rewrite (fill_row_candidate_eq R C) by auto using fill_rows_ok.
    rewrite fill_rows_candidate_out; [done|].
    intros Hin. apply (Hfresh _ Hin). by left.
  - rewrite fill_row_candidate_ne by done.
    apply elem_of_app in Hr as [Hr| ->%list_elem_of_singleton]; [|done].
    by apply IH.
Qed.

Lemma fill_rows_score_out rs r c :
  (c < C)%nat -> r ∉ rs \/ c ∉ cols_of r ->
  ScoresContainer.getScoreAt (fill_rows x cols_of rs st).2 r c
  = ScoresContainer.getScoreAt st.2 r c.
Proof.
  intros Hc. induction rs as [|r0 rs IH] using rev_ind; intros Hr; [done|].
  rewrite fill_rows_snoc.
  rewrite (fill_row_score_ne R C); auto using fill_rows_ok.
  - apply IH. destruct Hr as [Hr|Hr]; [left|by right].
    intros Hin. apply Hr, elem_of_app. by left.
  - destruct (decide (r = r0)) as [->|Hne]; [right|by left].
    destruct Hr as [Hr|Hr]; [|done].
    exfalso. apply Hr, elem_of_app. right. by left.
Qed.

Lemma fill_rows_score_in rs r c :
  NoDup rs -> Forall (fun r => (r < R)%nat) rs -> r ∈ rs -> c ∈ cols_of r ->
  ScoresContainer.getScoreAt (fill_rows x cols_of rs st).2 r c = x r c.
Proof.
  induction rs as [|r0 rs IH] using rev_ind; intros Hnd Hlt Hr Hc;
    [by apply elem_of_nil in Hr|].
  rewrite fill_rows_snoc.
  apply NoDup_app in Hnd as (Hnd & Hfresh & _).
  apply Forall_app in Hlt as [Hlt Hr0]. rewrite Forall_singleton in Hr0.
  destruct (decide (r = r0)) as [->|Hne].
  - apply (fill_row_score_eq R C); auto using fill_rows_ok.
  - apply elem_of_app in Hr as [Hr| ->%list_elem_of_singleton]; [|done].
    rewrite (fill_row_score_ne R C); auto using fill_rows_ok.
    pose proof (Hcols r) as Hall. rewrite Forall_forall in Hall.
    by apply Hall.
Qed.
End FillRows.

(** ** The row phase as a fill of the grid *)

Lemma foldl_ext_in {A B : Type} (f g : A -> B -> A) (l : list B) : forall a,
  (forall a b, b ∈ l -> f a b = g a b) -> foldl f a l = foldl g a l.
Proof.
  induction l as [|b l IH]; intros a H; simpl; [done|].
  rewrite H by left. apply IH. intros a' b' Hb'. apply H. by right.
Qed.

Lemma elem_of_seq_lt (start len i : nat) :
  i ∈ seq start len <-> (start <= i < start + len)%nat.
Proof. apply elem_of_seq. Qed.

Lemma calculateRow_task_fill mb rowGenes colGenes row st :
  (row < length rowGenes)%nat ->
  calculateRow_task mb rowGenes colGenes row st
  = fill_row (score_of mb rowGenes colGenes) (seq 0 (length colGenes)) row st.
Proof.
  intros Hrow. unfold calculateRow_task, fill_row.
  destruct (lookup_lt_is_Some_2 _ _ Hrow) as [rowGene Hr]. rewrite Hr.
  apply foldl_ext_in. intros a col Hcol. apply elem_of_seq_lt in Hcol.
  destruct (lookup_lt_is_Some_2 colGenes col ltac:(lia)) as [colGene Hc].
  unfold score_of, row_cell. by rewrite Hr, Hc.
Qed.

Lemma calculateRow_fill mb rowGenes colGenes bestRows scores :
  calculateRow mb rowGenes colGenes bestRows scores
  = fill_rows (score_of mb rowGenes colGenes)
      (fun _ => seq 0 (length colGenes)) (seq 0 (length rowGenes))
      (bestRows, scores).
Proof.
  unfold calculateRow, fill_rows. apply foldl_ext_in.
  intros a row Hrow. apply elem_of_seq_lt in Hrow.
  apply calculateRow_task_fill. lia.
Qed.

Lemma calculateRowSame_task_fill mb genes row st :
  calculateRowSame_task mb genes row st
  = fill_row (score_of mb genes genes)
      (seq (row + 1) (length genes - (row + 1))) row st.
Proof.
  unfold calculateRowSame_task, fill_row.
  apply foldl_ext_in. intros a col Hcol. apply elem_of_seq_lt in Hcol.
  destruct (lookup_lt_is_Some_2 genes col ltac:(lia)) as [colGene Hc].
  destruct (lookup_lt_is_Some_2 genes row ltac:(lia)) as [rowGene Hr].
  unfold score_of, row_cell. by rewrite Hr, Hc.
Qed.

Lemma calculateRowSame_fill mb genes bestRows scores :
  calculateRowSame mb genes bestRows scores
  = fill_rows (score_of mb genes genes)
      (fun row => seq (row + 1) (length genes - (row + 1)))
      (seq 0 (length genes)) (bestRows, scores).
Proof.
  unfold calculateRowSame, fill_rows. apply foldl_ext_in.
  intros a row _. apply calculateRowSame_task_fill.
Qed.

(** ** Fresh containers *)

Lemma fresh_state_ok R C :
  state_ok R C (BBHCandidatesContainer.new R C, ScoresContainer.new R C).
Proof. split; simpl; by rewrite ?length_replicate. Qed.

Lemma getCandidateAt_new R C r :
  BBHCandidatesContainer.getCandidateAt (BBHCandidatesContainer.new R C) r
  = BBHCandidate.new.
Proof.
  unfold BBHCandidatesContainer.getCandidateAt. simpl.
  destruct (replicate R BBHCandidate.new !! r) eqn:E; [|done].
  by apply lookup_replicate in E as [-> _].
Qed.

Lemma getScoreAt_new R C r c :
  ScoresContainer.getScoreAt (ScoresContainer.new R C) r c = zero.
Proof.
  unfold ScoresContainer.getScoreAt. simpl.
  destruct (replicate (R * C) zero !! (r * C + c)%nat) eqn:E; [|done].
  by apply lookup_replicate in E as [-> _].
Qed.

Lemma seq_all_lt (n : nat) : Forall (fun i => (i < n)%nat) (seq 0 n).
Proof. apply Forall_forall. intros i Hi. apply elem_of_seq_lt in Hi. lia. Qed.

Lemma seq_upper_lt (r n : nat) :
  Forall (fun i => (i < n)%nat) (seq (r + 1) (n - (r + 1))).
Proof. apply Forall_forall. intros i Hi. apply elem_of_seq_lt in Hi. lia. Qed.

(** ** The state after the row phase *)

Section RowPhase.
Variable mb : Z.

Lemma calculateRow_state rowGenes colGenes :
  let R := length rowGenes in
  let C := length colGenes in
  let st := calculateRow mb rowGenes colGenes
              (BBHCandidatesContainer.new R C) (ScoresContainer.new R C) in
  state_ok R C st
  /\ (forall r, (r < R)%nat ->
        BBHCandidatesContainer.getCandidateAt st.1 r
        = offer_all (score_of mb rowGenes colGenes r) (seq 0 C)
            BBHCandidate.new)
  /\ (forall r c, (r < R)%nat -> (c < C)%nat ->
        ScoresContainer.getScoreAt st.2 r c = score_of mb rowGenes colGenes r c).
Proof.
  intros R C st. unfold st. rewrite calculateRow_fill. fold R C.
  pose proof (fresh_state_ok R C) as Hok.
  split; [by apply fill_rows_ok|]. split.
  - intros r Hr.
    rewrite (fill_rows_candidate_in R C); auto using NoDup_seq, seq_all_lt.
    + simpl. by rewrite getCandidateAt_new.
    + apply elem_of_seq_lt. lia.
  - intros r c Hr Hc.
    apply (fill_rows_score_in R C _ _ _ Hok (fun _ => seq_all_lt C));
      auto using NoDup_seq, seq_all_lt; apply elem_of_seq_lt; lia.
Qed.

Lemma calculateRowSame_state genes :
  let n := length genes in
  let st := calculateRowSame mb genes
              (BBHCandidatesContainer.new n n) (ScoresContainer.new n n) in
  state_ok n n st
  /\ (forall r, (r < n)%nat ->
        BBHCandidatesContainer.getCandidateAt st.1 r
        = offer_all (score_of mb genes genes r) (seq (r + 1) (n - (r + 1)))
            BBHCandidate.new)
  /\ (forall r c, (r < c < n)%nat ->
        ScoresContainer.getScoreAt st.2 r c = score_of mb genes genes r c)
  /\ (forall r c, (c < n)%nat -> (c <= r)%nat ->
        ScoresContainer.getScoreAt st.2 r c = zero).
Proof.
  intros n st. unfold st. rewrite calculateRowSame_fill. fold n.
  pose proof (fresh_state_ok n n) as Hok.
  split; [by apply fill_rows_ok|]. split; [|split].
  - intros r Hr.
    rewrite (fill_rows_candidate_in n n); auto using NoDup_seq, seq_all_lt.
    + simpl. by rewrite getCandidateAt_new.
    + apply elem_of_seq_lt. lia.
  - intros r c Hrc.
    apply (fill_rows_score_in n n _ _ _ Hok (fun r' => seq_upper_lt r' n));
      auto using NoDup_seq, seq_all_lt; apply elem_of_seq_lt; lia.
  - intros r c Hc Hcr.
    rewrite (fill_rows_score_out n n _ _ _ Hok (fun r' => seq_upper_lt r' n));
      [simpl; apply getScoreAt_new | done |].
    right. intros Hin. apply elem_of_seq_lt in Hin. lia.
Qed.
End RowPhase.

(** ** Scores are never negative *)

Lemma wrap_nonneg bits x : 0 <= bits -> 0 <= wrap bits x.
Proof.
  intros Hb. unfold wrap.
  apply Z.mod_pos_bound. by apply Z.pow_pos_nonneg.
Qed.

Lemma fdiv_nonneg n d : 0 <= n -> 0 <= d -> gtb zero (fdiv n d) = false.
Proof.
  intros Hn Hd. unfold fdiv.
  destruct (Z.eqb_spec d 0) as [->|Hd0]; [by destruct (n =? 0)|].
  unfold zero, of_int. apply gtb_fin_false.
  unfold Qle, inject_Z. simpl. rewrite Z.mul_1_r. lia.
Qed.

Lemma calculateSimilarityContainers_nonneg mb S L :
  gtb zero (calculateSimilarityContainers mb S L) = false.
Proof.
  unfold calculateSimilarityContainers. apply fdiv_nonneg.
  - pose proof (merge_loop_reduced mb (getBiggerKey L) (getKmerSet S)
                  (getKmerSet L) merge_init (merge_init_reduced mb))
      as (Hn & _).
    rewrite <- Hn. by apply wrap_nonneg.
  - unfold merge_divisor. by apply wrap_nonneg.
Qed.

Lemma calculateSimilarity_nonneg mb g1 g2 :
  gtb zero (calculateSimilarity mb g1 g2) = false.
Proof.
  unfold calculateSimilarity. destruct (length_filter g1 g2).
  - apply gtb_irrefl.
  - apply calculateSimilarityContainers_nonneg.
Qed.



(** ** The candidates of a row after the row phase *)



(** ** The scan of a column *)

Lemma scan_inv_init x : scan_inv x [] (minus_one, ∅).
Proof.
  split; simpl; [done| |].
  - intros r Hr. by apply elem_of_nil in Hr.
  - intros r. split; [intros Hr; by apply not_elem_of_empty in Hr|].
    intros [Hr _]. by apply elem_of_nil in Hr.
Qed.

Lemma scan_step_inv scores col rows acc row :
  scan_inv (fun r => ScoresContainer.getScoreAt scores r col) rows acc ->
  scan_inv (fun r => ScoresContainer.getScoreAt scores r col) (rows ++ [row])
    (scan_step scores col acc row).
Proof.
  intros [Hnum Hup Hset]. unfold scan_step. cbv beta in *.
  set (x := ScoresContainer.getScoreAt scores row col) in *.
  destruct (gtb x acc.1) eqn:Egt; [|destruct (eqb x acc.1) eqn:Eeq].
  - (* a new best *)
    assert (Hxnum : is_nan x = false) by eauto using gtb_not_nan_l.
    split; cbn [fst snd]; cbv beta.
    + done.
    + intros r [Hr| ->%list_elem_of_singleton]%elem_of_app.
      * eauto using gtb_false_raise.
      * apply gtb_irrefl.
    + intros r. rewrite elem_of_singleton, elem_of_app, list_elem_of_singleton.
      split.
      * intros ->. auto using eqb_refl.
      * intros ([Hr| ->] & Heq); [|done].
        apply Hup in Hr. rewrite (eqb_false_raise _ _ _ Hr Egt) in Heq. done.
  - (* a tie *)
    split; cbn [fst snd]; cbv beta.
    + done.
    + intros r [Hr| ->%list_elem_of_singleton]%elem_of_app; auto.
    + intros r. rewrite elem_of_union, elem_of_singleton, elem_of_app,
        list_elem_of_singleton, Hset.
      split; [intros [[? ?]| ->]; auto | intros [[?| ->] ?]; auto].
  - (* below the best, or not a number *)
    split; cbv beta.
    + done.
    + intros r [Hr| ->%list_elem_of_singleton]%elem_of_app; auto.
    + intros r. rewrite Hset, elem_of_app, list_elem_of_singleton.
      split; [intros [? ?]; auto|].
      intros [[?| ->] Heq]; [auto|]. unfold x in Eeq. rewrite Eeq in Heq. done.
Qed.

Lemma scan_column_inv scores col rows :
  scan_inv (fun r => ScoresContainer.getScoreAt scores r col) rows
    (scan_column scores col rows).
Proof.
  unfold scan_column.
  induction rows as [|row rows IH] using rev_ind; [apply scan_inv_init|].
  rewrite foldl_app. simpl. by apply scan_step_inv.
Qed.

(** ** The edges of a column task *)

Lemma elem_of_emit_column candidates col scan e :
  e ∈ emit_column candidates col scan <->
  exists r, r ∈ scan.2
    /\ eqb scan.1 (BBHCandidatesContainer.getBestScoreForCandidate candidates r)
       = true
    /\ e = mkEdge r col scan.1.
Proof.
  unfold emit_column. rewrite list_elem_of_omap. split.
  - intros (r & Hr & Hf). apply elem_of_elements in Hr. exists r.
    destruct (eqb _ _); [|done]. by injection Hf as <-.
  - intros (r & Hr & Heq & ->). exists r. rewrite Heq.
    split; [by apply elem_of_elements | done].
Qed.

Lemma elem_of_checkForBBH_edges rowCount candidates scores e :
  e ∈ checkForBBH_edges rowCount candidates scores <->
  exists set,
    BBHCandidatesContainer.getPossibleMatch candidates !! edge_col e = Some set
    /\ e ∈ emit_column candidates (edge_col e)
             (scan_column scores (edge_col e) (seq 0 rowCount)).
Proof.
  unfold checkForBBH_edges. rewrite list_elem_of_bind. split.
  - intros ([col set] & He & Hin). apply elem_of_map_to_list in Hin.
    simpl in He. pose proof He as He'.
    apply elem_of_emit_column in He' as (r & _ & _ & ->). simpl.
    by exists set.
  - intros (set & Hlook & He). exists (edge_col e, set).
    split; [done | by apply elem_of_map_to_list].
Qed.

Lemma elem_of_checkForBBHSame_edges candidates scores e :
  e ∈ checkForBBHSame_edges candidates scores <->
  exists set,
    BBHCandidatesContainer.getPossibleMatch candidates !! edge_col e = Some set
    /\ e ∈ emit_column candidates (edge_col e)
             (scan_column scores (edge_col e) (seq 0 (edge_col e))).
Proof.
  unfold checkForBBHSame_edges. rewrite list_elem_of_bind. split.
  - intros ([col set] & He & Hin). apply elem_of_map_to_list in Hin.
    simpl in He. pose proof He as He'.
    apply elem_of_emit_column in He' as (r & _ & _ & ->). simpl.
    by exists set.
  - intros (set & Hlook & He). exists (edge_col e, set).
    split; [done | by apply elem_of_map_to_list].
Qed.

(** What a column task guarantees for each edge it emits. *)
Lemma emit_column_sound candidates scores col rows e :
  e ∈ emit_column candidates col (scan_column scores col rows) ->
  edge_col e = col
  /\ edge_row e ∈ rows
  /\ is_nan (edge_score e) = false
  /\ eqb (edge_score e)
         (ScoresContainer.getScoreAt scores (edge_row e) (edge_col e)) = true
  /\ eqb (edge_score e)
         (BBHCandidatesContainer.getBestScoreForCandidate
            candidates (edge_row e)) = true
  /\ is_max_over (fun r => ScoresContainer.getScoreAt scores r (edge_col e))
       rows (edge_score e).
Proof.
  intros (r & Hr & Hbest & ->)%elem_of_emit_column. simpl.
  destruct (scan_column_inv scores col rows) as [Hnum Hup Hset].
  apply Hset in Hr as [Hr Heq].
  repeat split; auto using eqb_sym.
  exists r. by split.
Qed.

(** ** The match map *)

Lemma in_match_empty col r : ~ in_match ∅ col r.
Proof. intros (set & Hset & _). by rewrite lookup_empty in Hset. Qed.

Lemma in_match_addMatch i m key col r :
  in_match (BBHCandidatesContainer.addMatch i m key) col r
  <-> in_match m col r \/ (col = key /\ r = i).
Proof.
  unfold BBHCandidatesContainer.addMatch, in_match.
  destruct (m !! key) as [set0|] eqn:Ekey.
  - destruct (decide (col = key)) as [->|Hne].
    + rewrite lookup_insert_eq. split.
      * intros (set & [= <-] & Hr). apply elem_of_union in Hr as [Hr|Hr].
        -- left. by exists set0.
        -- right. apply elem_of_singleton in Hr. done.
      * intros [(set & Hset & Hr)|[_ ->]].
        -- exists (set0 ∪ {[i]}). split; [done|].
           rewrite Ekey in Hset. injection Hset as ->.
           apply elem_of_union. by left.
        -- exists (set0 ∪ {[i]}). split; [done|].
           apply elem_of_union. right. by apply elem_of_singleton.
    + rewrite lookup_insert_ne by done. split; [by left|].
      intros [?|[? _]]; done.
  - destruct (decide (col = key)) as [->|Hne].
    + rewrite lookup_insert_eq. split.
      * intros (set & [= <-] & Hr). right.
        apply elem_of_singleton in Hr. done.
      * intros [(set & Hset & Hr)|[_ ->]]; [by rewrite Ekey in Hset|].
        exists {[i]}. split; [done | by apply elem_of_singleton].
    + rewrite lookup_insert_ne by done. split; [by left|].
      intros [?|[? _]]; done.
Qed.

Lemma in_match_row i ks : forall m col r,
  in_match (foldl (BBHCandidatesContainer.addMatch i) m ks) col r
  <-> in_match m col r \/ (r = i /\ col ∈ ks).
Proof.
  induction ks as [|key ks IH]; intros m col r; simpl.
  - split; [by left|]. intros [?|[_ H]]; [done | by apply elem_of_nil in H].
  - rewrite IH, in_match_addMatch, elem_of_cons. tauto.
Qed.

Lemma in_match_rows (cols_of : nat -> list nat) rs : forall m col r,
  in_match (foldl (fun m i => foldl (BBHCandidatesContainer.addMatch i) m
                                (cols_of i)) m rs) col r
  <-> in_match m col r \/ (r ∈ rs /\ col ∈ cols_of r).
Proof.
  induction rs as [|i rs IH]; intros m col r; simpl.
  - split; [by left|]. intros [?|[H _]]; [done | by apply elem_of_nil in H].
  - rewrite IH, in_match_row, elem_of_cons. split.
    + intros [[H|[Hr Hc]]|[Hr Hc]];
        [by left | right; split; [by left | by subst]
        | right; split; [by right | done]].
    + intros [H|[[Hr|Hr] Hc]];
        [left; by left | left; right; by subst | by right].
Qed.

Lemma in_getPossibleMatch c col r :
  in_match (BBHCandidatesContainer.getPossibleMatch c) col r
  <-> (r < BBHCandidatesContainer.capacity_ c)%nat
      /\ col ∈ BBHCandidate.getCandidateList
                 (BBHCandidatesContainer.getCandidateAt c r).
Proof.
  unfold BBHCandidatesContainer.getPossibleMatch.
  rewrite (in_match_rows
             (fun i => BBHCandidate.getCandidateList
                         (BBHCandidatesContainer.getCandidateAt c i))).
  rewrite elem_of_seq_lt. split.
  - intros [H|[? ?]]; [by apply in_match_empty in H|]. split; [lia|done].
  - intros [? ?]. right. split; [lia|done].
Qed.

(** Every set the match map holds has a row in it. *)
Lemma addMatch_inhabited i m key :
  (forall col set, m !! col = Some set -> exists r, r ∈ set) ->
  forall col set, BBHCandidatesContainer.addMatch i m key !! col = Some set ->
                  exists r, r ∈ set.
Proof.
  intros Hm col set. unfold BBHCandidatesContainer.addMatch.
  destruct (m !! key) as [set0|] eqn:Ekey;
    (destruct (decide (col = key)) as [->|Hne];
     [rewrite lookup_insert_eq | rewrite lookup_insert_ne by done; apply Hm]).
  - intros [= <-]. exists i. apply elem_of_union. right.
    by apply elem_of_singleton.
  - intros [= <-]. exists i. by apply elem_of_singleton.
Qed.

Lemma getPossibleMatch_inhabited c col set :
  BBHCandidatesContainer.getPossibleMatch c !! col = Some set ->
  exists r, r ∈ set.
Proof.
  unfold BBHCandidatesContainer.getPossibleMatch.
  generalize (seq 0 (BBHCandidatesContainer.capacity_ c)). intros rs.
  assert (H0 : forall col set, (∅ : gmap nat (gset nat)) !! col = Some set ->
                               exists r, r ∈ set).
  { intros ? ? H. by rewrite lookup_empty in H. }
  revert H0 col set. generalize (∅ : gmap nat (gset nat)).
  induction rs as [|i rs IH]; intros m Hm; simpl; [exact Hm|].
  apply IH.
  generalize (BBHCandidate.getCandidateList
                (BBHCandidatesContainer.getCandidateAt c i)). intros ks.
  revert m Hm. induction ks as [|key ks IHk]; intros m Hm; simpl; [exact Hm|].
  apply IHk. by apply addMatch_inhabited.
Qed.

(** A column of the match map is on the candidate list of some row. *)
Lemma getPossibleMatch_listed c col set :
  BBHCandidatesContainer.getPossibleMatch c !! col = Some set ->
  exists r, (r < BBHCandidatesContainer.capacity_ c)%nat
            /\ col ∈ BBHCandidate.getCandidateList
                       (BBHCandidatesContainer.getCandidateAt c r).
Proof.
  intros Hset. destruct (getPossibleMatch_inhabited c col set Hset) as [r Hr].
  exists r. apply in_getPossibleMatch. by exists set.
Qed.

(** ** What the column phase emits *)

Lemma elem_of_checkForBBH colGenes rowGenes candidates scores l :
  l ∈ checkForBBH colGenes rowGenes candidates scores <->
  exists e, l = write_edge rowGenes colGenes e
            /\ e ∈ checkForBBH_edges (length rowGenes) candidates scores.
Proof. unfold checkForBBH. apply list_elem_of_fmap. Qed.

Lemma elem_of_checkForBBHSame genes candidates scores l :
  l ∈ checkForBBHSame genes candidates scores <->
  exists e, l = write_edge genes genes e
            /\ e ∈ checkForBBHSame_edges candidates scores.
Proof. unfold checkForBBHSame. apply list_elem_of_fmap. Qed.

(** ** No line carries the score 0 *)

(** After a row phase, a listed column holds a positive score in the
    listing row. *)
Lemma listed_column_positive x cols col :
  col ∈ BBHCandidate.getCandidateList (offer_all x cols BBHCandidate.new) ->
  col ∈ cols /\ gtb (x col) zero = true.
Proof.
  intros Hin. pose proof (offer_all_inv x cols) as Hinv.
  apply (inv_list _ _ _ Hinv) in Hin as (Hcol & Heq & Hpos).
  split; [done|]. eauto using eqb_gtb_compat.
Qed.

Lemma edge_score_positive candidates scores col rows e r0 :
  e ∈ emit_column candidates col (scan_column scores col rows) ->
  r0 ∈ rows ->
  gtb (ScoresContainer.getScoreAt scores r0 col) zero = true ->
  gtb (edge_score e) zero = true.
Proof.
  intros He Hr0 Hpos.
  apply emit_column_sound in He as (Hcol & _ & Hnum & _ & _ & _ & Hup).
  rewrite Hcol in Hup. specialize (Hup r0 Hr0). simpl in Hup.
  eauto using gtb_lower_bound.
Qed.

Lemma different_genomes_edge_positive mb colGenes rowGenes e :
  let R := length rowGenes in
  let C := length colGenes in
  let st := calculateRow mb rowGenes colGenes
              (BBHCandidatesContainer.new R C) (ScoresContainer.new R C) in
  e ∈ checkForBBH_edges R st.1 st.2 -> gtb (edge_score e) zero = true.
Proof.
  intros R C st (set & Hset & He)%elem_of_checkForBBH_edges.
  destruct (calculateRow_state mb rowGenes colGenes) as (Hok & Hcand & Hcell).
  fold R C st in Hok, Hcand, Hcell.
  apply getPossibleMatch_listed in Hset as (r0 & Hr0 & Hlisted).
  rewrite (ok_capacity _ _ _ Hok) in Hr0.
  rewrite (Hcand r0 Hr0) in Hlisted.
  apply listed_column_positive in Hlisted as [Hcol Hpos].
  apply elem_of_seq_lt in Hcol.
  apply (edge_score_positive _ _ _ _ _ r0 He).
  - apply elem_of_seq_lt. lia.
  - rewrite Hcell by lia. done.
Qed.

Lemma same_genome_edge_positive mb genes e :
  let n := length genes in
  let st := calculateRowSame mb genes
              (BBHCandidatesContainer.new n n) (ScoresContainer.new n n) in
  e ∈ checkForBBHSame_edges st.1 st.2 -> gtb (edge_score e) zero = true.
Proof.
  intros n st (set & Hset & He)%elem_of_checkForBBHSame_edges.
  destruct (calculateRowSame_state mb genes) as (Hok & Hcand & Hcell & _).
  fold n st in Hok, Hcand, Hcell.
  apply getPossibleMatch_listed in Hset as (r0 & Hr0 & Hlisted).
  rewrite (ok_capacity _ _ _ Hok) in Hr0.
  rewrite (Hcand r0 Hr0) in Hlisted.
  apply listed_column_positive in Hlisted as [Hcol Hpos].
  apply elem_of_seq_lt in Hcol.
  apply (edge_score_positive _ _ _ _ _ r0 He).
  - apply elem_of_seq_lt. lia.
  - rewrite Hcell by lia. done.
Qed.

(** ** An emitted edge is best on its row *)

Lemma is_max_over_eqb x idx b s :
  is_max_over x idx b -> eqb s b = true -> is_max_over x idx s.
Proof.
  intros [(i & Hi & Hatt) Hup] Heq. split.
  - exists i. split; [done|]. eauto using eqb_trans, eqb_sym.
  - intros j Hj. eauto using eqb_gtb_compat_r, eqb_sym.
Qed.

Lemma is_max_over_ext x y idx s :
  (forall i, i ∈ idx -> x i = y i) -> is_max_over x idx s ->
  is_max_over y idx s.
Proof.
  intros Hxy [(i & Hi & Hatt) Hup]. split.
  - exists i. split; [done|]. by rewrite <- Hxy.
  - intros j Hj. rewrite <- Hxy by done. by apply Hup.
Qed.

Lemma different_genomes_edge_row_maximum mb colGenes rowGenes e :
  let R := length rowGenes in
  let C := length colGenes in
  let st := calculateRow mb rowGenes colGenes
              (BBHCandidatesContainer.new R C) (ScoresContainer.new R C) in
  e ∈ checkForBBH_edges R st.1 st.2 ->
  is_max_over (ScoresContainer.getScoreAt st.2 (edge_row e)) (seq 0 C)
    (edge_score e).
Proof.
  intros R C st He.
  pose proof (different_genomes_edge_positive mb colGenes rowGenes e He)
    as Hpos.
  destruct (calculateRow_state mb rowGenes colGenes) as (Hok & Hcand & Hcell).
  fold R C st in Hok, Hcand, Hcell.
  apply elem_of_checkForBBH_edges in He as (set & _ & He).
  apply emit_column_sound in He as (_ & Hrow & _ & _ & Hbest & _).
  apply elem_of_seq_lt in Hrow.
  unfold BBHCandidatesContainer.getBestScoreForCandidate in Hbest.
  rewrite Hcand in Hbest by lia.
  eapply is_max_over_eqb; [|exact Hbest].
  apply (is_max_over_ext (score_of mb rowGenes colGenes (edge_row e))).
  - intros c Hc. apply elem_of_seq_lt in Hc. rewrite Hcell by lia. done.
  - apply candidate_inv_max; [apply offer_all_inv|].
    eauto using eqb_gtb_compat, eqb_sym.
Qed.

Lemma same_genome_edge_row_maximum mb genes e :
  let n := length genes in
  let st := calculateRowSame mb genes
              (BBHCandidatesContainer.new n n) (ScoresContainer.new n n) in
  e ∈ checkForBBHSame_edges st.1 st.2 ->
  is_max_over (ScoresContainer.getScoreAt st.2 (edge_row e))
    (seq (edge_row e + 1) (n - (edge_row e + 1))) (edge_score e).
Proof.
  intros n st He.
  pose proof (same_genome_edge_positive mb genes e He) as Hpos.
  destruct (calculateRowSame_state mb genes) as (Hok & Hcand & Hcell & _).
  fold n st in Hok, Hcand, Hcell.
  pose proof He as (set & Hset & He')%elem_of_checkForBBHSame_edges.
  apply getPossibleMatch_listed in Hset as (r0 & Hr0 & Hlisted).
  rewrite (ok_capacity _ _ _ Hok) in Hr0.
  rewrite (Hcand r0 Hr0) in Hlisted.
  apply listed_column_positive in Hlisted as [Hcol _].
  apply elem_of_seq_lt in Hcol.
  apply emit_column_sound in He' as (_ & Hrow & _ & _ & Hbest & _).
  apply elem_of_seq_lt in Hrow.
  unfold BBHCandidatesContainer.getBestScoreForCandidate in Hbest.
  rewrite Hcand in Hbest by lia.
  eapply is_max_over_eqb; [|exact Hbest].
  apply (is_max_over_ext (score_of mb genes genes (edge_row e))).
  - intros c Hc. apply elem_of_seq_lt in Hc. rewrite Hcell by lia. done.
  - apply candidate_inv_max; [apply offer_all_inv|].
    eauto using eqb_gtb_compat, eqb_sym.
Qed.

(** C2: every line the column phase writes is the line of an edge
    (r, c, s) such that s equals matrix[r, c], s equals the best score of
    the candidate of row r, and s is the maximum of column c over the
    scanned rows: all rows for two different genomes, the rows above the
    diagonal for a genome against itself.  This holds whatever the
    candidates and the matrix are, so in particular after the row phase of
    any genome pair; after the row phase s is moreover the maximum of row
    r over the compared columns, so the pair is best on its row and on its
    column. *)
Theorem emitted_edge_is_mutual_best :
  (forall (colGenes rowGenes : list Gene)
          (candidates : BBHCandidatesContainer.t)
          (scores : ScoresContainer.t) (l : line),
     l ∈ checkForBBH colGenes rowGenes candidates scores ->
     exists e,
       l = write_edge rowGenes colGenes e
       /\ (edge_row e < length rowGenes)%nat
       /\ eqb (line_score l)
              (ScoresContainer.getScoreAt scores (edge_row e) (edge_col e))
          = true
       /\ eqb (line_score l)
              (BBHCandidatesContainer.getBestScoreForCandidate
                 candidates (edge_row e)) = true
       /\ is_max_over (fun r => ScoresContainer.getScoreAt scores r (edge_col e))
            (seq 0 (length rowGenes)) (line_score l))
  /\
  (forall (genes : list Gene)
          (candidates : BBHCandidatesContainer.t)
          (scores : ScoresContainer.t) (l : line),
     l ∈ checkForBBHSame genes candidates scores ->
     exists e,
       l = write_edge genes genes e
       /\ (edge_row e < edge_col e)%nat
       /\ eqb (line_score l)
              (ScoresContainer.getScoreAt scores (edge_row e) (edge_col e))
          = true
       /\ eqb (line_score l)
              (BBHCandidatesContainer.getBestScoreForCandidate
                 candidates (edge_row e)) = true
       /\ is_max_over (fun r => ScoresContainer.getScoreAt scores r (edge_col e))
            (seq 0 (edge_col e)) (line_score l))
  /\
  (forall (mult_bits : Z) (colGenes rowGenes : list Gene) (e : edge),
     let R := length rowGenes in
     let C := length colGenes in
     let st := calculateRow mult_bits rowGenes colGenes
                 (BBHCandidatesContainer.new R C) (ScoresContainer.new R C) in
     e ∈ checkForBBH_edges R st.1 st.2 ->
     is_max_over (ScoresContainer.getScoreAt st.2 (edge_row e)) (seq 0 C)
       (edge_score e))
  /\
  (forall (mult_bits : Z) (genes : list Gene) (e : edge),
     let n := length genes in
     let st := calculateRowSame mult_bits genes
                 (BBHCandidatesContainer.new n n) (ScoresContainer.new n n) in
     e ∈ checkForBBHSame_edges st.1 st.2 ->
     is_max_over (ScoresContainer.getScoreAt st.2 (edge_row e))
       (seq (edge_row e + 1) (n - (edge_row e + 1))) (edge_score e)).
Proof.
  split; [|split; [|split]].
  - intros colGenes rowGenes candidates scores l
      (e & -> & (set & _ & He)%elem_of_checkForBBH_edges)%elem_of_checkForBBH.
    apply emit_column_sound in He as (_ & Hrow & _ & Hcell & Hbest & Hmax).
    exists e. simpl. apply elem_of_seq_lt in Hrow.
    repeat split; try done; [lia | apply Hmax | apply Hmax].
  - intros genes candidates scores l
      (e & -> & (set & _ & He)%elem_of_checkForBBHSame_edges)
        %elem_of_checkForBBHSame.
    apply emit_column_sound in He as (_ & Hrow & _ & Hcell & Hbest & Hmax).
    exists e. simpl. apply elem_of_seq_lt in Hrow.
    repeat split; try done; [lia | apply Hmax | apply Hmax].
  - intros. by apply different_genomes_edge_row_maximum.
  - intros. by apply same_genome_edge_row_maximum.
Qed.

(** The line of the sample pair: "ABCABC" finds its copy and only it. *)
Lemma emitted_edge_is_mutual_best_witness :
  let st := calculateRow 32 sample_rows sample_cols
              (BBHCandidatesContainer.new 1 2) (ScoresContainer.new 1 2) in
  exists e,
    mkLine 10 50 (SFin (4 # 4)) = write_edge sample_rows sample_cols e
    /\ (edge_row e < 1)%nat
    /\ eqb (SFin (4 # 4))
           (ScoresContainer.getScoreAt st.2 (edge_row e) (edge_col e)) = true
    /\ eqb (SFin (4 # 4))
           (BBHCandidatesContainer.getBestScoreForCandidate st.1 (edge_row e))
       = true
    /\ is_max_over (fun r => ScoresContainer.getScoreAt st.2 r (edge_col e))
         (seq 0 1) (SFin (4 # 4)).
Proof.
  intros st.
  apply (proj1 emitted_edge_is_mutual_best sample_cols sample_rows st.1 st.2
           (mkLine 10 50 (SFin (4 # 4)))).
  vm_compute. left.
Defined.

(** C3: for every genome pair, of two different genomes or of a genome
    with itself, every line written to the output stream carries a
    positive score; no line carries the score 0.  The best score of a
    column of the match map is never 0: the column is on the candidate
    list of a scanned row, where it holds a positive score. *)
Theorem no_line_with_score_zero (mult_bits : Z) :
  (forall (colGenes rowGenes : list Gene) (l : line),
     l ∈ calculateBidirectionalBestHitDifferentGenomes
           mult_bits colGenes rowGenes ->
     gtb (line_score l) zero = true /\ eqb (line_score l) zero = false)
  /\
  (forall (genes : list Gene) (l : line),
     l ∈ calculateBidirectionalBestHitSameGenome mult_bits genes ->
     gtb (line_score l) zero = true /\ eqb (line_score l) zero = false).
Proof.
  split.
  - intros colGenes rowGenes l (e & -> & He)%elem_of_checkForBBH.
    apply different_genomes_edge_positive in He. simpl.
    auto using gtb_zero_not_zero.
  - intros genes l (e & -> & He)%elem_of_checkForBBHSame.
    apply same_genome_edge_positive in He. simpl.
    auto using gtb_zero_not_zero.
Qed.

Lemma no_line_with_score_zero_witness :
  gtb (SFin (4 # 4)) zero = true /\ eqb (SFin (4 # 4)) zero = false.
Proof.
  apply (proj2 (no_line_with_score_zero 32) sample_genome
           (mkLine 10 50 (SFin (4 # 4)))).
  vm_compute. left.
Defined.

(** ** Each pair of a same-genome comparison is emitted once *)

Lemma NoDup_omap_inj {A B : Type} (f : A -> option B) (l : list A) :
  (forall x y z, f x = Some z -> f y = Some z -> x = y) ->
  NoDup l -> NoDup (omap f l).
Proof.
  intros Hinj. induction 1 as [|x l Hx Hl IH]; simpl; [constructor|].
  destruct (f x) as [z|] eqn:Efx; [|done].
  constructor; [|done].
  intros (y & Hy & Hfy)%list_elem_of_omap.
  rewrite (Hinj x y z Efx Hfy) in Hx. done.
Qed.

Lemma emit_column_NoDup candidates col scan :
  NoDup (emit_column candidates col scan).
Proof.
  unfold emit_column. apply NoDup_omap_inj; [|apply NoDup_elements].
  intros r1 r2 e H1 H2.
  destruct (eqb _ _) in H1; [|done]. destruct (eqb _ _) in H2; [|done].
  injection H1 as <-. by injection H2 as ->.
Qed.

Lemma checkForBBHSame_edges_NoDup candidates scores :
  NoDup (checkForBBHSame_edges candidates scores).
Proof.
  unfold checkForBBHSame_edges. apply NoDup_bind.
  - intros [c1 s1] [c2 s2] e Hin1 Hin2 He1 He2. simpl in *.
    apply elem_of_emit_column in He1 as (r1 & _ & _ & ->).
    apply elem_of_emit_column in He2 as (r2 & _ & _ & [= _ <- _]).
    by rewrite (map_to_list_unique _ _ _ _ Hin1 Hin2).
  - intros. apply emit_column_NoDup.
  - apply NoDup_map_to_list.
Qed.

Lemma checkForBBHSame_edges_above candidates scores e :
  e ∈ checkForBBHSame_edges candidates scores ->
  (edge_row e < edge_col e)%nat
  /\ edge_score e
     = (scan_column scores (edge_col e) (seq 0 (edge_col e))).1.
Proof.
  intros (set & _ & He)%elem_of_checkForBBHSame_edges.
  destruct e as [r c s]. simpl in *.
  pose proof He as (_ & Hrow & _)%emit_column_sound. simpl in Hrow.
  apply elem_of_emit_column in He as (r' & _ & _ & [= -> ->]).
  apply elem_of_seq_lt in Hrow. split; [lia | done].
Qed.

Lemma checkForBBHSame_edges_once candidates scores i j e1 e2 :
  checkForBBHSame_edges candidates scores !! i = Some e1 ->
  checkForBBHSame_edges candidates scores !! j = Some e2 ->
  same_pair e1 e2 -> i = j.
Proof.
  intros H1 H2 Hpair.
  pose proof (list_elem_of_lookup_2 _ _ _ H1) as Hin1.
  pose proof (list_elem_of_lookup_2 _ _ _ H2) as Hin2.
  apply checkForBBHSame_edges_above in Hin1 as [Hlt1 Hs1].
  apply checkForBBHSame_edges_above in Hin2 as [Hlt2 Hs2].
  destruct Hpair as [[Hr Hc]|[Hr Hc]]; [|lia].
  assert (e1 = e2) as ->.
  { destruct e1, e2; simpl in *. subst. done. }
  by apply (NoDup_lookup _ i j e2
              (checkForBBHSame_edges_NoDup candidates scores)).
Qed.

(** C6: in a same-genome comparison the lines written are those of the
    edges of the column phase; every such edge has its row index below
    its column index, so none joins a gene to itself; no two emitted
    edges join the same unordered pair of genes; and the row phase leaves
    the diagonal and everything below it at 0. *)
Theorem same_genome_pairs_emitted_once (mult_bits : Z) (genes : list Gene) :
  let n := length genes in
  let st := calculateRowSame mult_bits genes
              (BBHCandidatesContainer.new n n) (ScoresContainer.new n n) in
  let edges := checkForBBHSame_edges st.1 st.2 in
  calculateBidirectionalBestHitSameGenome mult_bits genes
  = write_edge genes genes <$> edges
  /\ (forall e, e ∈ edges ->
        (edge_row e < edge_col e)%nat /\ edge_row e <> edge_col e)
  /\ (forall i j e1 e2,
        edges !! i = Some e1 -> edges !! j = Some e2 ->
        same_pair e1 e2 -> i = j)
  /\ (forall r c, (c < n)%nat -> (c <= r)%nat ->
        ScoresContainer.getScoreAt st.2 r c = zero).
Proof.
  intros n st edges. split; [done|]. split; [|split].
  - intros e He. apply checkForBBHSame_edges_above in He as [Hlt _]. lia.
  - apply checkForBBHSame_edges_once.
  - apply (calculateRowSame_state mult_bits genes).
Qed.

(** The sample genome: one edge, from gene 0 to gene 2. *)
Lemma same_genome_pairs_emitted_once_witness :
  calculateBidirectionalBestHitSameGenome 32 sample_genome
  = [mkLine 10 50 (SFin (4 # 4))]
  /\ (0 < 2)%nat /\ 0%nat <> 2%nat.
Proof.
  destruct (same_genome_pairs_emitted_once 32 sample_genome)
    as (Hlines & Habove & _ & _).
  split; [rewrite Hlines; vm_compute; reflexivity|].
  apply (Habove (mkEdge 0 2 (SFin (4 # 4)))).
  vm_compute. left.
Defined.

(** ** The length filter *)

(** C9: when one sequence is shorter than half the other,
    [calculateSimilarity] returns 0, and it does so whatever the k-mer
    containers and k-mer counts of the two genes are: neither is looked
    at. *)
Theorem length_filter_returns_zero (mult_bits : Z) (gene1 gene2 : Gene) :
  getAlphabetLength gene1 < getAlphabetLength gene2 / 2
  \/ getAlphabetLength gene2 < getAlphabetLength gene1 / 2 ->
  calculateSimilarity mult_bits gene1 gene2 = of_int 0
  /\ forall (kmersNum1 kmersNum2 : Z) (container1 container2 : KmersContainer),
       calculateSimilarity mult_bits
         (mkGene (getAlphabetLength gene1) kmersNum1
                 (getGeneFilePosition gene1) container1)
         (mkGene (getAlphabetLength gene2) kmersNum2
                 (getGeneFilePosition gene2) container2)
       = of_int 0.
Proof.
  intros Hlen.
  assert (Hfilter : forall g1 g2,
             getAlphabetLength g1 = getAlphabetLength gene1 ->
             getAlphabetLength g2 = getAlphabetLength gene2 ->
             length_filter g1 g2 = true).
  { intros g1 g2 H1 H2. unfold length_filter. rewrite H1, H2.
    apply orb_true_iff. rewrite !Z.ltb_lt. exact Hlen. }
  split.
  - unfold calculateSimilarity. by rewrite Hfilter.
  - intros k1 k2 c1 c2. unfold calculateSimilarity. by rewrite Hfilter.
Qed.

(** Scenario S2: 49 < 100 / 2. *)
Lemma length_filter_returns_zero_witness :
  calculateSimilarity 32 gene_length_100 gene_length_49 = of_int 0.
Proof.
  apply (length_filter_returns_zero 32 gene_length_100 gene_length_49).
  right. vm_compute. reflexivity.
Defined.

(** ** Symmetry *)

Lemma length_filter_comm g1 g2 : length_filter g1 g2 = length_filter g2 g1.
Proof. unfold length_filter. apply orb_comm. Qed.

Lemma calculateSimilarityContainers_comm mb c1 c2 :
  container_ok c1 -> container_ok c2 -> totals_fit mb c1 c2 ->
  calculateSimilarityContainers mb c1 c2
  = calculateSimilarityContainers mb c2 c1.
Proof.
  intros H1 H2 Hfit.
  rewrite (similarity_containers_jaccard mb c1 c2 H1 H2 Hfit).
  rewrite (similarity_containers_jaccard mb c2 c1 H2 H1
             (totals_fit_comm _ _ _ Hfit)).
  by rewrite jaccard_num_comm, jaccard_den_comm.
Qed.

(** C10: for two genes with built k-mer containers,
    [calculateSimilarity] yields the same score in either order of its
    arguments; with equal k-mer counts the two calls hand the containers
    to the merge in opposite roles, and the merge yields the same score. *)
Theorem calculateSimilarity_symmetric (mult_bits : Z) (gene1 gene2 : Gene) :
  container_ok (getKmerContainer gene1) ->
  container_ok (getKmerContainer gene2) ->
  totals_fit mult_bits (getKmerContainer gene1) (getKmerContainer gene2) ->
  calculateSimilarity mult_bits gene1 gene2
  = calculateSimilarity mult_bits gene2 gene1.
Proof.
  intros H1 H2 Hfit. unfold calculateSimilarity.
  rewrite (length_filter_comm gene2 gene1).
  destruct (length_filter gene1 gene2); [done|].
  destruct (Z.ltb_spec (getKmersNum gene1) (getKmersNum gene2)),
           (Z.ltb_spec (getKmersNum gene2) (getKmersNum gene1));
    try done; try lia.
  symmetry. by apply calculateSimilarityContainers_comm.
Qed.

Lemma container_ABCAB_ok : container_ok container_ABCAB.
Proof.
  split; simpl.
  - unfold keys_ascending; simpl.
    repeat (constructor; [|repeat constructor; lia]). constructor.
  - repeat constructor; simpl; lia.
  - reflexivity.
  - intros k Hk. repeat (apply elem_of_cons in Hk as [->|Hk]; [lia|]).
    by apply elem_of_nil in Hk.
Qed.

(** Two genes with three distinct k-mers each: the tie-breaking branch. *)
Lemma calculateSimilarity_symmetric_witness :
  getKmersNum gene_ABCABC = getKmersNum gene_ABCAB
  /\ calculateSimilarity 32 gene_ABCABC gene_ABCAB
     = calculateSimilarity 32 gene_ABCAB gene_ABCABC.
Proof.
  split; [reflexivity|].
  apply (calculateSimilarity_symmetric 32 gene_ABCABC gene_ABCAB).
  - exact container_ABCABC_ok.
  - exact container_ABCAB_ok.
  - split; vm_compute; reflexivity.
Defined.

(** ** A divisor of 0 *)

(** With a divisor of 0 the quotient is never the score 0: it is not a
    number, or it is infinite. *)
Lemma zero_divisor_score mb S L :
  merge_divisor mb S L
    (merge_loop mb (getBiggerKey L) (getKmerSet S) (getKmerSet L) merge_init)
  = 0 ->
  eqb (calculateSimilarityContainers mb S L) zero = false
  /\ (calculateSimilarityContainers mb S L = SNaN
      \/ calculateSimilarityContainers mb S L = SInf).
Proof.
  intros Hdiv. unfold calculateSimilarityContainers, fdiv. rewrite Hdiv.
  simpl. destruct (_ =? 0); auto.
Qed.

(** C7 fails on the program: two genes shorter than k pass the length
    filter with empty k-mer containers; the merge leaves every accumulator
    at 0, the divisor is 0, and the quotient 0/0 that is returned is not a
    number, which compares unequal to 0; this is so whatever key bounds
    the empty containers hold. *)
Theorem similarity_of_empty_containers (mult_bits : Z) :
  length_filter gene_short_A gene_short_C = false
  /\ merge_divisor mult_bits container_empty container_empty
       (merge_loop mult_bits (getBiggerKey container_empty)
          (getKmerSet container_empty) (getKmerSet container_empty)
          merge_init) = 0
  /\ calculateSimilarity mult_bits gene_short_A gene_short_C = SNaN
  /\ eqb (calculateSimilarity mult_bits gene_short_A gene_short_C) zero
     = false
  /\ (forall smaller1 bigger1 smaller2 bigger2 : Z,
        calculateSimilarityContainers mult_bits
          (mkKmersContainer [] smaller1 bigger1 0)
          (mkKmersContainer [] smaller2 bigger2 0) = SNaN).
Proof.
  repeat split; reflexivity.
Qed.

(** ** KmersHandler::calculateKmers on a sequence shorter than k *)

Section ShortSequence.
Import KmersHandler.

Lemma kmersNum_short_by_one alphabet :
  Z.of_nat (String.length alphabet) + 1 < 2 ^ size_bits ->
  kmersNum alphabet (Z.of_nat (String.length alphabet) + 1) = 0.
Proof.
  intros HL. unfold kmersNum, wrap.
  replace (Z.of_nat (String.length alphabet)
           - (Z.of_nat (String.length alphabet) + 1)) with (-1) by lia.
  reflexivity.
Qed.

(** One character short of k: the loop is not entered. *)
Lemma calculateKmers_short_by_one alphabet :
  Z.of_nat (String.length alphabet) + 1 < 2 ^ size_bits ->
  calculateKmers (Z.of_nat (String.length alphabet) + 1) alphabet
  = Returned initial
  /\ totalMultiplicity initial = 0.
Proof.
  intros HL. unfold calculateKmers. rewrite kmersNum_short_by_one by done.
  split; [|reflexivity].
  by replace (String.length alphabet + 2)%nat
    with (S (String.length alphabet + 1)) by lia.
Qed.

(** More than one character short of k: the subtraction wraps around to a
    count of windows beyond every index of the sequence. *)
Lemma kmersNum_shorter alphabet k_ :
  Z.of_nat (String.length alphabet) + 1 < k_ -> k_ < 2 ^ 32 ->
  Z.of_nat (String.length alphabet) + 1 < kmersNum alphabet k_.
Proof.
  intros HL Hk. unfold kmersNum, wrap, size_bits.
  set (L := Z.of_nat (String.length alphabet)) in *.
  assert (0 <= L) by (unfold L; lia).
  assert (H32 : 2 ^ 32 = 4294967296) by reflexivity.
  assert (H64 : 2 ^ 64 = 18446744073709551616) by reflexivity.
  rewrite H64. rewrite H32 in Hk.
  replace (L - k_) with ((L - k_ + 18446744073709551616)
                         + (-1) * 18446744073709551616) by lia.
  rewrite Z_mod_plus_full.
  rewrite (Z.mod_small (L - k_ + 18446744073709551616)) by lia.
  rewrite Z.mod_small by lia. lia.
Qed.

Lemma record_window_keeps_first st ss i :
  is_Some (dictionary_ st !! 0) ->
  is_Some (dictionary_ (record_window st ss i) !! 0).
Proof.
  intros Hfirst. unfold record_window.
  destruct (currentKmers st !! ss); simpl; [done|].
  unfold insert_new. destruct (dictionary_ st !! i) eqn:Ei; [done|].
  destruct (decide (i = 0)) as [->|Hne].
  - rewrite lookup_insert_eq. by eexists.
  - by rewrite lookup_insert_ne.
Qed.

(** From any index up to the end of the sequence the loop goes on to the
    index past the end, where [substr] throws. *)
Lemma calculateKmers_loop_throws alphabet k_ n : forall fuel i st,
  Z.of_nat (String.length alphabet) + 1 < n ->
  n <= 2 ^ size_bits ->
  0 <= i <= Z.of_nat (String.length alphabet) + 1 ->
  (Z.to_nat (Z.of_nat (String.length alphabet) + 1 - i) < fuel)%nat ->
  is_Some (dictionary_ st !! 0) ->
  exists st', calculateKmers_loop fuel alphabet k_ n i st = ThrownOutOfRange st'
              /\ is_Some (dictionary_ st' !! 0).
Proof.
  induction fuel as [|fuel IH]; intros i st Hn Hn64 Hi Hfuel Hfirst; [lia|].
  simpl. destruct (Z.ltb_spec i n) as [_|?]; [|lia].
  unfold substr.
  destruct (Z.ltb_spec (Z.of_nat (String.length alphabet)) i) as [Hpast|Hin].
  - by exists st.
  - assert (Hnext : wrap size_bits (i + 1) = i + 1)
      by (apply wrap_small; lia).
    rewrite Hnext. apply IH; try lia.
    by apply record_window_keeps_first.
Qed.

Lemma calculateKmers_shorter_throws alphabet k_ :
  Z.of_nat (String.length alphabet) + 1 < k_ -> k_ < 2 ^ 32 ->
  exists st, calculateKmers k_ alphabet = ThrownOutOfRange st
             /\ is_Some (dictionary_ st !! 0).
Proof.
  intros HL Hk. pose proof (kmersNum_shorter alphabet k_ HL Hk) as Hn.
  assert (Hn64 : kmersNum alphabet k_ <= 2 ^ size_bits).
  { unfold kmersNum, wrap.
    pose proof (Z.mod_pos_bound
                  (wrap size_bits (Z.of_nat (String.length alphabet) - k_) + 1)
                  (2 ^ size_bits) ltac:(reflexivity)).
    unfold wrap in *. lia. }
  unfold calculateKmers.
  replace (String.length alphabet + 2)%nat
    with (S (String.length alphabet + 1)) by lia.
  simpl. destruct (Z.ltb_spec 0 (kmersNum alphabet k_)) as [_|?]; [|lia].
  unfold substr.
  destruct (Z.ltb_spec (Z.of_nat (String.length alphabet)) 0) as [?|_]; [lia|].
  change (wrap size_bits (0 + 1)) with 1.
  apply calculateKmers_loop_throws; try lia.
  unfold record_window, initial. simpl. rewrite lookup_empty. simpl.
  unfold insert_new. rewrite lookup_empty, lookup_insert_eq. by eexists.
Qed.

(** The model's fuel is enough for every call. *)
Lemma calculateKmers_loop_fuel alphabet k_ n : forall fuel i st,
  Z.of_nat (String.length alphabet) + 1 < 2 ^ size_bits -> 0 <= i ->
  (Z.to_nat (Z.of_nat (String.length alphabet) + 1 - i) < fuel)%nat ->
  forall st', calculateKmers_loop fuel alphabet k_ n i st <> OutOfFuel st'.
Proof.
  induction fuel as [|fuel IH]; intros i st Hn64 Hi Hfuel st'; [lia|].
  simpl. destruct (Z.ltb_spec i n) as [Hlt|?]; [|done].
  unfold substr.
  destruct (Z.ltb_spec (Z.of_nat (String.length alphabet)) i) as [Hpast|Hin];
    [done|].
  assert (Hnext : wrap size_bits (i + 1) = i + 1) by (apply wrap_small; lia).
  rewrite Hnext. apply IH; lia.
Qed.

(** C8 fails on the program: for the sequence "A" and k = 3 the number of
    windows is computed as 1 - 3 + 1 in [std::size_t], which is 2^64 - 1;
    the loop inserts the windows "A" and "" and then [substr] throws
    [std::out_of_range] at index 2.  The call does not return, and the
    dictionary it leaves holds two entries of total multiplicity 2. *)
Theorem calculateKmers_short_sequence_throws :
  kmersNum "A" 3 = 2 ^ 64 - 1
  /\ exists st,
       calculateKmers 3 "A" = ThrownOutOfRange st
       /\ map_to_list (currentKmers st) = [("A"%string, 0%nat); (""%string, 1%nat)]
       /\ size (dictionary_ st) = 2%nat
       /\ totalMultiplicity st = 2.
Proof.
  split; [reflexivity|].
  eexists. split; [vm_compute; reflexivity|].
  repeat split; vm_compute; reflexivity.
Qed.
End ShortSequence.

(** ** The k-mer mapper *)

Lemma mapper_ok_empty : mapper_ok ∅.
Proof. split; intros *; by rewrite lookup_empty. Qed.

Lemma intern_ok m w :
  mapper_ok m ->
  mapper_ok (KmerMapper.intern m w).1
  /\ m ⊆ (KmerMapper.intern m w).1
  /\ (KmerMapper.intern m w).1 !! w = Some (KmerMapper.intern m w).2.
Proof.
  intros [Hrange Hinj]. unfold KmerMapper.intern.
  destruct (m !! w) as [key|] eqn:Ew; simpl;
    [split; [by split | split; [reflexivity | done]]|].
  split; [split|split].
  - intros w' key'. rewrite map_size_insert_None by done.
    destruct (decide (w = w')) as [<-|Hne].
    + rewrite lookup_insert_eq. intros [= <-]. lia.
    + rewrite lookup_insert_ne by done. intros H. apply Hrange in H. lia.
  - intros w1 w2 key'.
    destruct (decide (w = w1)) as [<-|Hne1], (decide (w = w2)) as [<-|Hne2];
      rewrite ?lookup_insert_eq, ?lookup_insert_ne by done; try done.
    + intros [= <-] H. apply Hrange in H. lia.
    + intros H [= <-]. apply Hrange in H. lia.
    + apply Hinj.
  - by apply insert_subseteq.
  - apply lookup_insert_eq.
Qed.

(** ** Counting the windows of a sequence *)

Lemma occurrences_nil w : occurrences w [] = 0.
Proof. reflexivity. Qed.

Lemma occurrences_snoc_eq w W : occurrences w (W ++ [w]) = occurrences w W + 1.
Proof.
  unfold occurrences. rewrite filter_app, length_app.
  rewrite filter_cons, decide_True by done. simpl. lia.
Qed.

Lemma occurrences_snoc_ne w w0 W :
  w0 <> w -> occurrences w (W ++ [w0]) = occurrences w W.
Proof.
  intros Hne. unfold occurrences. rewrite filter_app, length_app.
  rewrite filter_cons, decide_False by done. simpl. lia.
Qed.

Lemma occurrences_absent w W : w ∉ W -> occurrences w W = 0.
Proof.
  intros Hw. unfold occurrences.
  destruct (filter (fun x => x = w) W) as [|x l] eqn:E; [done|].
  assert (Hx : x ∈ filter (fun x => x = w) W) by (rewrite E; left).
  apply list_elem_of_filter in Hx as [-> Hx]. done.
Qed.

Lemma occurrences_present w W : w ∈ W -> 1 <= occurrences w W.
Proof.
  intros Hw. unfold occurrences.
  assert (Hx : w ∈ filter (fun x => x = w) W)
    by (by apply list_elem_of_filter).
  destruct (filter (fun x => x = w) W); [by apply elem_of_nil in Hx|].
  simpl. lia.
Qed.

Lemma occurrences_nonneg w W : 0 <= occurrences w W.
Proof. unfold occurrences. lia. Qed.

Lemma counted_inv_init m0 : mapper_ok m0 -> counted_inv m0 [] (m0, ∅).
Proof.
  intros Hm. split; simpl.
  - done.
  - done.
  - intros w Hw. by apply elem_of_nil in Hw.
  - intros w key c. by rewrite lookup_empty.
  - by rewrite map_to_list_empty.
Qed.

Lemma counted_inv_step m0 W acc w0 :
  counted_inv m0 W acc -> counted_inv m0 (W ++ [w0]) (count_window acc w0).
Proof.
  intros [Hm Hext Hknown Hentry Htotal]. destruct acc as [m temp].
  simpl in *. unfold count_window. simpl.
  destruct (intern_ok m w0 Hm) as (Hm' & Hext' & Hkey0).
  set (m' := (KmerMapper.intern m w0).1) in *.
  set (key0 := (KmerMapper.intern m w0).2) in *.
  assert (Hlen : Z.of_nat (length (W ++ [w0])) = Z.of_nat (length W) + 1)
    by (rewrite length_app; simpl; lia).
  destruct (temp !! w0) as [[key c]|] eqn:Etemp; simpl.
  - (* the window has been counted before *)
    destruct (Hentry _ _ _ Etemp) as (Hin & Hmkey & ->).
    split; simpl.
    + done.
    + by etrans.
    + intros w [Hw| ->%list_elem_of_singleton]%elem_of_app.
      * destruct (decide (w0 = w)) as [<-|Hne];
          [rewrite lookup_insert_eq; by eexists
          |rewrite lookup_insert_ne by done; by apply Hknown].
      * rewrite lookup_insert_eq. by eexists.
    + intros w key' c'. destruct (decide (w0 = w)) as [<-|Hne].
      * rewrite lookup_insert_eq. intros [= <- <-].
        split; [apply elem_of_app; by left|]. split.
        -- by apply (lookup_weaken _ _ _ _ Hmkey).
        -- by rewrite occurrences_snoc_eq.
      * rewrite lookup_insert_ne by done. intros H.
        destruct (Hentry _ _ _ H) as (Hw & Hmw & ->).
        split; [apply elem_of_app; by left|]. split.
        -- by apply (lookup_weaken _ _ _ _ Hmw).
        -- by rewrite occurrences_snoc_ne.
    + rewrite <- insert_delete_eq.
      rewrite (sum_over_perm _ _ _ (map_to_list_insert _ _ _
                 (lookup_delete_eq temp w0))).
      rewrite <- (sum_over_perm _ _ _ (map_to_list_delete _ _ _ Etemp))
        in Htotal.
      rewrite sum_over_cons in *. simpl in *. lia.
  - (* a new window *)
    assert (Hfresh : w0 ∉ W).
    { intros Hin. destruct (Hknown _ Hin) as [? H]. by rewrite Etemp in H. }
    split; simpl.
    + done.
    + by etrans.
    + intros w [Hw| ->%list_elem_of_singleton]%elem_of_app.
      * destruct (decide (w0 = w)) as [<-|Hne]; [done|].
        rewrite lookup_insert_ne by done. by apply Hknown.
      * rewrite lookup_insert_eq. by eexists.
    + intros w key' c'. destruct (decide (w0 = w)) as [<-|Hne].
      * rewrite lookup_insert_eq. intros [= <- <-].
        split; [apply elem_of_app; right; by left|]. split; [done|].
        rewrite occurrences_snoc_eq, occurrences_absent by done. lia.
      * rewrite lookup_insert_ne by done. intros H.
        destruct (Hentry _ _ _ H) as (Hw & Hmw & ->).
        split; [apply elem_of_app; by left|]. split.
        -- by apply (lookup_weaken _ _ _ _ Hmw).
        -- by rewrite occurrences_snoc_ne.
    + rewrite (sum_over_perm _ _ _ (map_to_list_insert _ _ _ Etemp)).
      rewrite sum_over_cons. simpl. lia.
Qed.

Lemma counted_inv_fold m0 W :
  mapper_ok m0 -> counted_inv m0 W (foldl count_window (m0, ∅) W).
Proof.
  intros Hm. induction W as [|w W IH] using rev_ind;
    [by apply counted_inv_init|].
  rewrite foldl_app. simpl. by apply counted_inv_step.
Qed.

(** ** The container built for a gene *)

#[local] Instance key_le_trans : Transitive key_le.
Proof. intros p q r. unfold key_le. lia. Qed.

#[local] Instance key_le_total : Total key_le.
Proof. intros p q. unfold key_le. lia. Qed.

Lemma sorted_le_NoDup_lt (l : list Z) :
  StronglySorted Z.le l -> NoDup l -> StronglySorted Z.lt l.
Proof.
  induction l as [|x l IH]; intros Hs Hnd; [constructor|].
  apply StronglySorted_cons in Hs as [Hx Hs].
  apply NoDup_cons in Hnd as [Hfresh Hnd].
  apply StronglySorted_cons. split; [|by apply IH].
  rewrite Forall_forall in *. intros y Hy.
  specialize (Hx y Hy). assert (x <> y) by (by intros ->). lia.
Qed.

Lemma sorted_le_last_max (l : list Z) x :
  StronglySorted Z.le l -> x ∈ l -> x <= default 0 (last l).
Proof.
  induction l as [|y l IH] using rev_ind; intros Hs Hx;
    [by apply elem_of_nil in Hx|].
  rewrite last_snoc. simpl.
  apply StronglySorted_app in Hs as (Hle & _ & _).
  apply elem_of_app in Hx as [Hx| ->%list_elem_of_singleton]; [|lia].
  apply (Hle x y Hx). by left.
Qed.

Section BuiltContainer.
Variable k : Z.
Variable m : gmap string Z.
Variable g : GeneData.
Hypothesis Hm : mapper_ok m.

Let W := windows k (sequence g).
Let counted := foldl count_window (m, ∅) W.
Let entries := merge_sort key_le (snd <$> map_to_list counted.2).

Lemma built_entries_perm : entries ≡ₚ snd <$> map_to_list counted.2.
Proof. apply merge_sort_Permutation. Qed.

Lemma built_entries_elem key c :
  (key, c) ∈ entries <->
  exists w, w ∈ W /\ counted.1 !! w = Some key /\ c = occurrences w W.
Proof.
  pose proof (counted_inv_fold m W Hm) as [Hmap _ Hknown Hentry _].
  fold counted in Hmap, Hknown, Hentry.
  rewrite built_entries_perm, list_elem_of_fmap. split.
  - intros ([w [key' c']] & [= <- <-] & Hin%elem_of_map_to_list).
    exists w. by apply Hentry.
  - intros (w & Hw & Hkey & ->).
    destruct (Hknown w Hw) as [[key' c'] Hlook].
    destruct (Hentry _ _ _ Hlook) as (_ & Hkey' & ->).
    rewrite Hkey in Hkey'. injection Hkey' as <-.
    exists (w, (key, occurrences w W)). split; [done|].
    by apply elem_of_map_to_list.
Qed.

Lemma built_entries_NoDup : NoDup entries.*1.
Proof.
  pose proof (counted_inv_fold m W Hm) as [Hmap _ _ Hentry _].
  fold counted in Hmap, Hentry.
  rewrite built_entries_perm. rewrite <- list_fmap_compose.
  apply NoDup_fmap_2_strong; [|apply NoDup_map_to_list].
  intros [w1 [k1 c1]] [w2 [k2 c2]] H1%elem_of_map_to_list
    H2%elem_of_map_to_list Heq. simpl in *. subst k2.
  destruct (Hentry _ _ _ H1) as (_ & Hk1 & _).
  destruct (Hentry _ _ _ H2) as (_ & Hk2 & _).
  pose proof (mapper_inj _ Hmap _ _ _ Hk1 Hk2) as <-.
  rewrite H1 in H2. by injection H2 as <-.
Qed.

Lemma built_entries_sorted : keys_ascending entries.
Proof.
  unfold keys_ascending.
  apply sorted_le_NoDup_lt; [|apply built_entries_NoDup].
  apply (StronglySorted_fmap fst key_le Z.le); [by intros ? ?|].
  apply (StronglySorted_merge_sort key_le).
Qed.

Lemma built_entries_total : sum_over snd entries = Z.of_nat (length W).
Proof.
  pose proof (counted_inv_fold m W Hm) as [_ _ _ _ Htotal].
  fold counted in Htotal.
  by rewrite (sum_over_perm _ _ _ built_entries_perm), sum_over_fmap.
Qed.

Lemma built_entries_positive : Forall (fun p => 0 < p.2) entries.
Proof.
  apply Forall_forall. intros [key c] Hin.
  apply built_entries_elem in Hin as (w & Hw & _ & ->). simpl.
  pose proof (occurrences_present w W Hw). lia.
Qed.

Lemma built_windows_known w : w ∈ W -> is_Some (counted.1 !! w).
Proof.
  pose proof (counted_inv_fold m W Hm) as [_ _ Hknown Hentry _].
  fold counted in Hknown, Hentry. intros Hw.
  destruct (Hknown w Hw) as [[key c] Hlook].
  destruct (Hentry _ _ _ Hlook) as (_ & Hkey & _). by eexists.
Qed.

Lemma calculateGeneKmers_built :
  mapper_ok (calculateGeneKmers k m g).1
  /\ m ⊆ (calculateGeneKmers k m g).1
  /\ gene_built k (calculateGeneKmers k m g).1 g (calculateGeneKmers k m g).2.
Proof.
  pose proof (counted_inv_fold m W Hm) as [Hmap Hext _ _ _].
  fold counted in Hmap, Hext.
  unfold calculateGeneKmers. fold W counted entries. simpl.
  split; [done|]. split; [done|].
  split; simpl; [done | done |].
  split; simpl.
  - split; simpl.
    + apply built_entries_sorted.
    + apply built_entries_positive.
    + done.
    + intros key Hkey. apply sorted_le_last_max; [|done].
      apply (StronglySorted_fmap fst key_le Z.le); [by intros ? ?|].
      apply (StronglySorted_merge_sort key_le).
  - apply built_entries_total.
  - apply built_windows_known.
  - apply built_entries_elem.
Qed.
End BuiltContainer.

(** ** Built genes under a growing mapper *)

Lemma represents_mono m m' W c :
  mapper_ok m' -> m ⊆ m' -> represents m W c -> represents m' W c.
Proof.
  intros Hm' Hsub [Hok Htotal Hknown Hentries]. split; try done.
  - intros w Hw. destruct (Hknown w Hw) as [key Hkey].
    exists key. by apply (lookup_weaken _ _ _ _ Hkey).
  - intros key mult. rewrite Hentries. split.
    + intros (w & Hw & Hkey & ->). exists w.
      split; [done|]. split; [|done]. by apply (lookup_weaken _ _ _ _ Hkey).
    + intros (w & Hw & Hkey & ->). exists w. split; [done|].
      split; [|done]. destruct (Hknown w Hw) as [key0 Hkey0].
      pose proof (lookup_weaken _ _ _ _ Hkey0 Hsub) as Hkey0'.
      rewrite Hkey in Hkey0'. by injection Hkey0' as ->.
Qed.

Lemma gene_built_mono k m m' g G :
  mapper_ok m' -> m ⊆ m' -> gene_built k m g G -> gene_built k m' g G.
Proof.
  intros Hm' Hsub [H1 H2 H3]. split; eauto using represents_mono.
Qed.

Lemma genome_built_mono k m m' gs Gs :
  mapper_ok m' -> m ⊆ m' ->
  Forall2 (gene_built k m) gs Gs -> Forall2 (gene_built k m') gs Gs.
Proof.
  intros Hm' Hsub Hall. eapply Forall2_impl; [exact Hall|].
  eauto using gene_built_mono.
Qed.

Lemma createAndCalculateAllKmers_built k m gs :
  mapper_ok m ->
  mapper_ok (createAndCalculateAllKmers k m gs).1
  /\ m ⊆ (createAndCalculateAllKmers k m gs).1
  /\ Forall2 (gene_built k (createAndCalculateAllKmers k m gs).1) gs
       (createAndCalculateAllKmers k m gs).2.
Proof.
  intros Hm. unfold createAndCalculateAllKmers.
  induction gs as [|g gs IH] using rev_ind; simpl.
  { split; [done|]. split; [reflexivity | constructor]. }
  rewrite foldl_app. simpl.
  destruct IH as (Hm1 & Hsub1 & Hbuilt1).
  set (acc := foldl _ (m, []) gs) in *.
  destruct (calculateGeneKmers_built k acc.1 g Hm1) as (Hm2 & Hsub2 & Hbuilt2).
  split; [done|]. split; [by etrans|].
  apply Forall2_app; [by eapply genome_built_mono | by constructor].
Qed.

(** ** The similarity of two built genes, from their sequences *)

Lemma shared_den_num s l :
  shared_den s l + shared_num s l = matched_short s l + matched_long s l.
Proof.
  unfold shared_den, shared_num, matched_short, matched_long, shared_sum.
  rewrite <- !sum_over_plus. apply sum_over_ext. intros p _.
  destruct (has_key p.1 l); lia.
Qed.

Lemma jaccard_den_total c1 c2 :
  container_ok c1 -> container_ok c2 ->
  jaccard_den (getKmerSet c1) (getKmerSet c2)
  = getMultiplicityNumber c1 + getMultiplicityNumber c2
    - jaccard_num (getKmerSet c1) (getKmerSet c2).
Proof.
  intros H1 H2.
  destruct (ContainerOverload_facts c1 c2 H1 H2) as (Hs & Hl & Hs0 & Hl0).
  rewrite (jaccard_den_shared _ _ Hs Hl Hs0 Hl0).
  rewrite (jaccard_num_shared _ _ Hs Hl Hs0 Hl0).
  rewrite <- (matched_long_short _ _ Hs Hl).
  pose proof (shared_den_num (getKmerSet c1) (getKmerSet c2)).
  rewrite (ok_total _ H1), (ok_total _ H2). lia.
Qed.

Section BuiltPair.
Variable m : gmap string Z.
Variables W1 W2 : list string.
Variables c1 c2 : KmersContainer.
Hypothesis Hm : mapper_ok m.
Hypothesis H1 : represents m W1 c1.
Hypothesis H2 : represents m W2 c2.

Let key_of (w : string) : Z := default 0 (m !! w).

Lemma built_set_perm :
  getKmerSet c1 ≡ₚ (fun w => (key_of w, occurrences w W1)) <$> remove_dups W1.
Proof.
  destruct H1 as [Hok _ Hknown Hentries].
  apply NoDup_Permutation.
  - apply (NoDup_fmap_1 fst). apply keys_ascending_NoDup, (ok_sorted _ Hok).
  - apply NoDup_fmap_2_strong; [|apply NoDup_remove_dups].
    intros w w' Hw Hw' [= Hkey _].
    rewrite elem_of_remove_dups in Hw. rewrite elem_of_remove_dups in Hw'.
    destruct (Hknown w Hw) as [key Hk], (Hknown w' Hw') as [key' Hk'].
    unfold key_of in Hkey. rewrite Hk, Hk' in Hkey. simpl in Hkey. subst key'.
    by apply (mapper_inj _ Hm _ _ _ Hk Hk').
  - intros [key mult]. rewrite Hentries, list_elem_of_fmap. split.
    + intros (w & Hw & Hkey & ->). exists w.
      split; [|by apply elem_of_remove_dups].
      unfold key_of. by rewrite Hkey.
    + intros (w & [= -> ->] & Hw). rewrite elem_of_remove_dups in Hw.
      exists w.
      split; [done|]. split; [|done].
      destruct (Hknown w Hw) as [key Hk]. unfold key_of. by rewrite Hk.
Qed.

Lemma built_mult_of w :
  w ∈ W1 ->
  (if has_key (key_of w) (getKmerSet c2)
   then Z.min (occurrences w W1) (mult_of (key_of w) (getKmerSet c2))
   else 0)
  = Z.min (occurrences w W1) (occurrences w W2).
Proof.
  intros Hw. destruct H1 as [_ _ Hknown1 _].
  destruct H2 as [Hok2 _ Hknown2 Hentries2].
  destruct (Hknown1 w Hw) as [key Hk].
  assert (Hkey : key_of w = key) by (unfold key_of; by rewrite Hk).
  rewrite Hkey.
  pose proof (keys_ascending_NoDup _ (ok_sorted _ Hok2)) as Hnd.
  destruct (decide (w ∈ W2)) as [Hw2|Hw2].
  - assert (Hin : (key, occurrences w W2) ∈ getKmerSet c2).
    { apply Hentries2. by exists w. }
    assert (Hhas : has_key key (getKmerSet c2) = true).
    { apply has_key_true, list_elem_of_fmap.
      exists (key, occurrences w W2). by split. }
    by rewrite Hhas, (mult_of_present _ _ _ Hnd Hin).
  - assert (Hhas : has_key key (getKmerSet c2) = false).
    { apply has_key_false. intros ([key' mult] & Heq & Hin)%list_elem_of_fmap.
      simpl in Heq. subst key'.
      apply Hentries2 in Hin as (w' & Hw' & Hk' & _).
      by rewrite (mapper_inj _ Hm _ _ _ Hk Hk') in Hw2. }
    rewrite Hhas, (occurrences_absent w W2 Hw2).
    pose proof (occurrences_nonneg w W1). lia.
Qed.

Lemma shared_num_windows :
  shared_num (getKmerSet c1) (getKmerSet c2) = windows_num W1 W2.
Proof.
  unfold shared_num, shared_sum, windows_num.
  rewrite (sum_over_perm _ _ _ built_set_perm), sum_over_fmap.
  apply sum_over_ext. intros w Hw. rewrite elem_of_remove_dups in Hw.
  simpl. by apply built_mult_of.
Qed.

Lemma similarity_containers_windows mb :
  2 * Z.of_nat (length W1) < 2 ^ mb -> 2 * Z.of_nat (length W1) < 2 ^ size_bits ->
  2 * Z.of_nat (length W2) < 2 ^ mb -> 2 * Z.of_nat (length W2) < 2 ^ size_bits ->
  calculateSimilarityContainers mb c1 c2
  = fdiv (windows_num W1 W2)
         (Z.of_nat (length W1) + Z.of_nat (length W2) - windows_num W1 W2).
Proof.
  intros F1 F2 F3 F4.
  pose proof (rep_ok _ _ _ H1) as Hok1. pose proof (rep_ok _ _ _ H2) as Hok2.
  assert (Hfit : totals_fit mb c1 c2).
  { unfold totals_fit.
    rewrite (rep_total _ _ _ H1), (rep_total _ _ _ H2). lia. }
  rewrite (similarity_containers_jaccard mb c1 c2 Hok1 Hok2 Hfit).
  rewrite (jaccard_den_total c1 c2 Hok1 Hok2).
  destruct (ContainerOverload_facts c1 c2 Hok1 Hok2) as (Hs & Hl & Hs0 & Hl0).
  rewrite (jaccard_num_shared _ _ Hs Hl Hs0 Hl0), shared_num_windows.
  by rewrite (rep_total _ _ _ H1), (rep_total _ _ _ H2).
Qed.
End BuiltPair.

Lemma similarity_built mb k m g1 g2 G1 G2 :
  mapper_ok m -> gene_built k m g1 G1 -> gene_built k m g2 G2 ->
  gene_fits mb k g1 -> gene_fits mb k g2 ->
  calculateSimilarity mb G1 G2 = sequence_similarity k g1 g2.
Proof.
  intros Hm [HL1 _ Hc1] [HL2 _ Hc2] [F1 F2] [F3 F4].
  unfold calculateSimilarity, sequence_similarity, length_filter.
  rewrite HL1, HL2. destruct (_ || _); [done|].
  destruct (getKmersNum G1 <? getKmersNum G2).
  - by apply (similarity_containers_windows m).
  - rewrite calculateSimilarityContainers_comm.
    + by apply (similarity_containers_windows m).
    + apply (rep_ok _ _ _ Hc2).
    + apply (rep_ok _ _ _ Hc1).
    + unfold totals_fit.
      rewrite (rep_total _ _ _ Hc1), (rep_total _ _ _ Hc2). lia.
Qed.

(** ** The lines of a genome pair, from the sequences *)

Lemma fill_rows_ext x x' cols_of rs st :
  (forall r c, r ∈ rs -> c ∈ cols_of r -> x r c = x' r c) ->
  fill_rows x cols_of rs st = fill_rows x' cols_of rs st.
Proof.
  intros Hx. unfold fill_rows. apply foldl_ext_in. intros a r Hr.
  unfold fill_row. apply foldl_ext_in. intros a' c Hc.
  by rewrite (Hx r c Hr Hc).
Qed.

Section BuiltGenomes.
Variables mb k : Z.
Variable m : gmap string Z.
Hypothesis Hm : mapper_ok m.

Lemma score_of_built rs cs Rs Cs r c :
  Forall2 (gene_built k m) rs Rs -> Forall2 (gene_built k m) cs Cs ->
  Forall (gene_fits mb k) rs -> Forall (gene_fits mb k) cs ->
  score_of mb Rs Cs r c = sequence_score k rs cs r c.
Proof.
  intros HR HC FR FC. unfold score_of, sequence_score.
  destruct (Rs !! r) as [G1|] eqn:ER.
  - destruct (Forall2_lookup_r _ _ _ _ _ HR ER) as (g1 & Er & Hb1).
    rewrite Er.
    destruct (Cs !! c) as [G2|] eqn:EC.
    + destruct (Forall2_lookup_r _ _ _ _ _ HC EC) as (g2 & Ec & Hb2).
      rewrite Ec. apply (similarity_built mb k m); try done.
      * rewrite Forall_forall in FR. apply FR.
        by apply (list_elem_of_lookup_2 _ r).
      * rewrite Forall_forall in FC. apply FC.
        by apply (list_elem_of_lookup_2 _ c).
    + assert (cs !! c = None) as ->; [|done].
      apply lookup_ge_None. apply lookup_ge_None in EC.
      by rewrite (Forall2_length _ _ _ HC).
  - assert (rs !! r = None) as ->; [|done].
    apply lookup_ge_None. apply lookup_ge_None in ER.
    by rewrite (Forall2_length _ _ _ HR).
Qed.

Lemma write_edge_built rs cs Rs Cs e :
  Forall2 (gene_built k m) rs Rs -> Forall2 (gene_built k m) cs Cs ->
  write_edge Rs Cs e = line_of (filePosition <$> rs) (filePosition <$> cs) e.
Proof.
  intros HR HC. unfold write_edge, line_of, filePositionAt.
  assert (Hpos : forall gs Gs i, Forall2 (gene_built k m) gs Gs ->
             default 0 (getGeneFilePosition <$> Gs !! i)
             = default 0 ((filePosition <$> gs) !! i)).
  { intros gs Gs i Hall. rewrite list_lookup_fmap.
    destruct (Gs !! i) as [G|] eqn:EG.
    - destruct (Forall2_lookup_r _ _ _ _ _ Hall EG) as (g & -> & Hb).
      simpl. apply (built_position _ _ _ _ Hb).
    - assert (gs !! i = None) as ->; [|done].
      apply lookup_ge_None. apply lookup_ge_None in EG.
      by rewrite (Forall2_length _ _ _ Hall). }
  by rewrite (Hpos rs Rs), (Hpos cs Cs).
Qed.

Lemma different_genomes_reference rs cs Rs Cs :
  Forall2 (gene_built k m) rs Rs -> Forall2 (gene_built k m) cs Cs ->
  Forall (gene_fits mb k) rs -> Forall (gene_fits mb k) cs ->
  calculateBidirectionalBestHitDifferentGenomes mb Cs Rs
  = reference_different k cs rs.
Proof.
  intros HR HC FR FC.
  unfold calculateBidirectionalBestHitDifferentGenomes, reference_different,
    checkForBBH.
  rewrite calculateRow_fill.
  rewrite <- (Forall2_length _ _ _ HR), <- (Forall2_length _ _ _ HC).
  rewrite (fill_rows_ext _ (sequence_score k rs cs)).
  - apply list_fmap_ext. intros i e _. by apply write_edge_built.
  - intros r c _ _. by apply score_of_built.
Qed.

Lemma same_genome_reference gs Gs :
  Forall2 (gene_built k m) gs Gs -> Forall (gene_fits mb k) gs ->
  calculateBidirectionalBestHitSameGenome mb Gs = reference_same k gs.
Proof.
  intros HG FG.
  unfold calculateBidirectionalBestHitSameGenome, reference_same,
    checkForBBHSame.
  rewrite calculateRowSame_fill.
  rewrite <- (Forall2_length _ _ _ HG).
  rewrite (fill_rows_ext _ (sequence_score k gs gs)).
  - apply list_fmap_ext. intros i e _. by apply write_edge_built.
  - intros r c _ _. by apply score_of_built.
Qed.
End BuiltGenomes.

(** ** The two modes of the driver *)

Section Modes.
Variables mb k : Z.

Lemma lazy_columns_fold rowGenome Rs : forall rest m out,
  mapper_ok m -> Forall2 (gene_built k m) rowGenome Rs ->
  Forall (gene_fits mb k) rowGenome ->
  Forall (Forall (gene_fits mb k)) rest ->
  (foldl (fun acc colGenome =>
            let built := createAndCalculateAllKmers k acc.1 colGenome in
            (built.1,
             acc.2 ++ calculateBidirectionalBestHitDifferentGenomes
                        mb built.2 Rs))
         (m, out) rest).2
  = out ++ (rest ≫= fun colGenome => reference_different k colGenome rowGenome).
Proof.
  induction rest as [|colGenome rest IH]; intros m out Hm HR FR Frest; simpl.
  { by rewrite app_nil_r. }
  apply Forall_cons in Frest as [Fcol Frest].
  destruct (createAndCalculateAllKmers_built k m colGenome Hm)
    as (Hm' & Hsub & HC).
  pose proof (genome_built_mono k m _ _ _ Hm' Hsub HR) as HR'.
  rewrite (different_genomes_reference mb k _ Hm' rowGenome colGenome Rs _
             HR' HC FR Fcol).
  rewrite (IH _ _ Hm' HR' FR Frest). by rewrite app_assoc.
Qed.

Lemma reference_run_cons rowGenome rest :
  reference_run k (rowGenome :: rest)
  = reference_same k rowGenome
    ++ (rest ≫= fun colGenome => reference_different k colGenome rowGenome)
    ++ reference_run k rest.
Proof. reflexivity. Qed.

Lemma lazy_columns_reference rowGenome Rs rest m :
  mapper_ok m -> Forall2 (gene_built k m) rowGenome Rs ->
  Forall (gene_fits mb k) rowGenome ->
  Forall (Forall (gene_fits mb k)) rest ->
  lazy_columns mb k Rs m rest
  = (rest ≫= fun colGenome => reference_different k colGenome rowGenome).
Proof.
  intros Hm HR FR Frest. unfold lazy_columns.
  exact (lazy_columns_fold rowGenome Rs rest m [] Hm HR FR Frest).
Qed.

Lemma lazy_rows_cons rowGenome rest :
  lazy_rows mb k (rowGenome :: rest)
  = calculateBidirectionalBestHitSameGenome mb
      (createAndCalculateAllKmers k ∅ rowGenome).2
    ++ lazy_columns mb k (createAndCalculateAllKmers k ∅ rowGenome).2
         (createAndCalculateAllKmers k ∅ rowGenome).1 rest
    ++ lazy_rows mb k rest.
Proof. reflexivity. Qed.

Lemma lazy_rows_reference genomes :
  genomes_fit mb k genomes -> lazy_rows mb k genomes = reference_run k genomes.
Proof.
  unfold genomes_fit.
  induction genomes as [|rowGenome rest IH]; intros Hfit; [done|].
  apply Forall_cons in Hfit as [Frow Frest]. rewrite lazy_rows_cons.
  destruct (createAndCalculateAllKmers_built k ∅ rowGenome mapper_ok_empty)
    as (Hm & _ & HR).
  rewrite (same_genome_reference mb k _ Hm rowGenome _ HR Frow).
  rewrite (lazy_columns_reference rowGenome _ rest _ Hm HR Frow Frest).
  by rewrite reference_run_cons, IH.
Qed.

Lemma build_all_fold : forall genomes m0 done acc,
  mapper_ok m0 -> Forall2 (Forall2 (gene_built k m0)) done acc ->
  let r := foldl (fun acc genome =>
                    let built := createAndCalculateAllKmers k acc.1 genome in
                    (built.1, acc.2 ++ [built.2]))
                 (m0, acc) genomes in
  mapper_ok r.1 /\ Forall2 (Forall2 (gene_built k r.1)) (done ++ genomes) r.2.
Proof.
  induction genomes as [|genome genomes IH]; intros m0 done acc Hm Hdone; simpl.
  { by rewrite app_nil_r. }
  destruct (createAndCalculateAllKmers_built k m0 genome Hm)
    as (Hm' & Hsub & Hbuilt).
  replace (done ++ genome :: genomes) with ((done ++ [genome]) ++ genomes)
    by (by rewrite <- app_assoc).
  apply IH; [done|].
  apply Forall2_app; [|by repeat constructor].
  eapply Forall2_impl; [exact Hdone|].
  intros gs Gs. by apply genome_built_mono.
Qed.

Lemma eager_columns_reference m rowGenome Rs rest Rest :
  mapper_ok m -> Forall2 (gene_built k m) rowGenome Rs ->
  Forall2 (Forall2 (gene_built k m)) rest Rest ->
  Forall (gene_fits mb k) rowGenome ->
  Forall (Forall (gene_fits mb k)) rest ->
  (Rest ≫= fun colGenome =>
     calculateBidirectionalBestHitDifferentGenomes mb colGenome Rs)
  = (rest ≫= fun colGenome => reference_different k colGenome rowGenome).
Proof.
  intros Hm HR Hrest FR. induction Hrest as [|cs Cs rest Rest HC _ IH];
    intros Frest; [done|].
  apply Forall_cons in Frest as [Fcol Frest]. rewrite !bind_cons.
  rewrite (different_genomes_reference mb k _ Hm rowGenome cs Rs Cs
             HR HC FR Fcol).
  by rewrite IH.
Qed.

Lemma eager_rows_cons Rs Rest :
  eager_rows mb (Rs :: Rest)
  = calculateBidirectionalBestHitSameGenome mb Rs
    ++ (Rest ≫= fun colGenome =>
          calculateBidirectionalBestHitDifferentGenomes mb colGenome Rs)
    ++ eager_rows mb Rest.
Proof. reflexivity. Qed.

Lemma eager_rows_reference m genomes Built :
  mapper_ok m -> Forall2 (Forall2 (gene_built k m)) genomes Built ->
  genomes_fit mb k genomes ->
  eager_rows mb Built = reference_run k genomes.
Proof.
  unfold genomes_fit. intros Hm Hall.
  induction Hall as [|rowGenome Rs rest Rest HR Hrest IH]; intros Hfit;
    [done|].
  apply Forall_cons in Hfit as [Frow Frest].
  rewrite eager_rows_cons, reference_run_cons.
  rewrite (same_genome_reference mb k _ Hm rowGenome _ HR Frow).
  rewrite (eager_columns_reference m rowGenome Rs rest Rest Hm HR Hrest
             Frow Frest).
  by rewrite IH.
Qed.

Lemma both_modes_reference genomes mode :
  genomes_fit mb k genomes ->
  calculateBidirectionalBestHit mb k genomes mode = reference_run k genomes.
Proof.
  intros Hfit. unfold calculateBidirectionalBestHit. destruct mode.
  - by apply lazy_rows_reference.
  - unfold build_all.
    destruct (build_all_fold genomes ∅ [] [] mapper_ok_empty
                ltac:(constructor)) as [Hm Hbuilt].
    simpl in Hbuilt. by apply (eager_rows_reference _ _ _ Hm Hbuilt).
Qed.
End Modes.

(** C4: for every list of genomes and every k, running
    [calculateBidirectionalBestHit] in lazy mode (a fresh mapper for each
    row genome, the k-mers of a column genome rebuilt around each pair)
    and in eager mode (all k-mers built up front through one mapper)
    writes the same lines: the keys the two modes give to the k-mers
    differ, the scores do not.  With the tasks of a phase run in
    submission order the two outputs are the same list; a line is in one
    exactly when it is in the other, however the lines are ordered.  The
    k-mer counts of the genes are taken to fit the integer types of the
    merge. *)
Theorem lazy_and_eager_modes_agree (mult_bits k : Z)
  (genomes : list (list GeneData)) :
  genomes_fit mult_bits k genomes ->
  calculateBidirectionalBestHit mult_bits k genomes true
  = calculateBidirectionalBestHit mult_bits k genomes false
  /\ (forall l : line,
        l ∈ calculateBidirectionalBestHit mult_bits k genomes true
        <-> l ∈ calculateBidirectionalBestHit mult_bits k genomes false).
Proof.
  intros Hfit.
  assert (Heq : calculateBidirectionalBestHit mult_bits k genomes true
                = calculateBidirectionalBestHit mult_bits k genomes false)
    by (by rewrite !both_modes_reference).
  split; [done|]. intros l. by rewrite Heq.
Qed.

(** Two genomes, k = 3: both modes write the same four lines. *)
Lemma lazy_and_eager_modes_agree_witness :
  calculateBidirectionalBestHit 32 3 [sample_genome_1; sample_genome_2] true
  = calculateBidirectionalBestHit 32 3 [sample_genome_1; sample_genome_2] false
  /\ length (calculateBidirectionalBestHit 32 3
               [sample_genome_1; sample_genome_2] true) = 4%nat.
Proof.
  split; [|vm_compute; reflexivity].
  apply (lazy_and_eager_modes_agree 32 3 [sample_genome_1; sample_genome_2]).
  repeat constructor; vm_compute; reflexivity.
Defined.

(** ** Further facts about the models *)

(** [calculateKmers] ends by returning or by throwing: the fuel of the
    model is never used up. *)
Lemma calculateKmers_fuel_suffices k_ alphabet st :
  Z.of_nat (String.length alphabet) + 1 < 2 ^ size_bits ->
  KmersHandler.calculateKmers k_ alphabet <> KmersHandler.OutOfFuel st.
Proof.
  intros HL. unfold KmersHandler.calculateKmers.
  apply calculateKmers_loop_fuel; lia.
Qed.



(* ================================================================== *)
(** * Part III: further properties of the program                      *)
(* ================================================================== *)

(** ** The range of the similarity *)

Lemma shared_num_le_den s l : shared_num s l <= shared_den s l.
Proof.
  unfold shared_num, shared_den, shared_sum. apply sum_over_le.
  intros p _. destruct (has_key p.1 l); lia.
Qed.

Lemma shared_num_le_long s l : shared_num s l <= matched_long s l.
Proof.
  unfold shared_num, matched_long, shared_sum. apply sum_over_le.
  intros p _. destruct (has_key p.1 l); lia.
Qed.

Lemma positive_sum_zero (s : list (Z * Z)) :
  Forall (fun p => 0 < p.2) s -> sum_over snd s = 0 -> s = [].
Proof.
  destruct 1 as [|p s Hp Hs]; [done|]. rewrite sum_over_cons. intros Hsum.
  pose proof (sum_over_nonneg snd s) as Hnn.
  assert (0 <= sum_over snd s).
  { apply Hnn. intros q Hq. rewrite Forall_forall in Hs.
    specialize (Hs q Hq). lia. }
  lia.
Qed.

Lemma fdiv_unit_interval n d :
  0 <= n <= d -> 0 < d ->
  exists q, fdiv n d = SFin q /\ (0 <= q)%Q /\ (q <= 1)%Q.
Proof.
  intros Hn Hd. unfold fdiv.
  destruct (Z.eqb_spec d 0) as [?|_]; [lia|].
  exists (n # Z.to_pos d). split; [done|].
  unfold Qle. simpl. rewrite Z2Pos.id by done. lia.
Qed.

Section SimilarityRange.
Variable mb : Z.
Variables S L : KmersContainer.
Hypothesis HS : container_ok S.
Hypothesis HL : container_ok L.
Hypothesis Hfit : totals_fit mb S L.

Lemma similarity_parts :
  let sn := shared_num (getKmerSet S) (getKmerSet L) in
  calculateSimilarityContainers mb S L
  = fdiv sn (getMultiplicityNumber S + getMultiplicityNumber L - sn)
  /\ 0 <= sn <= getMultiplicityNumber S
  /\ sn <= getMultiplicityNumber L.
Proof.
  intros sn.
  destruct (ContainerOverload_facts S L HS HL) as (Hs & Hl & Hs0 & Hl0).
  split.
  - rewrite (similarity_containers_jaccard mb S L HS HL Hfit).
    rewrite (jaccard_den_total S L HS HL).
    by rewrite (jaccard_num_shared _ _ Hs Hl Hs0 Hl0).
  - pose proof (shared_num_le _ _ Hs0 Hl0) as B1.
    pose proof (matched_short_le (getKmerSet S) (getKmerSet L) Hs0) as B2.
    pose proof (shared_num_le_long (getKmerSet S) (getKmerSet L)) as B3.
    pose proof (matched_short_le (getKmerSet L) (getKmerSet S) Hl0) as B4.
    rewrite <- (matched_long_short _ _ Hs Hl) in B4.
    rewrite (ok_total _ HS), (ok_total _ HL). unfold sn. lia.
Qed.

(** X1: for two well-formed containers the container overload returns a
    number between 0 and 1, except when both containers are empty, where
    it returns the result of 0/0. *)
Theorem similarity_in_unit_interval :
  (getKmerSet S = [] /\ getKmerSet L = []
   /\ calculateSimilarityContainers mb S L = SNaN)
  \/ (exists q, calculateSimilarityContainers mb S L = SFin q
                /\ (0 <= q)%Q /\ (q <= 1)%Q).
Proof.
  destruct similarity_parts as (Hres & Hsn & Hsn').
  set (sn := shared_num (getKmerSet S) (getKmerSet L)) in *.
  destruct (decide (getMultiplicityNumber S + getMultiplicityNumber L - sn = 0))
    as [Hzero|Hpos].
  - left.
    assert (HS0 : getMultiplicityNumber S = 0) by lia.
    assert (HL0 : getMultiplicityNumber L = 0) by lia.
    assert (sn = 0) by lia.
    rewrite (ok_total _ HS) in HS0. rewrite (ok_total _ HL) in HL0.
    split; [by apply positive_sum_zero; [apply (ok_positive _ HS)|]|].
    split; [by apply positive_sum_zero; [apply (ok_positive _ HL)|]|].
    rewrite Hres, Hzero. by replace sn with 0.
  - right. rewrite Hres. apply fdiv_unit_interval; lia.
Qed.

(** X2: two well-formed containers that share no key, not both empty,
    have similarity 0. *)
Theorem similarity_of_disjoint_containers :
  (forall key, key ∈ (getKmerSet S).*1 -> key ∉ (getKmerSet L).*1) ->
  getKmerSet S <> [] \/ getKmerSet L <> [] ->
  calculateSimilarityContainers mb S L
  = fdiv 0 (getMultiplicityNumber S + getMultiplicityNumber L)
  /\ eqb (calculateSimilarityContainers mb S L) zero = true.
Proof.
  intros Hdisj Hne.
  destruct similarity_parts as (Hres & Hsn & Hsn').
  assert (H0 : shared_num (getKmerSet S) (getKmerSet L) = 0)
    by (by apply shared_sum_disjoint).
  rewrite H0 in Hres. rewrite Z.sub_0_r in Hres.
  split; [done|]. rewrite Hres.
  assert (Hpos : 0 < getMultiplicityNumber S + getMultiplicityNumber L).
  { destruct (ContainerOverload_facts S L HS HL) as (_ & _ & Hs0 & Hl0).
    pose proof (sum_over_nonneg snd (getKmerSet S)) as N1.
    pose proof (sum_over_nonneg snd (getKmerSet L)) as N2.
    rewrite Forall_forall in Hs0, Hl0.
    specialize (N1 Hs0). specialize (N2 Hl0).
    rewrite (ok_total _ HS), (ok_total _ HL).
    destruct (decide (sum_over snd (getKmerSet S)
                      + sum_over snd (getKmerSet L) = 0)) as [Hz|]; [|lia].
    exfalso. destruct Hne as [Hne|Hne]; apply Hne;
      apply positive_sum_zero;
      [apply (ok_positive _ HS) | lia | apply (ok_positive _ HL) | lia]. }
  unfold fdiv. destruct (Z.eqb_spec (getMultiplicityNumber S
                                     + getMultiplicityNumber L) 0); [lia|].
  unfold zero, of_int. apply eqb_fin. unfold Qeq. simpl. lia.
Qed.
End SimilarityRange.

Lemma container_BCXYZ_ok : container_ok container_BCXYZ.
Proof.
  split; simpl.
  - unfold keys_ascending; simpl.
    repeat (constructor; [|repeat constructor; lia]). constructor.
  - repeat constructor; simpl; lia.
  - reflexivity.
  - intros k Hk. repeat (apply elem_of_cons in Hk as [->|Hk]; [lia|]).
    by apply elem_of_nil in Hk.
Qed.

(** "ABCABC" against "ABCXYZ": the score 1/7 lies between 0 and 1. *)
Lemma similarity_in_unit_interval_witness :
  (getKmerSet container_ABCABC = [] /\ getKmerSet container_ABCXYZ = []
   /\ calculateSimilarityContainers 32 container_ABCABC container_ABCXYZ = SNaN)
  \/ (exists q,
        calculateSimilarityContainers 32 container_ABCABC container_ABCXYZ
        = SFin q /\ (0 <= q)%Q /\ (q <= 1)%Q).
Proof.
  apply similarity_in_unit_interval.
  - exact container_ABCABC_ok.
  - exact container_ABCXYZ_ok.
  - split; vm_compute; reflexivity.
Defined.

(** "ABCABC" against "BCXYZ": no common k-mer, score 0/7. *)
Lemma similarity_of_disjoint_containers_witness :
  calculateSimilarityContainers 32 container_ABCABC container_BCXYZ = fdiv 0 7
  /\ eqb (calculateSimilarityContainers 32 container_ABCABC container_BCXYZ)
         zero = true.
Proof.
  apply (similarity_of_disjoint_containers 32 container_ABCABC container_BCXYZ).
  - exact container_ABCABC_ok.
  - exact container_BCXYZ_ok.
  - split; vm_compute; reflexivity.
  - intros key Hkey Hkey'. simpl in Hkey, Hkey'.
    repeat (apply elem_of_cons in Hkey as [->|Hkey];
            [repeat (apply elem_of_cons in Hkey' as [Hkey'|Hkey']; [lia|]);
             by apply elem_of_nil in Hkey'|]).
    by apply elem_of_nil in Hkey.
  - left. discriminate.
Defined.

(** ** A gene against itself *)

Lemma shared_num_self s :
  NoDup s.*1 -> shared_num s s = sum_over snd s.
Proof.
  intros Hnd. unfold shared_num, shared_sum. apply sum_over_ext.
  intros [key mult] Hin. simpl.
  assert (Hhas : has_key key s = true).
  { apply has_key_true, list_elem_of_fmap. by exists (key, mult). }
  rewrite Hhas, (mult_of_present key mult s Hnd Hin). lia.
Qed.

Lemma length_filter_self g :
  0 <= getAlphabetLength g -> length_filter g g = false.
Proof.
  intros HL. unfold length_filter. rewrite orb_diag.
  apply Z.ltb_ge. apply Z.div_le_upper_bound; lia.
Qed.

(** X3: a gene with a well-formed, non-empty k-mer container has
    similarity 1 with itself: the merge matches every key, and numerator
    and divisor are both the total multiplicity. *)
Theorem similarity_of_gene_with_itself (mult_bits : Z) (gene : Gene) :
  0 <= getAlphabetLength gene ->
  container_ok (getKmerContainer gene) ->
  totals_fit mult_bits (getKmerContainer gene) (getKmerContainer gene) ->
  getKmerSet (getKmerContainer gene) <> [] ->
  calculateSimilarity mult_bits gene gene
  = fdiv (getMultiplicityNumber (getKmerContainer gene))
         (getMultiplicityNumber (getKmerContainer gene))
  /\ eqb (calculateSimilarity mult_bits gene gene) (of_int 1) = true.
Proof.
  intros HL Hok Hfit Hne.
  set (c := getKmerContainer gene) in *.
  assert (Hres : calculateSimilarity mult_bits gene gene
                 = fdiv (getMultiplicityNumber c) (getMultiplicityNumber c)).
  { unfold calculateSimilarity. rewrite (length_filter_self gene HL).
    rewrite Z.ltb_irrefl. fold c.
    destruct (similarity_parts mult_bits c c Hok Hok Hfit) as (-> & _ & _).
    rewrite (shared_num_self _ (keys_ascending_NoDup _ (ok_sorted _ Hok))).
    rewrite <- (ok_total _ Hok). f_equal. lia. }
  split; [done|]. rewrite Hres.
  assert (Hpos : 0 < getMultiplicityNumber c).
  { pose proof (sum_over_nonneg snd (getKmerSet c)) as Hnn.
    pose proof (positive_nonneg _ (ok_positive _ Hok)) as H0.
    rewrite Forall_forall in H0. specialize (Hnn H0).
    rewrite (ok_total _ Hok).
    destruct (decide (sum_over snd (getKmerSet c) = 0)) as [Hz|]; [|lia].
    exfalso. apply Hne. by apply positive_sum_zero;
      [apply (ok_positive _ Hok)|]. }
  unfold fdiv. destruct (Z.eqb_spec (getMultiplicityNumber c) 0); [lia|].
  unfold of_int. apply eqb_fin. unfold Qeq. simpl.
  rewrite Z2Pos.id by done. lia.
Qed.

Lemma similarity_of_gene_with_itself_witness :
  calculateSimilarity 32 gene_ABCABC gene_ABCABC = fdiv 4 4
  /\ eqb (calculateSimilarity 32 gene_ABCABC gene_ABCABC) (of_int 1) = true.
Proof.
  apply (similarity_of_gene_with_itself 32 gene_ABCABC).
  - simpl. lia.
  - exact container_ABCABC_ok.
  - split; vm_compute; reflexivity.
  - discriminate.
Defined.

(** ** Scores of arbitrary containers *)

(** X4: whatever the two containers hold, well formed or not, and
    whatever wraps around in the merge, [calculateSimilarity] never
    returns a negative number. *)
Theorem similarity_never_negative (mult_bits : Z) (gene1 gene2 : Gene) :
  gtb zero (calculateSimilarity mult_bits gene1 gene2) = false
  /\ forall q, calculateSimilarity mult_bits gene1 gene2 = SFin q ->
               (0 <= q)%Q.
Proof.
  pose proof (calculateSimilarity_nonneg mult_bits gene1 gene2) as Hnn.
  split; [done|]. intros q Hq. rewrite Hq in Hnn.
  unfold zero, of_int in Hnn. apply gtb_fin_false in Hnn.
  unfold inject_Z in Hnn. exact Hnn.
Qed.

(** ** The match map against the candidate lists *)

(** X5: [getPossibleMatch] inverts the candidate lists: the set it holds
    for a column is never empty and holds exactly the rows below the
    capacity that list the column, and a column has no entry exactly when
    no such row lists it. *)
Theorem getPossibleMatch_inverts_candidate_lists
  (c : BBHCandidatesContainer.t) (col : nat) :
  (forall set,
     BBHCandidatesContainer.getPossibleMatch c !! col = Some set ->
     (exists r, r ∈ set)
     /\ forall r, r ∈ set <->
          (r < BBHCandidatesContainer.getCapacity c)%nat
          /\ col ∈ BBHCandidate.getCandidateList
                     (BBHCandidatesContainer.getCandidateAt c r))
  /\ (BBHCandidatesContainer.getPossibleMatch c !! col = None <->
      forall r, (r < BBHCandidatesContainer.getCapacity c)%nat ->
        col ∉ BBHCandidate.getCandidateList
                (BBHCandidatesContainer.getCandidateAt c r)).
Proof.
  unfold BBHCandidatesContainer.getCapacity. split.
  - intros set Hset. split; [by eapply getPossibleMatch_inhabited|].
    intros r. rewrite <- in_getPossibleMatch. unfold in_match. split.
    + intros Hr. by exists set.
    + intros (set' & Hset' & Hr). rewrite Hset in Hset'.
      by injection Hset' as ->.
  - split.
    + intros Hnone r Hr Hin.
      assert (Hm : in_match (BBHCandidatesContainer.getPossibleMatch c) col r)
        by (by apply in_getPossibleMatch).
      destruct Hm as (set & Hset & _). by rewrite Hnone in Hset.
    + intros Hno.
      destruct (BBHCandidatesContainer.getPossibleMatch c !! col)
        as [set|] eqn:Hset; [exfalso|done].
      destruct (getPossibleMatch_inhabited c col set Hset) as [r Hr].
      assert (Hm : in_match (BBHCandidatesContainer.getPossibleMatch c) col r)
        by (by exists set).
      apply in_getPossibleMatch in Hm as [Hlt Hin]. by apply (Hno r).
Qed.

(** ** The matrix after the row phase *)

(** X7: after the row phase the matrix keeps its shape and holds, for two
    different genomes, the similarity of row gene and column gene in
    every cell, and for a genome against itself the similarity in the
    cells right of the diagonal and 0 elsewhere; the candidate list of a
    row only names columns the row was compared with. *)
Theorem row_phase_fills_compared_cells (mult_bits : Z) :
  (forall (rowGenes colGenes : list Gene),
     let R := length rowGenes in
     let C := length colGenes in
     let st := calculateRow mult_bits rowGenes colGenes
                 (BBHCandidatesContainer.new R C) (ScoresContainer.new R C) in
     BBHCandidatesContainer.getCapacity st.1 = R
     /\ ScoresContainer.rows_ st.2 = R /\ ScoresContainer.cols_ st.2 = C
     /\ (forall r c rowGene colGene,
           rowGenes !! r = Some rowGene -> colGenes !! c = Some colGene ->
           ScoresContainer.getScoreAt st.2 r c
           = calculateSimilarity mult_bits rowGene colGene)
     /\ (forall r c, (r < R)%nat ->
           c ∈ BBHCandidate.getCandidateList
                 (BBHCandidatesContainer.getCandidateAt st.1 r) ->
           (c < C)%nat))
  /\
  (forall (genes : list Gene),
     let n := length genes in
     let st := calculateRowSame mult_bits genes
                 (BBHCandidatesContainer.new n n) (ScoresContainer.new n n) in
     BBHCandidatesContainer.getCapacity st.1 = n
     /\ ScoresContainer.rows_ st.2 = n /\ ScoresContainer.cols_ st.2 = n
     /\ (forall r c gene1 gene2,
           genes !! r = Some gene1 -> genes !! c = Some gene2 ->
           ScoresContainer.getScoreAt st.2 r c
           = if decide (r < c)%nat
             then calculateSimilarity mult_bits gene1 gene2 else zero)
     /\ (forall r c, (r < n)%nat ->
           c ∈ BBHCandidate.getCandidateList
                 (BBHCandidatesContainer.getCandidateAt st.1 r) ->
           (r < c < n)%nat)).
Proof.
  split.
  - intros rowGenes colGenes R C st.
    destruct (calculateRow_state mult_bits rowGenes colGenes)
      as (Hok & Hcand & Hcell).
    fold R C st in Hok, Hcand, Hcell.
    destruct Hok as [_ Hcap Hrows Hcols _].
    split; [done|]. split; [done|]. split; [done|]. split.
    + intros r c rowGene colGene Hr Hc.
      rewrite Hcell by eauto using lookup_lt_Some.
      unfold score_of. by rewrite Hr, Hc.
    + intros r c Hr Hin. rewrite (Hcand r Hr) in Hin.
      apply listed_column_positive in Hin as [Hin _].
      apply elem_of_seq_lt in Hin. lia.
  - intros genes n st.
    destruct (calculateRowSame_state mult_bits genes)
      as (Hok & Hcand & Hcell & Hzero).
    fold n st in Hok, Hcand, Hcell, Hzero.
    destruct Hok as [_ Hcap Hrows Hcols _].
    split; [done|]. split; [done|]. split; [done|]. split.
    + intros r c gene1 gene2 Hr Hc.
      pose proof (lookup_lt_Some _ _ _ Hc) as Hcn. fold n in Hcn.
      destruct (decide (r < c)%nat) as [Hlt|Hge].
      * rewrite Hcell by lia. unfold score_of. by rewrite Hr, Hc.
      * apply Hzero; lia.
    + intros r c Hr Hin. rewrite (Hcand r Hr) in Hin.
      apply listed_column_positive in Hin as [Hin _].
      apply elem_of_seq_lt in Hin. lia.
Qed.

(** ** The lines of a genome pair *)

Lemma different_genomes_edge_in_range mb colGenes rowGenes e :
  let R := length rowGenes in
  let C := length colGenes in
  let st := calculateRow mb rowGenes colGenes
              (BBHCandidatesContainer.new R C) (ScoresContainer.new R C) in
  e ∈ checkForBBH_edges R st.1 st.2 ->
  (edge_row e < R)%nat /\ (edge_col e < C)%nat
  /\ eqb (edge_score e) (score_of mb rowGenes colGenes (edge_row e) (edge_col e))
     = true.
Proof.
  intros R C st (set & Hset & He)%elem_of_checkForBBH_edges.
  destruct (calculateRow_state mb rowGenes colGenes) as (Hok & Hcand & Hcell).
  fold R C st in Hok, Hcand, Hcell.
  apply getPossibleMatch_listed in Hset as (r0 & Hr0 & Hlisted).
  rewrite (ok_capacity _ _ _ Hok) in Hr0.
  rewrite (Hcand r0 Hr0) in Hlisted.
  apply listed_column_positive in Hlisted as [Hcol _].
  apply elem_of_seq_lt in Hcol.
  apply emit_column_sound in He as (_ & Hrow & _ & Heq & _ & _).
  apply elem_of_seq_lt in Hrow.
  rewrite Hcell in Heq by lia. split; [lia|]. split; [lia|done].
Qed.

Lemma same_genome_edge_in_range mb genes e :
  let n := length genes in
  let st := calculateRowSame mb genes
              (BBHCandidatesContainer.new n n) (ScoresContainer.new n n) in
  e ∈ checkForBBHSame_edges st.1 st.2 ->
  (edge_row e < edge_col e < n)%nat
  /\ eqb (edge_score e) (score_of mb genes genes (edge_row e) (edge_col e))
     = true.
Proof.
  intros n st (set & Hset & He)%elem_of_checkForBBHSame_edges.
  destruct (calculateRowSame_state mb genes) as (Hok & Hcand & Hcell & _).
  fold n st in Hok, Hcand, Hcell.
  apply getPossibleMatch_listed in Hset as (r0 & Hr0 & Hlisted).
  rewrite (ok_capacity _ _ _ Hok) in Hr0.
  rewrite (Hcand r0 Hr0) in Hlisted.
  apply listed_column_positive in Hlisted as [Hcol _].
  apply elem_of_seq_lt in Hcol.
  apply emit_column_sound in He as (_ & Hrow & _ & Heq & _ & _).
  apply elem_of_seq_lt in Hrow.
  rewrite Hcell in Heq by lia. split; [lia|done].
Qed.

Lemma filePositionAt_lookup genes i gene :
  genes !! i = Some gene -> filePositionAt genes i = getGeneFilePosition gene.
Proof. intros H. unfold filePositionAt. by rewrite H. Qed.

(** X8: every line written for two different genomes names a gene of the
    row genome and a gene of the column genome by their file positions,
    and carries a score equal to the similarity of these two genes, which
    is positive.  In particular the column phase never reads a gene
    outside either genome. *)
Theorem different_genomes_line_is_gene_pair
  (mult_bits : Z) (colGenes rowGenes : list Gene) (l : line) :
  l ∈ calculateBidirectionalBestHitDifferentGenomes
        mult_bits colGenes rowGenes ->
  exists r c rowGene colGene,
    rowGenes !! r = Some rowGene /\ colGenes !! c = Some colGene
    /\ line_row l = getGeneFilePosition rowGene
    /\ line_col l = getGeneFilePosition colGene
    /\ eqb (line_score l) (calculateSimilarity mult_bits rowGene colGene) = true
    /\ gtb (line_score l) zero = true.
Proof.
  intros (e & -> & He)%elem_of_checkForBBH.
  pose proof (different_genomes_edge_positive _ _ _ _ He) as Hpos.
  apply different_genomes_edge_in_range in He as (Hr & Hc & Heq).
  destruct (lookup_lt_is_Some_2 _ _ Hr) as [rowGene Hrow].
  destruct (lookup_lt_is_Some_2 _ _ Hc) as [colGene Hcol].
  exists (edge_row e), (edge_col e), rowGene, colGene.
  unfold score_of in Heq. rewrite Hrow, Hcol in Heq. simpl.
  by rewrite (filePositionAt_lookup _ _ _ Hrow),
    (filePositionAt_lookup _ _ _ Hcol).
Qed.

(** "ABCABC" against "ABCXYZ" and a copy of "ABCABC": the one line joins
    the gene at position 10 to its copy at position 50. *)
Lemma different_genomes_line_is_gene_pair_witness :
  exists r c rowGene colGene,
    sample_rows !! r = Some rowGene /\ sample_cols !! c = Some colGene
    /\ 10 = getGeneFilePosition rowGene
    /\ 50 = getGeneFilePosition colGene
    /\ eqb (SFin (4 # 4)) (calculateSimilarity 32 rowGene colGene) = true
    /\ gtb (SFin (4 # 4)) zero = true.
Proof.
  apply (different_genomes_line_is_gene_pair 32 sample_cols sample_rows
           (mkLine 10 50 (SFin (4 # 4)))).
  vm_compute. left.
Defined.

(** X9: every line written for a genome against itself names two genes
    of the genome, the row gene before the column gene, and carries a
    score equal to their similarity, which is positive. *)
Theorem same_genome_line_is_gene_pair
  (mult_bits : Z) (genes : list Gene) (l : line) :
  l ∈ calculateBidirectionalBestHitSameGenome mult_bits genes ->
  exists r c gene1 gene2,
    (r < c)%nat /\ genes !! r = Some gene1 /\ genes !! c = Some gene2
    /\ line_row l = getGeneFilePosition gene1
    /\ line_col l = getGeneFilePosition gene2
    /\ eqb (line_score l) (calculateSimilarity mult_bits gene1 gene2) = true
    /\ gtb (line_score l) zero = true.
Proof.
  intros (e & -> & He)%elem_of_checkForBBHSame.
  pose proof (same_genome_edge_positive _ _ _ He) as Hpos.
  apply same_genome_edge_in_range in He as (Hrc & Heq).
  destruct (lookup_lt_is_Some_2 genes (edge_row e) ltac:(lia)) as [gene1 Hrow].
  destruct (lookup_lt_is_Some_2 genes (edge_col e) ltac:(lia)) as [gene2 Hcol].
  exists (edge_row e), (edge_col e), gene1, gene2.
  unfold score_of in Heq. rewrite Hrow, Hcol in Heq. simpl.
  rewrite (filePositionAt_lookup _ _ _ Hrow),
    (filePositionAt_lookup _ _ _ Hcol).
  repeat split; try done. lia.
Qed.

Lemma same_genome_line_is_gene_pair_witness :
  exists r c gene1 gene2,
    (r < c)%nat /\ sample_genome !! r = Some gene1
    /\ sample_genome !! c = Some gene2
    /\ 10 = getGeneFilePosition gene1
    /\ 50 = getGeneFilePosition gene2
    /\ eqb (SFin (4 # 4)) (calculateSimilarity 32 gene1 gene2) = true
    /\ gtb (SFin (4 # 4)) zero = true.
Proof.
  apply (same_genome_line_is_gene_pair 32 sample_genome
           (mkLine 10 50 (SFin (4 # 4)))).
  vm_compute. left.
Defined.

(** X10: a genome pair with no gene on one side, and a genome of fewer
    than two genes against itself, write no line. *)
Theorem no_line_without_a_pair (mult_bits : Z) :
  (forall colGenes,
     calculateBidirectionalBestHitDifferentGenomes mult_bits colGenes [] = [])
  /\ (forall rowGenes,
        calculateBidirectionalBestHitDifferentGenomes mult_bits [] rowGenes
        = [])
  /\ (forall gene, calculateBidirectionalBestHitSameGenome mult_bits [gene] = [])
  /\ calculateBidirectionalBestHitSameGenome mult_bits [] = [].
Proof.
  split; [|split; [|split]].
  - intros colGenes. apply elem_of_nil_inv.
    intros l (e & -> & He)%elem_of_checkForBBH.
    apply different_genomes_edge_in_range in He as (Hr & _). simpl in Hr. lia.
  - intros rowGenes. apply elem_of_nil_inv.
    intros l (e & -> & He)%elem_of_checkForBBH.
    apply different_genomes_edge_in_range in He as (_ & Hc & _).
    simpl in Hc. lia.
  - intros gene. apply elem_of_nil_inv.
    intros l (e & -> & He)%elem_of_checkForBBHSame.
    apply same_genome_edge_in_range in He as (Hrc & _). simpl in Hrc. lia.
  - apply elem_of_nil_inv.
    intros l (e & -> & He)%elem_of_checkForBBHSame.
    apply same_genome_edge_in_range in He as (Hrc & _). simpl in Hrc. lia.
Qed.

(** ** No pair of indexes is emitted twice *)

Lemma checkForBBH_edges_NoDup rowCount candidates scores :
  NoDup (checkForBBH_edges rowCount candidates scores).
Proof.
  unfold checkForBBH_edges. apply NoDup_bind.
  - intros [c1 s1] [c2 s2] e Hin1 Hin2 He1 He2. simpl in *.
    apply elem_of_emit_column in He1 as (r1 & _ & _ & ->).
    apply elem_of_emit_column in He2 as (r2 & _ & _ & [= _ <- _]).
    by rewrite (map_to_list_unique _ _ _ _ Hin1 Hin2).
  - intros. apply emit_column_NoDup.
  - apply NoDup_map_to_list.
Qed.

(** X11: whatever the candidates and the matrix hold, the column phase
    of two different genomes emits no pair (row, column) twice: the
    columns of the match map are distinct and the rows of a column task
    come from a set. *)
Theorem different_genomes_pairs_emitted_once
  (rowCount : nat) (candidates : BBHCandidatesContainer.t)
  (scores : ScoresContainer.t) :
  NoDup ((fun e => (edge_row e, edge_col e))
         <$> checkForBBH_edges rowCount candidates scores).
Proof.
  apply NoDup_fmap_2_strong; [|apply checkForBBH_edges_NoDup].
  intros e1 e2 Hin1 Hin2 [= Hr Hc].
  apply elem_of_checkForBBH_edges in Hin1 as (_ & _ & He1).
  apply elem_of_checkForBBH_edges in Hin2 as (_ & _ & He2).
  apply elem_of_emit_column in He1 as (r1 & _ & _ & Heq1).
  apply elem_of_emit_column in He2 as (r2 & _ & _ & Heq2).
  rewrite Hc in Heq1. destruct e1, e2; simpl in *. congruence.
Qed.

(** ** A mutually best pair is emitted *)

Lemma score_antisym a b :
  gtb a b = false -> gtb b a = false ->
  is_nan a = false -> is_nan b = false -> eqb a b = true.
Proof. intros H1 H2 H3 H4. score_cases. Qed.

Lemma eqb_gtb_compat_l a b s :
  eqb a b = true -> gtb a s = false -> gtb b s = false.
Proof. intros H1 H2. score_cases. Qed.

Lemma gtb_minus_one_positive s :
  gtb s zero = true -> gtb minus_one s = false.
Proof.
  unfold zero, minus_one, of_int. intros H. destruct s; try done.
  apply gtb_fin in H. apply gtb_fin_false.
  apply Qlt_le_weak, (Qlt_trans _ (inject_Z 0)); [reflexivity | done].
Qed.

(** The best score of a scan is -1 or one of the cells it visited. *)
Lemma scan_best_origin scores col rows :
  (scan_column scores col rows).1 = minus_one
  \/ exists r, r ∈ rows
       /\ (scan_column scores col rows).1
          = ScoresContainer.getScoreAt scores r col.
Proof.
  unfold scan_column.
  induction rows as [|row rows IH] using rev_ind; [by left|].
  rewrite foldl_app. cbn [foldl].
  set (acc := foldl (scan_step scores col) (minus_one, ∅) rows) in *.
  unfold scan_step.
  destruct (gtb _ acc.1); [|destruct (eqb _ acc.1)]; cbn [fst].
  - right. exists row. split; [|done]. apply elem_of_app. right. by left.
  - destruct IH as [IH|(r & Hr & IH)]; [by left|right].
    exists r. split; [|done]. apply elem_of_app. by left.
  - destruct IH as [IH|(r & Hr & IH)]; [by left|right].
    exists r. split; [|done]. apply elem_of_app. by left.
Qed.

(** A row that holds the positive maximum [s] of its column, and whose
    own best score is [s], is emitted by the column task. *)
Lemma column_task_emits candidates scores col rows r s :
  r ∈ rows ->
  eqb (ScoresContainer.getScoreAt scores r col) s = true ->
  gtb s zero = true ->
  (forall r', r' ∈ rows ->
     gtb (ScoresContainer.getScoreAt scores r' col) s = false) ->
  eqb s (BBHCandidatesContainer.getBestScoreForCandidate candidates r) = true ->
  exists e, e ∈ emit_column candidates col (scan_column scores col rows)
            /\ edge_row e = r /\ edge_col e = col
            /\ eqb (edge_score e) s = true.
Proof.
  intros Hr Hcell Hpos Hmax Hbest.
  destruct (scan_column_inv scores col rows) as [Hnum Hup Hset].
  set (scan := scan_column scores col rows) in *.
  assert (Hbs : eqb scan.1 s = true).
  { apply score_antisym.
    - destruct (scan_best_origin scores col rows) as [Hm|(r' & Hr' & Heq)];
        fold scan in Hm || fold scan in Heq.
      + rewrite Hm. by apply gtb_minus_one_positive.
      + rewrite Heq. by apply Hmax.
    - apply (eqb_gtb_compat_l _ _ _ Hcell). by apply Hup.
    - done.
    - eauto using gtb_not_nan_l. }
  exists (mkEdge r col scan.1). split; [|done].
  apply elem_of_emit_column. exists r. split; [|split; [|done]].
  - apply Hset. split; [done|]. eauto using eqb_trans, eqb_sym.
  - eauto using eqb_trans.
Qed.

(** A column that holds the positive maximum [s] of the scores offered
    to a fresh candidate is on its list, and [s] is its best score. *)
Lemma offer_all_lists_maximum x cols c s :
  c ∈ cols -> eqb (x c) s = true -> gtb s zero = true ->
  (forall c', c' ∈ cols -> gtb (x c') s = false) ->
  c ∈ BBHCandidate.getCandidateList (offer_all x cols BBHCandidate.new)
  /\ eqb s (BBHCandidate.getBestScore (offer_all x cols BBHCandidate.new))
     = true.
Proof.
  intros Hc Hxc Hpos Hmax.
  pose proof (offer_all_inv x cols) as Hinv.
  set (cand := offer_all x cols BBHCandidate.new) in *.
  assert (Hxpos : gtb (x c) zero = true) by eauto using eqb_gtb_compat.
  pose proof (candidate_inv_positive _ _ _ _ Hinv Hc Hxpos) as Hbest.
  destruct (inv_attained _ _ _ Hinv Hbest) as (c1 & Hc1 & Heq1).
  assert (Hsb : eqb s (BBHCandidate.getBestScore cand) = true).
  { apply score_antisym.
    - apply (eqb_gtb_compat_l _ _ _ Hxc). by apply (inv_upper _ _ _ Hinv).
    - apply (eqb_gtb_compat_l _ _ _ Heq1). by apply Hmax.
    - eauto using gtb_not_nan_l.
    - apply (inv_number _ _ _ Hinv). }
  split; [|done].
  apply (inv_list _ _ _ Hinv). split; [done|]. split; [|done].
  eauto using eqb_trans.
Qed.

(** X12: for two different genomes, a pair of genes whose similarity is
    positive, not exceeded by any gene of the column genome against the
    row gene, and not exceeded by any gene of the row genome against the
    column gene, is written: some line names the two genes and carries a
    score equal to their similarity.  (The candidate of a row is
    modelled from its description: largest score first seen, ties
    appended.) *)
Theorem different_genomes_mutual_best_is_written
  (mult_bits : Z) (colGenes rowGenes : list Gene) (r c : nat)
  (rowGene colGene : Gene) :
  rowGenes !! r = Some rowGene -> colGenes !! c = Some colGene ->
  gtb (calculateSimilarity mult_bits rowGene colGene) zero = true ->
  (forall c' gene, colGenes !! c' = Some gene ->
     gtb (calculateSimilarity mult_bits rowGene gene)
         (calculateSimilarity mult_bits rowGene colGene) = false) ->
  (forall r' gene, rowGenes !! r' = Some gene ->
     gtb (calculateSimilarity mult_bits gene colGene)
         (calculateSimilarity mult_bits rowGene colGene) = false) ->
  exists l,
    l ∈ calculateBidirectionalBestHitDifferentGenomes
          mult_bits colGenes rowGenes
    /\ line_row l = getGeneFilePosition rowGene
    /\ line_col l = getGeneFilePosition colGene
    /\ eqb (line_score l) (calculateSimilarity mult_bits rowGene colGene)
       = true.
Proof.
  intros Hrow Hcol Hpos Hrmax Hcmax.
  set (s := calculateSimilarity mult_bits rowGene colGene) in *.
  set (R := length rowGenes). set (C := length colGenes).
  set (st := calculateRow mult_bits rowGenes colGenes
               (BBHCandidatesContainer.new R C) (ScoresContainer.new R C)).
  destruct (calculateRow_state mult_bits rowGenes colGenes)
    as (Hok & Hcand & Hcell).
  fold R C st in Hok, Hcand, Hcell.
  pose proof (lookup_lt_Some _ _ _ Hrow) as Hr. fold R in Hr.
  pose proof (lookup_lt_Some _ _ _ Hcol) as Hc. fold C in Hc.
  set (x := score_of mult_bits rowGenes colGenes).
  assert (Hx : x r c = s) by (unfold x, score_of; by rewrite Hrow, Hcol).
  assert (Hsnum : is_nan s = false) by eauto using gtb_not_nan_l.
  destruct (offer_all_lists_maximum (x r) (seq 0 C) c s) as [Hlisted Hbest].
  { apply elem_of_seq_lt. lia. }
  { rewrite Hx. by apply eqb_refl. }
  { done. }
  { intros c' Hc'. apply elem_of_seq_lt in Hc'.
    destruct (lookup_lt_is_Some_2 colGenes c' ltac:(lia)) as [gene Hgene].
    unfold x, score_of. rewrite Hrow, Hgene. by eapply Hrmax. }
  unfold x in Hlisted, Hbest. rewrite <- (Hcand r Hr) in Hlisted, Hbest.
  assert (Hm : in_match (BBHCandidatesContainer.getPossibleMatch st.1) c r).
  { apply in_getPossibleMatch. by rewrite (ok_capacity _ _ _ Hok). }
  destruct Hm as (set & Hset & _).
  destruct (column_task_emits st.1 st.2 c (seq 0 R) r s)
    as (e & He & Her & Hec & Hes).
  { apply elem_of_seq_lt. lia. }
  { rewrite Hcell by done. fold x. rewrite Hx. by apply eqb_refl. }
  { done. }
  { intros r' Hr'. apply elem_of_seq_lt in Hr'.
    destruct (lookup_lt_is_Some_2 rowGenes r' ltac:(lia)) as [gene Hgene].
    rewrite Hcell by lia. unfold score_of. rewrite Hgene, Hcol.
    by eapply Hcmax. }
  { done. }
  exists (write_edge rowGenes colGenes e). split; [|split; [|split]].
  - apply elem_of_checkForBBH. exists e. split; [done|].
    apply elem_of_checkForBBH_edges. exists set. rewrite Hec. by split.
  - simpl. rewrite Her. by apply filePositionAt_lookup.
  - simpl. rewrite Hec. by apply filePositionAt_lookup.
  - done.
Qed.

Lemma different_genomes_mutual_best_is_written_witness :
  exists l,
    l ∈ calculateBidirectionalBestHitDifferentGenomes
          32 sample_cols sample_rows
    /\ line_row l = 10 /\ line_col l = 50
    /\ eqb (line_score l) (calculateSimilarity 32 gene_ABCABC gene_ABCABC_bis)
       = true.
Proof.
  apply (different_genomes_mutual_best_is_written 32 sample_cols sample_rows
           0 1 gene_ABCABC gene_ABCABC_bis).
  - reflexivity.
  - reflexivity.
  - vm_compute. reflexivity.
  - intros [|[|c']] gene Hgene; simpl in Hgene; [| |done];
      injection Hgene as <-; vm_compute; reflexivity.
  - intros [|r'] gene Hgene; simpl in Hgene; [|done].
    injection Hgene as <-. vm_compute. reflexivity.
Defined.

(** X13: for a genome against itself, two genes at indexes r < c whose
    similarity is positive, not exceeded by any later gene against the
    gene at r, and not exceeded by any gene before c against the gene at
    c, are written: some line names the two genes and carries a score
    equal to their similarity.  (Same model of the candidate of a row as
    in X12.) *)
Theorem same_genome_mutual_best_is_written
  (mult_bits : Z) (genes : list Gene) (r c : nat) (gene1 gene2 : Gene) :
  (r < c)%nat ->
  genes !! r = Some gene1 -> genes !! c = Some gene2 ->
  gtb (calculateSimilarity mult_bits gene1 gene2) zero = true ->
  (forall c' gene, (r < c')%nat -> genes !! c' = Some gene ->
     gtb (calculateSimilarity mult_bits gene1 gene)
         (calculateSimilarity mult_bits gene1 gene2) = false) ->
  (forall r' gene, (r' < c)%nat -> genes !! r' = Some gene ->
     gtb (calculateSimilarity mult_bits gene gene2)
         (calculateSimilarity mult_bits gene1 gene2) = false) ->
  exists l,
    l ∈ calculateBidirectionalBestHitSameGenome mult_bits genes
    /\ line_row l = getGeneFilePosition gene1
    /\ line_col l = getGeneFilePosition gene2
    /\ eqb (line_score l) (calculateSimilarity mult_bits gene1 gene2) = true.
Proof.
  intros Hrc Hrow Hcol Hpos Hrmax Hcmax.
  set (s := calculateSimilarity mult_bits gene1 gene2) in *.
  set (n := length genes).
  set (st := calculateRowSame mult_bits genes
               (BBHCandidatesContainer.new n n) (ScoresContainer.new n n)).
  destruct (calculateRowSame_state mult_bits genes)
    as (Hok & Hcand & Hcell & _).
  fold n st in Hok, Hcand, Hcell.
  pose proof (lookup_lt_Some _ _ _ Hcol) as Hc. fold n in Hc.
  set (x := score_of mult_bits genes genes).
  assert (Hx : x r c = s) by (unfold x, score_of; by rewrite Hrow, Hcol).
  assert (Hsnum : is_nan s = false) by eauto using gtb_not_nan_l.
  destruct (offer_all_lists_maximum (x r) (seq (r + 1) (n - (r + 1))) c s)
    as [Hlisted Hbest].
  { apply elem_of_seq_lt. lia. }
  { rewrite Hx. by apply eqb_refl. }
  { done. }
  { intros c' Hc'. apply elem_of_seq_lt in Hc'.
    destruct (lookup_lt_is_Some_2 genes c' ltac:(lia)) as [gene Hgene].
    unfold x, score_of. rewrite Hrow, Hgene. eapply Hrmax; [|done]. lia. }
  unfold x in Hlisted, Hbest.
  rewrite <- (Hcand r ltac:(lia)) in Hlisted, Hbest.
  assert (Hm : in_match (BBHCandidatesContainer.getPossibleMatch st.1) c r).
  { apply in_getPossibleMatch. rewrite (ok_capacity _ _ _ Hok).
    split; [lia|done]. }
  destruct Hm as (set & Hset & _).
  destruct (column_task_emits st.1 st.2 c (seq 0 c) r s)
    as (e & He & Her & Hec & Hes).
  { apply elem_of_seq_lt. lia. }
  { rewrite Hcell by lia. fold x. rewrite Hx. by apply eqb_refl. }
  { done. }
  { intros r' Hr'. apply elem_of_seq_lt in Hr'.
    destruct (lookup_lt_is_Some_2 genes r' ltac:(lia)) as [gene Hgene].
    rewrite Hcell by lia. unfold score_of. rewrite Hgene, Hcol.
    eapply Hcmax; [|done]. lia. }
  { done. }
  exists (write_edge genes genes e). split; [|split; [|split]].
  - apply elem_of_checkForBBHSame. exists e. split; [done|].
    apply elem_of_checkForBBHSame_edges. exists set. rewrite Hec. by split.
  - simpl. rewrite Her. by apply filePositionAt_lookup.
  - simpl. rewrite Hec. by apply filePositionAt_lookup.
  - done.
Qed.

Lemma same_genome_mutual_best_is_written_witness :
  exists l,
    l ∈ calculateBidirectionalBestHitSameGenome 32 sample_genome
    /\ line_row l = 10 /\ line_col l = 50
    /\ eqb (line_score l) (calculateSimilarity 32 gene_ABCABC gene_ABCABC_bis)
       = true.
Proof.
  apply (same_genome_mutual_best_is_written 32 sample_genome
           0 2 gene_ABCABC gene_ABCABC_bis).
  - lia.
  - reflexivity.
  - reflexivity.
  - vm_compute. reflexivity.
  - intros [|[|[|c']]] gene Hlt Hgene; simpl in Hgene; [lia| | |done];
      injection Hgene as <-; vm_compute; reflexivity.
  - intros [|[|r']] gene Hlt Hgene; simpl in Hgene; [| |lia];
      injection Hgene as <-; vm_compute; reflexivity.
Defined.

(** ** KmersHandler::calculateKmers, window by window *)

Section Recorded.
Import KmersHandler.
Variable alphabet : string.
Variable k_ : Z.

Lemma elem_of_window_indexes n ss z :
  z ∈ window_indexes alphabet k_ n ss <->
  exists j, z = Z.of_nat j /\ (j < n)%nat /\ window_at alphabet k_ j = ss.
Proof.
  unfold window_indexes. rewrite list_elem_of_fmap. split.
  - intros (j & -> & Hj). apply list_elem_of_filter in Hj as [Hw Hj].
    apply elem_of_seq_lt in Hj. exists j. split; [done|]. split; [lia|done].
  - intros (j & -> & Hj & Hw). exists j. split; [done|].
    apply list_elem_of_filter. split; [done|]. apply elem_of_seq_lt. lia.
Qed.

Lemma window_indexes_S_eq n ss :
  window_at alphabet k_ n = ss ->
  window_indexes alphabet k_ (S n) ss
  = window_indexes alphabet k_ n ss ++ [Z.of_nat n].
Proof.
  intros Hw. unfold window_indexes.
  rewrite seq_S, filter_app, fmap_app. f_equal. simpl.
  rewrite filter_cons, decide_True by done. done.
Qed.

Lemma window_indexes_S_ne n ss :
  window_at alphabet k_ n <> ss ->
  window_indexes alphabet k_ (S n) ss = window_indexes alphabet k_ n ss.
Proof.
  intros Hw. unfold window_indexes.
  rewrite seq_S, filter_app, fmap_app. simpl.
  rewrite filter_cons, decide_False by done. simpl. by rewrite app_nil_r.
Qed.

Lemma window_indexes_unseen n ss :
  (forall j, (j < n)%nat -> window_at alphabet k_ j <> ss) ->
  window_indexes alphabet k_ n ss = [].
Proof.
  intros Hno. apply elem_of_nil_inv. intros z Hz.
  apply elem_of_window_indexes in Hz as (j & _ & Hj & Hw). by apply (Hno j).
Qed.

Lemma windows_recorded_initial : windows_recorded alphabet k_ 0 initial.
Proof.
  split.
  - reflexivity.
  - intros ss p H. unfold initial in H. cbn [currentKmers] in H.
    by rewrite lookup_empty in H.
  - intros j Hj. lia.
  - intros j p H. unfold initial in H. cbn [dictionary_] in H.
    by rewrite lookup_empty in H.
Qed.

Section Step.
Variable n : nat.
Variable st : state.
Hypothesis Hrec : windows_recorded alphabet k_ n st.

(** A pointer belongs to one window only. *)
Lemma pointer_window ss ss' p :
  currentKmers st !! ss = Some p -> currentKmers st !! ss' = Some p ->
  ss = ss'.
Proof.
  intros H1 H2.
  destruct (rec_current _ _ _ _ Hrec _ _ H1)
    as (kmer & Hk & Hidx & j & Hj & Hw & _).
  destruct (rec_current _ _ _ _ Hrec _ _ H2) as (kmer' & Hk' & Hidx' & _).
  rewrite Hk in Hk'. injection Hk' as <-.
  assert (Hin : Z.of_nat j ∈ window_indexes alphabet k_ n ss').
  { rewrite <- Hidx', Hidx. apply elem_of_window_indexes. by exists j. }
  apply elem_of_window_indexes in Hin as (j' & Hjj & _ & Hw').
  apply Nat2Z.inj in Hjj. by subst.
Qed.

(** Two indexes of the dictionary with the same pointer are the same. *)
Lemma dictionary_pointer_index j1 j2 p :
  dictionary_ st !! j1 = Some p -> dictionary_ st !! j2 = Some p -> j1 = j2.
Proof.
  intros H1 H2.
  destruct (rec_dict _ _ _ _ Hrec _ _ H1) as (n1 & -> & Hn1 & Hc1 & Hf1).
  destruct (rec_dict _ _ _ _ Hrec _ _ H2) as (n2 & -> & Hn2 & Hc2 & Hf2).
  pose proof (pointer_window _ _ _ Hc1 Hc2) as Hw.
  destruct (Nat.lt_total n1 n2) as [Hlt|[->|Hlt]]; [|done|].
  - by destruct (Hf2 n1 Hlt).
  - by destruct (Hf1 n2 Hlt).
Qed.

Lemma dictionary_pointer_allocated j p :
  dictionary_ st !! j = Some p -> (p < length (heap st))%nat.
Proof.
  intros H.
  destruct (rec_dict _ _ _ _ Hrec _ _ H) as (jn & _ & _ & Hc & _).
  destruct (rec_current _ _ _ _ Hrec _ _ Hc) as (kmer & Hk & _).
  eauto using lookup_lt_Some.
Qed.

Lemma dictionary_index_fresh : dictionary_ st !! Z.of_nat n = None.
Proof.
  destruct (dictionary_ st !! Z.of_nat n) as [p|] eqn:E; [|done].
  destruct (rec_dict _ _ _ _ Hrec _ _ E) as (jn & Hj & Hjn & _). lia.
Qed.

(** A window that was not seen before: a new k-mer is allocated and
    entered in both maps. *)
Lemma record_new_window :
  currentKmers st !! window_at alphabet k_ n = None ->
  windows_recorded alphabet k_ (S n)
    (record_window st (window_at alphabet k_ n) (Z.of_nat n)).
Proof.
  intros Hnew. set (ss := window_at alphabet k_ n) in *.
  assert (Hunseen : forall j, (j < n)%nat -> window_at alphabet k_ j <> ss).
  { intros j Hj Hw. destruct (rec_seen _ _ _ _ Hrec j Hj) as [p Hp].
    rewrite Hw, Hnew in Hp. done. }
  pose proof dictionary_index_fresh as Hfresh.
  unfold record_window. rewrite Hnew. unfold insert_new.
  rewrite Hnew, Hfresh. split; cbn [heap currentKmers dictionary_].
  - unfold totalMultiplicity. cbn [heap dictionary_].
    rewrite (sum_over_perm _ _ _ (map_to_list_insert _ _ _ Hfresh)).
    rewrite sum_over_cons. cbn [snd].
    rewrite list_lookup_middle by done. cbn.
    rewrite (sum_over_ext _
               (fun entry : Z * nat =>
                  default 0 (getMultiplicity <$> heap st !! entry.2))).
    + pose proof (rec_total _ _ _ _ Hrec) as Htot.
      unfold totalMultiplicity in Htot. rewrite Htot.
      change (getMultiplicity (Kmer_new (Z.of_nat n))) with 1. lia.
    + intros [j p] Hin. apply elem_of_map_to_list in Hin. cbn [snd].
      rewrite lookup_app_l by eauto using dictionary_pointer_allocated.
      done.
  - intros ss' p Hp. destruct (decide (ss' = ss)) as [->|Hne].
    + rewrite lookup_insert_eq in Hp. injection Hp as <-.
      exists (Kmer_new (Z.of_nat n)). split; [by apply list_lookup_middle|].
      split.
      * rewrite window_indexes_S_eq by done.
        by rewrite window_indexes_unseen.
      * exists n. split; [lia|]. split; [done|]. by rewrite lookup_insert_eq.
    + rewrite lookup_insert_ne in Hp by done.
      destruct (rec_current _ _ _ _ Hrec _ _ Hp)
        as (kmer & Hk & Hidx & j & Hj & Hw & Hd).
      exists kmer. split; [|split].
      * rewrite lookup_app_l by eauto using lookup_lt_Some. done.
      * rewrite window_indexes_S_ne by done. done.
      * exists j. split; [lia|]. split; [done|].
        rewrite lookup_insert_ne by lia. done.
  - intros j Hj. destruct (decide (window_at alphabet k_ j = ss)) as [->|Hne].
    + rewrite lookup_insert_eq. by eexists.
    + rewrite lookup_insert_ne by done.
      apply (rec_seen _ _ _ _ Hrec). 
      destruct (decide (j = n)) as [->|]; [done|lia].
  - intros j p Hp. destruct (decide (j = Z.of_nat n)) as [->|Hne].
    + rewrite lookup_insert_eq in Hp. injection Hp as <-.
      exists n. split; [done|]. split; [lia|]. split.
      * fold ss. by rewrite lookup_insert_eq.
      * exact Hunseen.
    + rewrite lookup_insert_ne in Hp by done.
      destruct (rec_dict _ _ _ _ Hrec _ _ Hp) as (jn & -> & Hjn & Hc & Hf).
      exists jn. split; [done|]. split; [lia|]. split; [|done].
      rewrite lookup_insert_ne; [done|].
      intros Hw. by apply (Hunseen jn).
Qed.

(** A window that was seen before: the index joins its k-mer, which both
    maps reach through the pointer. *)
Lemma record_seen_window p :
  currentKmers st !! window_at alphabet k_ n = Some p ->
  windows_recorded alphabet k_ (S n)
    (record_window st (window_at alphabet k_ n) (Z.of_nat n)).
Proof.
  intros Hseen. set (ss := window_at alphabet k_ n) in *.
  destruct (rec_current _ _ _ _ Hrec _ _ Hseen)
    as (kmer & Hk & Hidx & j0 & Hj0 & Hw0 & Hd0).
  unfold record_window. rewrite Hseen.
  split; cbn [heap currentKmers dictionary_].
  - unfold totalMultiplicity. cbn [heap dictionary_].
    pose proof (rec_total _ _ _ _ Hrec) as Htot.
    unfold totalMultiplicity in Htot.
    rewrite <- (sum_over_perm _ _ _ (map_to_list_delete _ _ _ Hd0)) in Htot.
    rewrite <- (sum_over_perm _ _ _ (map_to_list_delete _ _ _ Hd0)).
    rewrite sum_over_cons in *. cbn [snd] in *.
    rewrite list_lookup_alter_eq, Hk. rewrite Hk in Htot. cbn in *.
    rewrite (sum_over_ext _
               (fun entry : Z * nat =>
                  default 0 (getMultiplicity <$> heap st !! entry.2))).
    + unfold getMultiplicity in *. cbn. rewrite length_app. cbn. lia.
    + intros [j q] Hin. apply elem_of_map_to_list in Hin. cbn [snd].
      rewrite list_lookup_alter_ne; [done|]. intros <-.
      apply lookup_delete_Some in Hin as [Hne Hin].
      apply Hne. by apply (dictionary_pointer_index _ _ p).
  - intros ss' q Hq. destruct (decide (q = p)) as [->|Hne].
    + pose proof (pointer_window _ _ _ Hq Hseen) as ->.
      exists (addIndex kmer (Z.of_nat n)). split; [|split].
      * by rewrite list_lookup_alter_eq, Hk.
      * rewrite window_indexes_S_eq by done. cbn. by rewrite Hidx.
      * exists j0. split; [lia|]. by split.
    + destruct (rec_current _ _ _ _ Hrec _ _ Hq)
        as (kmer' & Hk' & Hidx' & j & Hj & Hw & Hd).
      exists kmer'. split; [|split].
      * by rewrite list_lookup_alter_ne.
      * rewrite window_indexes_S_ne; [done|].
        fold ss. intros ->. rewrite Hseen in Hq. by injection Hq as ->.
      * exists j. split; [lia|]. by split.
  - intros j Hj. destruct (decide (j = n)) as [->|Hne]; [by eexists|].
    apply (rec_seen _ _ _ _ Hrec). lia.
  - intros j q Hq.
    destruct (rec_dict _ _ _ _ Hrec _ _ Hq) as (jn & -> & Hjn & Hc & Hf).
    exists jn. split; [done|]. split; [lia|]. by split.
Qed.

Lemma record_window_recorded :
  windows_recorded alphabet k_ (S n)
    (record_window st (window_at alphabet k_ n) (Z.of_nat n)).
Proof.
  destruct (currentKmers st !! window_at alphabet k_ n) as [p|] eqn:E.
  - by apply (record_seen_window p).
  - by apply record_new_window.
Qed.
End Step.
End Recorded.

(** ** KmersHandler::calculateKmers, the whole call *)

Section CalculateKmers.
Import KmersHandler.

Lemma kmersNum_in_range alphabet k_ :
  Z.of_nat (String.length alphabet) + 1 < 2 ^ size_bits ->
  0 <= k_ <= Z.of_nat (String.length alphabet) + 1 ->
  kmersNum alphabet k_ = Z.of_nat (String.length alphabet) - k_ + 1.
Proof.
  intros HL Hk. unfold kmersNum. rewrite wrap_add_l. apply wrap_small. lia.
Qed.

(** The loop records one window after the other, up to the bound or up
    to the index past the end of the sequence, where [substr] throws. *)
Lemma calculateKmers_loop_records alphabet k_ kn m : forall fuel i st,
  Z.of_nat (String.length alphabet) + 1 < 2 ^ size_bits ->
  0 <= kn ->
  m = Nat.min (Z.to_nat kn) (String.length alphabet + 1) ->
  (i <= m)%nat -> (m - i < fuel)%nat ->
  windows_recorded alphabet k_ i st ->
  exists st',
    windows_recorded alphabet k_ m st'
    /\ calculateKmers_loop fuel alphabet k_ kn (Z.of_nat i) st
       = if kn <=? Z.of_nat (String.length alphabet) + 1
         then Returned st' else ThrownOutOfRange st'.
Proof.
  induction fuel as [|fuel IH]; intros i st HL Hkn Hm Hi Hfuel Hrec; [lia|].
  simpl. destruct (Z.ltb_spec (Z.of_nat i) kn) as [Hlt|Hge].
  - unfold substr.
    destruct (Z.ltb_spec (Z.of_nat (String.length alphabet)) (Z.of_nat i))
      as [Hpast|Hin].
    + exists st. assert (Him : i = m) by lia. rewrite <- Him.
      split; [done|].
      destruct (Z.leb_spec kn (Z.of_nat (String.length alphabet) + 1));
        [lia|done].
    + rewrite Nat2Z.id. fold (window_at alphabet k_ i).
      replace (wrap size_bits (Z.of_nat i + 1)) with (Z.of_nat (S i))
        by (rewrite wrap_small; lia).
      apply IH; try done; try lia. by apply record_window_recorded.
  - exists st. assert (Him : i = m) by lia. rewrite <- Him.
    split; [done|].
    destruct (Z.leb_spec kn (Z.of_nat (String.length alphabet) + 1));
      [done|lia].
Qed.

Lemma calculateKmers_outcome k_ alphabet :
  Z.of_nat (String.length alphabet) + 1 < 2 ^ size_bits ->
  exists st,
    windows_recorded alphabet k_
      (Nat.min (Z.to_nat (kmersNum alphabet k_)) (String.length alphabet + 1))
      st
    /\ calculateKmers k_ alphabet
       = if kmersNum alphabet k_ <=? Z.of_nat (String.length alphabet) + 1
         then Returned st else ThrownOutOfRange st.
Proof.
  intros HL. unfold calculateKmers.
  apply (calculateKmers_loop_records alphabet k_ (kmersNum alphabet k_) _
           (String.length alphabet + 2) 0 initial); try done; try lia.
  - unfold kmersNum, wrap. apply Z.mod_pos_bound. reflexivity.
  - apply windows_recorded_initial.
Qed.

(** What the dictionary holds once the windows below [n] are recorded:
    one k-mer for each first occurrence, with every index of its
    window. *)
Lemma recorded_kmer_at alphabet k_ n st :
  windows_recorded alphabet k_ n st ->
  forall j kmer,
    kmer_at st j = Some kmer <->
    exists jn, j = Z.of_nat jn /\ (jn < n)%nat
      /\ first_occurrence alphabet k_ jn
      /\ indexes kmer
         = window_indexes alphabet k_ n (window_at alphabet k_ jn).
Proof.
  intros Hrec j kmer. unfold kmer_at. split.
  - destruct (dictionary_ st !! j) as [p|] eqn:Hd; [|done]. simpl.
    intros Hk.
    destruct (rec_dict _ _ _ _ Hrec _ _ Hd) as (jn & -> & Hjn & Hc & Hf).
    destruct (rec_current _ _ _ _ Hrec _ _ Hc) as (kmer' & Hk' & Hidx & _).
    rewrite Hk in Hk'. injection Hk' as <-. by exists jn.
  - intros (jn & -> & Hjn & Hf & Hidx).
    destruct (rec_seen _ _ _ _ Hrec jn Hjn) as [p Hp].
    destruct (rec_current _ _ _ _ Hrec _ _ Hp)
      as (kmer' & Hk' & Hidx' & j0 & Hj0 & Hw0 & Hd0).
    destruct (rec_dict _ _ _ _ Hrec _ _ Hd0) as (j0' & Heq & _ & _ & Hf0).
    apply Nat2Z.inj in Heq. subst j0'.
    assert (j0 = jn) as ->.
    { destruct (Nat.lt_total j0 jn) as [Hlt|[?|Hlt]]; [|done|].
      - by destruct (Hf j0 Hlt).
      - by destruct (Hf0 jn Hlt). }
    rewrite Hd0. simpl. rewrite Hk'. f_equal.
    destruct kmer, kmer'. simpl in *. congruence.
Qed.

(** X14: on a sequence of length L and for 0 <= k <= L + 1,
    [calculateKmers] returns, and the multiplicities of the k-mers of the
    dictionary add up to the number of windows, L - k + 1. *)
Theorem calculateKmers_counts_every_window (k_ : Z) (alphabet : string) :
  Z.of_nat (String.length alphabet) + 1 < 2 ^ size_bits ->
  0 <= k_ <= Z.of_nat (String.length alphabet) + 1 ->
  exists st,
    calculateKmers k_ alphabet = Returned st
    /\ totalMultiplicity st = Z.of_nat (String.length alphabet) - k_ + 1.
Proof.
  intros HL Hk.
  destruct (calculateKmers_outcome k_ alphabet HL) as (st & Hrec & Hout).
  rewrite (kmersNum_in_range alphabet k_ HL Hk) in Hrec, Hout.
  exists st. split.
  - rewrite Hout.
    destruct (Z.leb_spec (Z.of_nat (String.length alphabet) - k_ + 1)
                (Z.of_nat (String.length alphabet) + 1)); [done|lia].
  - rewrite (rec_total _ _ _ _ Hrec). lia.
Qed.

Lemma calculateKmers_counts_every_window_witness :
  exists st,
    calculateKmers 3 "ABCABC" = Returned st /\ totalMultiplicity st = 4.
Proof.
  apply (calculateKmers_counts_every_window 3 "ABCABC").
  - vm_compute. reflexivity.
  - cbn. lia.
Defined.

(** X15: on a sequence of length L and for 0 <= k <= L + 1, the
    dictionary [calculateKmers] leaves holds a k-mer exactly at the
    indexes where a window occurs for the first time, and the k-mer at
    such an index lists, in ascending order, every index below L - k + 1
    that reads the same window: the later occurrences reach it through
    the pointer shared with the map by window. *)
Theorem calculateKmers_dictionary_by_first_occurrence
  (k_ : Z) (alphabet : string) :
  Z.of_nat (String.length alphabet) + 1 < 2 ^ size_bits ->
  0 <= k_ <= Z.of_nat (String.length alphabet) + 1 ->
  exists st,
    calculateKmers k_ alphabet = Returned st
    /\ forall j kmer,
         kmer_at st j = Some kmer <->
         exists jn, j = Z.of_nat jn
           /\ Z.of_nat jn < Z.of_nat (String.length alphabet) - k_ + 1
           /\ first_occurrence alphabet k_ jn
           /\ indexes kmer
              = window_indexes alphabet k_
                  (Z.to_nat (Z.of_nat (String.length alphabet) - k_ + 1))
                  (window_at alphabet k_ jn).
Proof.
  intros HL Hk.
  destruct (calculateKmers_outcome k_ alphabet HL) as (st & Hrec & Hout).
  rewrite (kmersNum_in_range alphabet k_ HL Hk) in Hrec, Hout.
  replace (Nat.min _ _)
    with (Z.to_nat (Z.of_nat (String.length alphabet) - k_ + 1))
    in Hrec by lia.
  exists st. split.
  - rewrite Hout.
    destruct (Z.leb_spec (Z.of_nat (String.length alphabet) - k_ + 1)
                (Z.of_nat (String.length alphabet) + 1)); [done|lia].
  - intros j kmer. rewrite (recorded_kmer_at _ _ _ _ Hrec). split.
    + intros (jn & -> & Hjn & Hf & Hidx). exists jn.
      split; [done|]. split; [lia|]. by split.
    + intros (jn & -> & Hjn & Hf & Hidx). exists jn.
      split; [done|]. split; [lia|]. by split.
Qed.

Lemma calculateKmers_dictionary_by_first_occurrence_witness :
  exists st,
    calculateKmers 3 "ABCABC" = Returned st
    /\ forall j kmer,
         kmer_at st j = Some kmer <->
         exists jn, j = Z.of_nat jn /\ Z.of_nat jn < 4
           /\ first_occurrence "ABCABC" 3 jn
           /\ indexes kmer
              = window_indexes "ABCABC" 3 4 (window_at "ABCABC" 3 jn).
Proof.
  apply (calculateKmers_dictionary_by_first_occurrence 3 "ABCABC").
  - vm_compute. reflexivity.
  - cbn. lia.
Defined.

(** X16: on a sequence of length L and for L + 1 < k < 2^32,
    [calculateKmers] does not return: the count of windows wraps around,
    the loop records a window at every index from 0 to L, the clipped
    ones included, and [substr] throws at index L + 1; the dictionary it
    leaves has total multiplicity L + 1. *)
Theorem calculateKmers_throws_past_the_end (k_ : Z) (alphabet : string) :
  Z.of_nat (String.length alphabet) + 1 < k_ -> k_ < 2 ^ 32 ->
  exists st,
    calculateKmers k_ alphabet = ThrownOutOfRange st
    /\ totalMultiplicity st = Z.of_nat (String.length alphabet) + 1
    /\ is_Some (kmer_at st 0).
Proof.
  intros HL Hk.
  assert (H32 : 2 ^ 32 = 4294967296) by reflexivity.
  assert (H64 : 2 ^ size_bits = 18446744073709551616) by reflexivity.
  assert (HL64 : Z.of_nat (String.length alphabet) + 1 < 2 ^ size_bits)
    by lia.
  pose proof (kmersNum_shorter alphabet k_ HL Hk) as Hn.
  destruct (calculateKmers_outcome k_ alphabet HL64) as (st & Hrec & Hout).
  replace (Nat.min _ _) with (String.length alphabet + 1)%nat in Hrec by lia.
  exists st. split; [|split].
  - rewrite Hout.
    destruct (Z.leb_spec (kmersNum alphabet k_)
                (Z.of_nat (String.length alphabet) + 1)); [lia|done].
  - rewrite (rec_total _ _ _ _ Hrec). lia.
  - destruct (kmer_at st 0) as [kmer|] eqn:E; [by eexists|exfalso].
    destruct (rec_seen _ _ _ _ Hrec 0%nat ltac:(lia)) as [p Hp].
    destruct (rec_current _ _ _ _ Hrec _ _ Hp)
      as (kmer & Hk' & Hidx & j0 & Hj0 & Hw0 & Hd0).
    destruct (rec_dict _ _ _ _ Hrec _ _ Hd0) as (j0' & Heq & _ & _ & Hf0).
    apply Nat2Z.inj in Heq. subst j0'.
    destruct j0 as [|j0]; [|by destruct (Hf0 0%nat ltac:(lia))].
    unfold kmer_at in E. change (Z.of_nat 0) with 0 in Hd0.
    rewrite Hd0 in E. simpl in E. by rewrite Hk' in E.
Qed.

Lemma calculateKmers_throws_past_the_end_witness :
  exists st,
    calculateKmers 5 "AB" = ThrownOutOfRange st
    /\ totalMultiplicity st = 3
    /\ is_Some (kmer_at st 0).
Proof.
  apply (calculateKmers_throws_past_the_end 5 "AB").
  - vm_compute. reflexivity.
  - vm_compute. reflexivity.
Defined.
End CalculateKmers.

(** ** The order of the row tasks *)

(** Two states of the same shape with the same candidates and the same
    cells are the same state. *)
Lemma row_state_ext R C (st st' : row_state) :
  state_ok R C st -> state_ok R C st' ->
  (forall r, (r < R)%nat ->
     BBHCandidatesContainer.getCandidateAt st.1 r
     = BBHCandidatesContainer.getCandidateAt st'.1 r) ->
  (forall r c, (r < R)%nat -> (c < C)%nat ->
     ScoresContainer.getScoreAt st.2 r c
     = ScoresContainer.getScoreAt st'.2 r c) ->
  st = st'.
Proof.
  destruct st as [[cap cands] [rows cols cells]].
  destruct st' as [[cap' cands'] [rows' cols' cells']].
  intros [H1 H2 H3 H4 H5] [H1' H2' H3' H4' H5'] Hcand Hcell.
  simpl in *. subst cap cap' rows rows' cols cols'.
  assert (cands = cands') as <-.
  { apply list_eq. intros i.
    destruct (decide (i < R)%nat) as [Hi|Hi].
    - specialize (Hcand i Hi).
      unfold BBHCandidatesContainer.getCandidateAt in Hcand. simpl in Hcand.
      destruct (lookup_lt_is_Some_2 cands i ltac:(lia)) as [a Ha].
      destruct (lookup_lt_is_Some_2 cands' i ltac:(lia)) as [b Hb].
      rewrite Ha, Hb in *. simpl in Hcand. by subst.
    - rewrite !lookup_ge_None_2 by lia. done. }
  assert (cells = cells') as <-; [|done].
  apply list_eq. intros i.
  destruct (decide (i < R * C)%nat) as [Hi|Hi].
  - assert (HC : (0 < C)%nat) by nia.
    pose proof (Nat.div_mod_eq i C) as Hdm.
    pose proof (Nat.mod_upper_bound i C ltac:(lia)) as Hmod.
    assert (Hr : (i `div` C < R)%nat) by (apply Nat.Div0.div_lt_upper_bound; lia).
    specialize (Hcell _ _ Hr Hmod).
    unfold ScoresContainer.getScoreAt in Hcell. simpl in Hcell.
    replace (i `div` C * C + i `mod` C)%nat with i in Hcell by lia.
    destruct (lookup_lt_is_Some_2 cells i ltac:(lia)) as [a Ha].
    destruct (lookup_lt_is_Some_2 cells' i ltac:(lia)) as [b Hb].
    rewrite Ha, Hb in *. simpl in Hcell. by subst.
  - rewrite !lookup_ge_None_2 by lia. done.
Qed.

(** Row tasks write to different rows: running them in another order
    gives the same state. *)
Lemma fill_rows_perm R C x cols_of st rs rs' :
  state_ok R C st ->
  (forall r, Forall (fun c => (c < C)%nat) (cols_of r)) ->
  NoDup rs -> Forall (fun r => (r < R)%nat) rs -> rs ≡ₚ rs' ->
  fill_rows x cols_of rs st = fill_rows x cols_of rs' st.
Proof.
  intros Hst Hcols Hnd Hlt Hperm.
  assert (Hnd' : NoDup rs') by (by rewrite <- Hperm).
  assert (Hlt' : Forall (fun r => (r < R)%nat) rs') by (by rewrite <- Hperm).
  apply (row_state_ext R C); auto using fill_rows_ok.
  - intros r Hr. destruct (decide (r ∈ rs)) as [Hin|Hout].
    + rewrite !(fill_rows_candidate_in R C) by (done || by rewrite <- Hperm).
      done.
    + rewrite !fill_rows_candidate_out by (done || by rewrite <- Hperm).
      done.
  - intros r c Hr Hc.
    destruct (decide (r ∈ rs)) as [Hin|Hout];
      [destruct (decide (c ∈ cols_of r)) as [Hcin|Hcout]|].
    + rewrite !(fill_rows_score_in R C) by (done || by rewrite <- Hperm).
      done.
    + rewrite (fill_rows_score_out R C x cols_of st Hst Hcols rs r c Hc)
        by (by right).
      rewrite (fill_rows_score_out R C x cols_of st Hst Hcols rs' r c Hc)
        by (by right).
      done.
    + assert (Hout' : r ∉ rs') by (by rewrite <- Hperm).
      rewrite (fill_rows_score_out R C x cols_of st Hst Hcols rs r c Hc)
        by (by left).
      rewrite (fill_rows_score_out R C x cols_of st Hst Hcols rs' r c Hc)
        by (by left).
      done.
Qed.

(** X17: the row tasks [calculateRow] hands to the pool can be run one
    after the other in any order: each writes its own row of the matrix
    and its own candidate, and the state after the last one is the state
    of the run in submission order. *)
Theorem row_tasks_commute
  (mult_bits : Z) (rowGenes colGenes : list Gene) (order : list nat) :
  order ≡ₚ seq 0 (length rowGenes) ->
  foldl (fun st row => calculateRow_task mult_bits rowGenes colGenes row st)
        (BBHCandidatesContainer.new (length rowGenes) (length colGenes),
         ScoresContainer.new (length rowGenes) (length colGenes))
        order
  = calculateRow mult_bits rowGenes colGenes
      (BBHCandidatesContainer.new (length rowGenes) (length colGenes))
      (ScoresContainer.new (length rowGenes) (length colGenes)).
Proof.
  intros Hperm. rewrite calculateRow_fill.
  rewrite (foldl_ext_in _
             (fun st row =>
                fill_row (score_of mult_bits rowGenes colGenes)
                  (seq 0 (length colGenes)) row st)).
  - apply (fill_rows_perm (length rowGenes) (length colGenes)).
    + apply fresh_state_ok.
    + intros _. apply seq_all_lt.
    + rewrite Hperm. apply NoDup_seq.
    + rewrite Hperm. apply seq_all_lt.
    + done.
  - intros st row Hrow. rewrite Hperm in Hrow. apply elem_of_seq_lt in Hrow.
    apply calculateRow_task_fill. lia.
Qed.

Lemma row_tasks_commute_witness :
  foldl (fun st row => calculateRow_task 32 sample_genome sample_rows row st)
        (BBHCandidatesContainer.new 3 1, ScoresContainer.new 3 1)
        [2; 0; 1]%nat
  = calculateRow 32 sample_genome sample_rows
      (BBHCandidatesContainer.new 3 1) (ScoresContainer.new 3 1).
Proof.
  apply (row_tasks_commute 32 sample_genome sample_rows [2; 0; 1]%nat).
  simpl. rewrite (Permutation_swap 0%nat 2%nat [1%nat]).
  apply perm_skip. apply Permutation_swap.
Defined.

(** X18: the same for the row tasks of [calculateRowSame], each of which
    writes the cells right of the diagonal on its own row. *)
Theorem row_tasks_same_commute
  (mult_bits : Z) (genes : list Gene) (order : list nat) :
  order ≡ₚ seq 0 (length genes) ->
  foldl (fun st row => calculateRowSame_task mult_bits genes row st)
        (BBHCandidatesContainer.new (length genes) (length genes),
         ScoresContainer.new (length genes) (length genes))
        order
  = calculateRowSame mult_bits genes
      (BBHCandidatesContainer.new (length genes) (length genes))
      (ScoresContainer.new (length genes) (length genes)).
Proof.
  intros Hperm. rewrite calculateRowSame_fill.
  rewrite (foldl_ext_in _
             (fun st row =>
                fill_row (score_of mult_bits genes genes)
                  (seq (row + 1) (length genes - (row + 1))) row st)).
  - apply (fill_rows_perm (length genes) (length genes) _
             (fun row => seq (row + 1) (length genes - (row + 1)))).
    + apply fresh_state_ok.
    + intros r. apply seq_upper_lt.
    + rewrite Hperm. apply NoDup_seq.
    + rewrite Hperm. apply seq_all_lt.
    + done.
  - intros st row _. apply calculateRowSame_task_fill.
Qed.

Lemma row_tasks_same_commute_witness :
  foldl (fun st row => calculateRowSame_task 32 sample_genome row st)
        (BBHCandidatesContainer.new 3 3, ScoresContainer.new 3 3)
        [2; 0; 1]%nat
  = calculateRowSame 32 sample_genome
      (BBHCandidatesContainer.new 3 3) (ScoresContainer.new 3 3).
Proof.
  apply (row_tasks_same_commute 32 sample_genome [2; 0; 1]%nat).
  simpl. rewrite (Permutation_swap 0%nat 2%nat [1%nat]).
  apply perm_skip. apply Permutation_swap.
Defined.
